(** * Packet classifier: a shallow embedding of the classification core

    The development follows the C++ sources of the engine:

    - [IntervalTree]   : [src/data_structures/interval_tree.cpp] and
                         [data_structures/interval_tree.h];
    - [BloomFilter]    : [src/data_structures/bloom_filter.cpp] and
                         [data_structures/bloom_filter.h];
    - [ReadWriteLock]  : the lock of [src/utils/threading.cpp], one
                         critical section per step;
    - [Classifier]     : [include/packet_classifier.h], the methods of
                         [RuleManager] with the guards they construct on
                         their lock, and the methods of [PacketClassifier];
    - [CompressedTrie] : [src/data_structures/compressed_trie.cpp] and
                         [data_structures/compressed_trie.h];
    - [ConcurrentHashTable] : [src/data_structures/concurrent_hash.cpp] and
                         [data_structures/concurrent_hash.h], as one thread
                         runs it;
    - [GnuSort]        : [std::sort] as the GNU C++ library implements it,
                         the sort [rebuildPriorityCache] calls;
    - [Reference]      : the reference classifier the specification
                         compares [classify] with;
    - [ClassifierSpec] : the contract of [std::sort], the invariants and
                         the scenarios the statements are about.

    The definitions come first; the modules [IntervalTreeFacts],
    [BloomFilterFacts] and [ClassifierFacts] hold the proofs, and
    [ClassifierExtra], [IntervalTreeExtra], [BloomFilterExtra],
    [CompressedTrieFacts], [ConcurrentHashTableFacts] and
    [ReadWriteLockFacts] the further properties of the code.

    C++ [int], [uint16_t], [uint32_t] and [uint64_t] values are integers of
    [Z]; where the code does arithmetic on an unsigned 64-bit value the
    wrap-around is written out with [wrap64].  A null pointer dereference is
    undefined behaviour; functions that can reach one return [option], with
    [None] standing for the undefined run.  A call that waits on a
    condition no thread can bring about does not return; such functions
    return [option] as well, with [None] for the call that does not
    return. *)

From Stdlib Require Import ZArith Lia Bool ZifyBool.
From stdpp Require Import base option list gmap strings fin_maps sorting pretty.

Local Open Scope Z_scope.

(** 64-bit unsigned wrap-around. *)
Definition wrap64 (z : Z) : Z := z mod 2 ^ 64.

(** Short-circuit conjunction over a possibly undefined right operand:
    [a && b] evaluates [b] only when [a] holds. *)
Definition and_then (a : bool) (b : option bool) : option bool :=
  if a then b else Some false.

(* ===================================================================== *)
(** * The interval tree *)
(* ===================================================================== *)

Module IntervalTree.

(** [struct Interval]. *)
Record Interval := mkInterval { low : Z; high : Z; data_id : Z }.

#[global] Instance Interval_eq_dec : EqDecision Interval.
Proof. solve_decision. Defined.

(** [struct IntervalNode]; [Leaf] is the null [unique_ptr].  The [interval]
    pointer of a node is never null: every node is built by
    [std::make_unique<IntervalNode>] from a freshly allocated interval. *)
Inductive IntervalNode :=
| Leaf
| Node (interval : Interval) (max_high : Z)
       (left right : IntervalNode) (height : Z).

Definition is_node (n : IntervalNode) : bool :=
  match n with Leaf => false | Node _ _ _ _ _ => true end.

(** Field reads through a pointer; [None] on the null pointer. *)
Definition interval_of (n : IntervalNode) : option Interval :=
  match n with Leaf => None | Node i _ _ _ _ => Some i end.

Definition max_high_of (n : IntervalNode) : option Z :=
  match n with Leaf => None | Node _ m _ _ _ => Some m end.

Definition left_of (n : IntervalNode) : IntervalNode :=
  match n with Leaf => Leaf | Node _ _ l _ _ => l end.

Definition right_of (n : IntervalNode) : IntervalNode :=
  match n with Leaf => Leaf | Node _ _ _ r _ => r end.

(** [IntervalNode::IntervalNode(std::unique_ptr<Interval>)]. *)
Definition new_node (i : Interval) : IntervalNode :=
  Node i (high i) Leaf Leaf 1.

(** [IntervalTree::getHeight]. *)
Definition getHeight (n : IntervalNode) : Z :=
  match n with Leaf => 0 | Node _ _ _ _ h => h end.

(** [IntervalTree::updateNodeHeight]. *)
Definition updateNodeHeight (n : IntervalNode) : IntervalNode :=
  match n with
  | Leaf => Leaf
  | Node i m l r _ => Node i m l r (1 + Z.max (getHeight l) (getHeight r))
  end.

(** [IntervalNode::updateMaxHigh]. *)
Definition updateMaxHigh (n : IntervalNode) : IntervalNode :=
  match n with
  | Leaf => Leaf
  | Node i _ l r h =>
      let m0 := high i in
      let m1 := match l with Leaf => m0 | Node _ lm _ _ _ => Z.max m0 lm end in
      let m2 := match r with Leaf => m1 | Node _ rm _ _ _ => Z.max m1 rm end in
      Node i m2 l r h
  end.

(** [IntervalTree::getBalanceFactor]. *)
Definition getBalanceFactor (n : IntervalNode) : Z :=
  match n with
  | Leaf => 0
  | Node _ _ l r _ => getHeight l - getHeight r
  end.

(** Apply [f] to the right (left) child in place. *)
Definition on_right (f : IntervalNode -> IntervalNode) (n : IntervalNode) :=
  match n with Leaf => Leaf | Node i m l r h => Node i m l (f r) h end.

Definition on_left (f : IntervalNode -> IntervalNode) (n : IntervalNode) :=
  match n with Leaf => Leaf | Node i m l r h => Node i m (f l) r h end.

(** [IntervalTree::rotateRight].  [y] and [y->left] are dereferenced. *)
Definition rotateRight (y : IntervalNode) : option IntervalNode :=
  match y with
  | Node yi ym (Node xi xm xl xr xh) yr yh =>
      (* x = move(y->left); y->left = move(x->right); x->right = move(y) *)
      let x := Node xi xm xl (Node yi ym xr yr yh) xh in
      let x := on_right updateNodeHeight x in
      let x := updateNodeHeight x in
      let x := on_right updateMaxHigh x in
      Some (updateMaxHigh x)
  | _ => None
  end.

(** [IntervalTree::rotateLeft]. *)
Definition rotateLeft (x : IntervalNode) : option IntervalNode :=
  match x with
  | Node xi xm xl (Node yi ym yl yr yh) xh =>
      (* y = move(x->right); x->right = move(y->left); y->left = move(x) *)
      let y := Node yi ym (Node xi xm xl yl xh) yr yh in
      let y := on_left updateNodeHeight y in
      let y := updateNodeHeight y in
      let y := on_left updateMaxHigh y in
      Some (updateMaxHigh y)
  | _ => None
  end.

(** The balancing tail of [insertRecursive].  [new_interval] is the local
    [unique_ptr] as it stands when the tail runs; [node] is not null. *)
Definition insert_rebalance (node : IntervalNode)
    (new_interval : option Interval) : option IntervalNode :=
  let node := updateNodeHeight node in
  let node := updateMaxHigh node in
  let balance := getBalanceFactor node in
  (* Left Left *)
  c ← and_then (balance >? 1)
        (n ← new_interval; l ← interval_of (left_of node);
         Some (low n <? low l));
  if c : bool then rotateRight node else
  (* Right Right *)
  c ← and_then (balance <? -1)
        (n ← new_interval; r ← interval_of (right_of node);
         Some (low n >? low r));
  if c : bool then rotateLeft node else
  (* Left Right *)
  c ← and_then (balance >? 1)
        (n ← new_interval; l ← interval_of (left_of node);
         Some (low n >? low l));
  if c : bool then
    match node with
    | Leaf => None
    | Node i m l r h => l' ← rotateLeft l; rotateRight (Node i m l' r h)
    end
  else
  (* Right Left *)
  c ← and_then (balance <? -1)
        (n ← new_interval; r ← interval_of (right_of node);
         Some (low n <? low r));
  if c : bool then
    match node with
    | Leaf => None
    | Node i m l r h => r' ← rotateRight r; rotateLeft (Node i m l r' h)
    end
  else Some node.

(** [IntervalTree::insertRecursive].  Every branch of the descent passes
    [std::move(new_interval)] to the recursive call, whose by-value
    parameter takes the ownership: when the call returns, the caller's
    [new_interval] is the null pointer, and that is what the balancing tail
    reads. *)
Fixpoint insertRecursive (node : IntervalNode) (new_interval : Interval)
  : option IntervalNode :=
  match node with
  | Leaf => Some (new_node new_interval)
  | Node i m l r h =>
      node' ←
        (if low new_interval <? low i then
           l' ← insertRecursive l new_interval; Some (Node i m l' r h)
         else if low new_interval >? low i then
           r' ← insertRecursive r new_interval; Some (Node i m l r' h)
         else if high new_interval <? high i then
           l' ← insertRecursive l new_interval; Some (Node i m l' r h)
         else
           r' ← insertRecursive r new_interval; Some (Node i m l r' h));
      let moved_from : option Interval := None in
      insert_rebalance node' moved_from
  end.

(** [IntervalTree::insert(int, int, int)] on the tree rooted at [root]. *)
Definition insert (root : IntervalNode) (lo hi id : Z) : option IntervalNode :=
  if lo >? hi then Some root
  else insertRecursive root (mkInterval lo hi id).

(** [IntervalTree::findMin]; the loop stops at the leftmost node. *)
Fixpoint findMin (node : IntervalNode) : IntervalNode :=
  match node with
  | Leaf => Leaf
  | Node _ _ Leaf _ _ => node
  | Node _ _ l _ _ => findMin l
  end.

(** The balancing tail of [removeRecursive]; [node] is not null. *)
Definition remove_rebalance (node : IntervalNode) : option IntervalNode :=
  let node := updateNodeHeight node in
  let node := updateMaxHigh node in
  let balance := getBalanceFactor node in
  match node with
  | Leaf => Some Leaf
  | Node i m l r h =>
      if (balance >? 1) && (getBalanceFactor l >=? 0) then rotateRight node
      else if (balance >? 1) && (getBalanceFactor l <? 0) then
        l' ← rotateLeft l; rotateRight (Node i m l' r h)
      else if (balance <? -1) && (getBalanceFactor r <=? 0) then rotateLeft node
      else if (balance <? -1) && (getBalanceFactor r >? 0) then
        r' ← rotateRight r; rotateLeft (Node i m l r' h)
      else Some node
  end.

(** [IntervalTree::removeRecursive]. *)
Fixpoint removeRecursive (node : IntervalNode) (target : Interval)
  : option IntervalNode :=
  match node with
  | Leaf => Some Leaf
  | Node i m l r h =>
      let target_is_less :=
        (low target <? low i) ||
        ((low target =? low i) && (high target <? high i)) in
      let target_is_greater :=
        (low target >? low i) ||
        ((low target =? low i) && (high target >? high i)) in
      if target_is_less then
        l' ← removeRecursive l target; remove_rebalance (Node i m l' r h)
      else if target_is_greater then
        r' ← removeRecursive r target; remove_rebalance (Node i m l r' h)
      else if (low i =? low target) && (high i =? high target)
              && (data_id i =? data_id target) then
        match l, r with
        | Leaf, _ => Some r            (* no child, or the right child only *)
        | _, Leaf => Some l            (* the left child only *)
        | _, _ =>
            match interval_of (findMin r) with
            | None => None
            | Some succ =>
                r' ← removeRecursive r succ;
                remove_rebalance (Node succ m l r' h)
            end
        end
      else remove_rebalance node
  end.

(** [IntervalTree::remove(int, int, int)]: the new root and the returned
    flag. *)
Definition remove (root : IntervalNode) (lo hi id : Z)
  : option (bool * IntervalNode) :=
  root' ← removeRecursive root (mkInterval lo hi id);
  Some (true, root').

(** [IntervalTree::findOverlappingRecursive(node, point, result)]: the
    intervals pushed onto [result], in push order. *)
Fixpoint findOverlappingRecursive (node : IntervalNode) (point : Z)
  : list Interval :=
  match node with
  | Leaf => []
  | Node i _ l r _ =>
      (if (point >=? low i) && (point <=? high i) then [i] else [])
      ++ (match l with
          | Node _ lm _ _ _ =>
              if lm >=? point then findOverlappingRecursive l point else []
          | Leaf => []
          end)
      ++ (match r with
          | Node _ rm _ _ _ =>
              if point >=? low i then findOverlappingRecursive r point
              else if (rm >=? point) && (point >? high i)
                   then findOverlappingRecursive r point
                   else []
          | Leaf => []
          end)
  end.

(** [IntervalTree::findOverlappingIntervals(int point)]. *)
Definition findOverlappingIntervals (root : IntervalNode) (point : Z)
  : list Interval :=
  findOverlappingRecursive root point.

(** A run of [insert] calls from the empty tree. *)
Definition insert_all (l : list Interval) : option IntervalNode :=
  foldl (fun acc i => t ← acc; insert t (low i) (high i) (data_id i))
        (Some Leaf) l.

(** ** Invariants of the tree *)

(** The intervals stored in a tree. *)
Fixpoint elements (t : IntervalNode) : list Interval :=
  match t with
  | Leaf => []
  | Node i _ l r _ => i :: elements l ++ elements r
  end.

(** Search-tree order on [low]: ties may sit on either side. *)
Fixpoint bst (t : IntervalNode) : Prop :=
  match t with
  | Leaf => True
  | Node i _ l r _ =>
      Forall (fun x => low x <= low i) (elements l) /\
      Forall (fun x => low i <= low x) (elements r) /\
      bst l /\ bst r
  end.

(** The augmentation: [max_high] bounds every [high] of the subtree. *)
Fixpoint max_bound (t : IntervalNode) : Prop :=
  match t with
  | Leaf => True
  | Node i m l r _ =>
      Forall (fun x => high x <= m) (i :: elements l ++ elements r) /\
      max_bound l /\ max_bound r
  end.

(** The stored heights are the heights the code computes. *)
Fixpoint heights_ok (t : IntervalNode) : Prop :=
  match t with
  | Leaf => True
  | Node _ _ l r h =>
      h = 1 + Z.max (getHeight l) (getHeight r) /\
      heights_ok l /\ heights_ok r
  end.

(** The trees the public interface can build. *)
Inductive reachable : IntervalNode -> Prop :=
| reach_empty : reachable Leaf
| reach_insert t lo hi id t' :
    reachable t -> insert t lo hi id = Some t' -> reachable t'
| reach_remove t lo hi id b t' :
    reachable t -> remove t lo hi id = Some (b, t') -> reachable t'.

(** ** The range query *)

(** [IntervalTree::findOverlappingRecursive(node, query_interval, result)]:
    the intervals pushed onto [result], in push order. *)
Fixpoint findOverlappingRange (node : IntervalNode) (query : Interval)
  : list Interval :=
  match node with
  | Leaf => []
  | Node i _ l r _ =>
      (if (low query <=? high i) && (high query >=? low i) then [i] else [])
      ++ (match l with
          | Node _ lm _ _ _ =>
              if lm >=? low query then findOverlappingRange l query else []
          | Leaf => []
          end)
      ++ (match r with
          | Node _ _ _ _ _ =>
              if high query >=? low i then findOverlappingRange r query
              else []
          | Leaf => []
          end)
  end.

(** [IntervalTree::findOverlappingIntervals(int low, int high)]. *)
Definition findOverlappingIntervalsRange (root : IntervalNode) (lo hi : Z)
  : list Interval :=
  if lo >? hi then []
  else findOverlappingRange root (mkInterval lo hi 0).

(** ** More invariants *)

(** The order of the descent of [insertRecursive] and [removeRecursive]:
    by [low], then by [high]. *)
Definition key_lt (a b : Interval) : Prop :=
  low a < low b \/ (low a = low b /\ high a < high b).

#[global] Instance key_lt_dec a b : Decision (key_lt a b).
Proof. unfold key_lt. apply _. Defined.

(** The intervals in symmetric order: left subtree, node, right subtree. *)
Fixpoint inorder (t : IntervalNode) : list Interval :=
  match t with
  | Leaf => []
  | Node i _ l r _ => inorder l ++ i :: inorder r
  end.

(** A search tree for [key_lt] in which no two intervals have the same
    range: the symmetric order is strictly increasing. *)
Definition sbst (t : IntervalNode) : Prop :=
  StronglySorted key_lt (inorder t).

(** The AVL balance condition on the stored heights. *)
Fixpoint balanced (t : IntervalNode) : Prop :=
  match t with
  | Leaf => True
  | Node _ _ l r _ =>
      -1 <= getHeight l - getHeight r <= 1 /\ balanced l /\ balanced r
  end.

(** Insertion by the descent of [insertRecursive] alone: the new node is
    hung where the search ends and the fields on the path are refreshed;
    no node is rotated. *)
Fixpoint plain_insert (node : IntervalNode) (n : Interval) : IntervalNode :=
  match node with
  | Leaf => new_node n
  | Node i m l r h =>
      updateMaxHigh
        (updateNodeHeight
           (if low n <? low i then Node i m (plain_insert l n) r h
            else if low n >? low i then Node i m l (plain_insert r n) h
            else if high n <? high i then Node i m (plain_insert l n) r h
            else Node i m l (plain_insert r n) h))
  end.

(** The point [q] lies in [x]; the range [lo, hi] meets [x]. *)
Definition contains (q : Z) (x : Interval) : Prop := low x <= q <= high x.

Definition overlaps (lo hi : Z) (x : Interval) : Prop :=
  lo <= high x /\ hi >= low x.

#[global] Instance contains_dec q x : Decision (contains q x).
Proof. unfold contains. apply _. Defined.

#[global] Instance overlaps_dec lo hi x : Decision (overlaps lo hi x).
Proof. unfold overlaps. apply _. Defined.

End IntervalTree.

(* ===================================================================== *)
(** * The Bloom filter *)
(* ===================================================================== *)

Module BloomFilter.

(** The fields of [class BloomFilter]. *)
Record t := mk {
  bit_array_size : Z;          (* m, uint64_t *)
  num_hash_functions : Z;      (* k, int *)
  bit_array : list bool;       (* std::vector<bool> *)
  current_insertions : Z       (* uint64_t *)
}.

(** [BloomFilter::hashFunction2]: DJB2 over the bytes, in 64-bit unsigned
    arithmetic. *)
Fixpoint hashFunction2_loop (hash_val : Z) (data : string) : Z :=
  match data with
  | EmptyString => hash_val
  | String c rest =>
      hashFunction2_loop
        (wrap64 (wrap64 (wrap64 (Z.shiftl hash_val 5) + hash_val)
                 + Z.of_N (Ascii.N_of_ascii c)))
        rest
  end.

Definition hashFunction2 (data : string) : Z := hashFunction2_loop 5381 data.

(** [bit_array[h]] as an rvalue and [bit_array[h] = true].  The positions
    the filter uses are below [length bit_array] (lemma [hash_in_range]
    with the invariant [wf]). *)
Definition get_bit (bits : list bool) (h : Z) : bool :=
  default false (bits !! Z.to_nat h).

Definition set_bit (bits : list bool) (h : Z) : list bool :=
  <[Z.to_nat h := true]> bits.

Section WithStdHash.

(** [std::hash<std::string>], which [hashFunction1] returns unchanged; the
    standard library fixes only that it is a function of the bytes. *)
Variable std_hash : string -> Z.

Definition hashFunction1 (data : string) : Z := wrap64 (std_hash data).

(** The body of the loop of [BloomFilter::hash] at index [i]. *)
Definition hash_at (bf : t) (h1 h2 i : Z) : Z :=
  if i =? 0 then h1 mod bit_array_size bf
  else if (i =? 1) && (num_hash_functions bf >? 1) then
    h2 mod bit_array_size bf
  else
    wrap64 (h1 + wrap64 (i * wrap64 (wrap64 (h2 + i) + 1)))
      mod bit_array_size bf.

(** [BloomFilter::hash]. *)
Definition hash (bf : t) (data : string) : list Z :=
  if (num_hash_functions bf =? 0) || (bit_array_size bf =? 0) then []
  else
    let h1 := hashFunction1 data in
    let h2 := if num_hash_functions bf >? 1 then hashFunction2 data else 0 in
    hash_at bf h1 h2 <$> seqZ 0 (num_hash_functions bf).

(** [BloomFilter::insert]. *)
Definition insert (bf : t) (data : string) : t :=
  if bit_array_size bf =? 0 then bf
  else
    mk (bit_array_size bf) (num_hash_functions bf)
       (foldl set_bit (bit_array bf) (hash bf data))
       (wrap64 (current_insertions bf + 1)).

(** [BloomFilter::possiblyContains]. *)
Definition possiblyContains (bf : t) (data : string) : bool :=
  if bit_array_size bf =? 0 then false
  else forallb (get_bit (bit_array bf)) (hash bf data).

End WithStdHash.

(** [BloomFilter::BloomFilter(uint64_t size, int num_hashes)]. *)
Definition new_size_hashes (size : N) (num_hashes : Z) : t :=
  let m := if Z.of_N size =? 0 then 1024 else Z.of_N size in
  let k := if num_hashes <=? 0 then 3 else num_hashes in
  mk m k (replicate (Z.to_nat m) false) 0.

(** [BloomFilter::BloomFilter(uint64_t num_items, double false_positive_prob)]
    after [calculateOptimalParams] has written [out_size] and
    [out_num_hashes]; that helper computes in floating point and is not
    modelled, so its two outputs are the arguments here.  On each of its
    paths the hash count it writes is at least 1 (the default 3, or a
    ceiling raised to 1 when it is 0). *)
Definition new_optimal (out_size : N) (out_num_hashes : positive) : t :=
  let m := if Z.of_N out_size =? 0 then 1024 else Z.of_N out_size in
  mk m (Z.pos out_num_hashes) (replicate (Z.to_nat m) false) 0.

(** The invariant both constructors establish. *)
Definition wf (bf : t) : Prop :=
  0 < bit_array_size bf /\
  length (bit_array bf) = Z.to_nat (bit_array_size bf).

End BloomFilter.

(* ===================================================================== *)
(** * The read-write lock *)
(* ===================================================================== *)

(** [ReadWriteLock] at the grain of its critical sections: every method
    body runs under [mutex_], so a call is one atomic step on the fields,
    except [writeLock], which [writer_cv_.wait] cuts in two.  A step is
    [None] when the call does not return from the state it is made in (the
    predicate of its [wait] is false, another thread has to move first) or
    when an [int] counter would overflow. *)
Module ReadWriteLock.

(** [std::thread::id] of a running thread; [None] below is the
    default-constructed id, which is no thread's. *)
Definition thread_id := positive.

(** The fields the methods use. *)
Record t := mk {
  active_readers_ : Z;                    (* int *)
  waiting_writers_ : Z;                   (* int *)
  writer_active_ : bool;
  writer_thread_id_ : option thread_id;   (* std::thread::id *)
  recursive_write_count_ : Z              (* int *)
}.

(** [ReadWriteLock::ReadWriteLock()]. *)
Definition new : t := mk 0 0 false None 0.

(** [x++] and [x--] on an [int]. *)
Definition incr (x : Z) : option Z :=
  if x <? 2 ^ 31 - 1 then Some (x + 1) else None.

Definition decr (x : Z) : option Z :=
  if - 2 ^ 31 <? x then Some (x - 1) else None.

(** [ReadWriteLock::readLock]: the predicate of [reader_cv_.wait], and the
    call when it returns. *)
Definition readLock_ready (s : t) : bool :=
  negb (writer_active_ s) && (waiting_writers_ s =? 0).

Definition readLock (s : t) : option t :=
  if readLock_ready s then
    r ← incr (active_readers_ s);
    Some (mk r (waiting_writers_ s) (writer_active_ s) (writer_thread_id_ s)
             (recursive_write_count_ s))
  else None.

(** [ReadWriteLock::readUnlock]; the notification changes no field. *)
Definition readUnlock (s : t) : option t :=
  r ← decr (active_readers_ s);
  Some (mk r (waiting_writers_ s) (writer_active_ s) (writer_thread_id_ s)
           (recursive_write_count_ s)).

(** [ReadWriteLock::tryReadLock]; [owns_lock] is what
    [std::try_to_lock] obtained. *)
Definition tryReadLock (owns_lock : bool) (s : t) : option (bool * t) :=
  if owns_lock && negb (writer_active_ s) && (waiting_writers_ s =? 0) then
    r ← incr (active_readers_ s);
    Some (true, mk r (waiting_writers_ s) (writer_active_ s)
                   (writer_thread_id_ s) (recursive_write_count_ s))
  else Some (false, s).

(** [ReadWriteLock::writeLock] up to its [wait]: [true] when the call has
    returned (the recursive case), [false] when the thread has been counted
    as waiting. *)
Definition writeLock_enter (current_tid : thread_id) (s : t)
  : option (bool * t) :=
  if writer_active_ s && bool_decide (writer_thread_id_ s = Some current_tid)
  then
    c ← incr (recursive_write_count_ s);
    Some (true, mk (active_readers_ s) (waiting_writers_ s) (writer_active_ s)
                   (writer_thread_id_ s) c)
  else
    w ← incr (waiting_writers_ s);
    Some (false, mk (active_readers_ s) w (writer_active_ s)
                    (writer_thread_id_ s) (recursive_write_count_ s)).

(** The predicate of [writer_cv_.wait], and [writeLock] from the return of
    the wait to its end. *)
Definition writeLock_ready (s : t) : bool :=
  negb (writer_active_ s) && (active_readers_ s =? 0).

Definition writeLock_resume (current_tid : thread_id) (s : t) : option t :=
  if writeLock_ready s then
    w ← decr (waiting_writers_ s);
    Some (mk (active_readers_ s) w true (Some current_tid) 1)
  else None.

(** [ReadWriteLock::writeUnlock] called by thread [tid]. *)
Definition writeUnlock (tid : thread_id) (s : t) : option t :=
  if negb (writer_active_ s)
     || negb (bool_decide (writer_thread_id_ s = Some tid))
  then Some s
  else
    c ← decr (recursive_write_count_ s);
    if c =? 0 then
      Some (mk (active_readers_ s) (waiting_writers_ s) false None c)
    else
      Some (mk (active_readers_ s) (waiting_writers_ s) (writer_active_ s)
               (writer_thread_id_ s) c).

(** [ReadWriteLock::tryWriteLock]. *)
Definition tryWriteLock (owns_lock : bool) (s : t) : option (bool * t) :=
  if owns_lock && (active_readers_ s =? 0) && negb (writer_active_ s) then
    Some (true, mk (active_readers_ s) (waiting_writers_ s) true
                   (writer_thread_id_ s) (recursive_write_count_ s))
  else Some (false, s).

(** The steps threads take on one lock, and their interleavings. *)
Inductive Call :=
| CReadLock
| CReadUnlock
| CTryReadLock (owns_lock : bool)
| CWriteLockEnter (tid : thread_id)
| CWriteLockResume (tid : thread_id)
| CWriteUnlock (tid : thread_id)
| CTryWriteLock (owns_lock : bool).

Definition step (s : t) (c : Call) : option t :=
  match c with
  | CReadLock => readLock s
  | CReadUnlock => readUnlock s
  | CTryReadLock owns => snd <$> tryReadLock owns s
  | CWriteLockEnter tid => snd <$> writeLock_enter tid s
  | CWriteLockResume tid => writeLock_resume tid s
  | CWriteUnlock tid => writeUnlock tid s
  | CTryWriteLock owns => snd <$> tryWriteLock owns s
  end.

Fixpoint run (s : t) (calls : list Call) : option t :=
  match calls with
  | [] => Some s
  | c :: calls => s' ← step s c; run s' calls
  end.

(** The states of a lock whose clients call [readUnlock] only while a read
    lock is held. *)
Inductive reachable : t -> Prop :=
| reach_new : reachable new
| reach_step s c s' :
    reachable s ->
    (c = CReadUnlock -> 0 < active_readers_ s) ->
    step s c = Some s' ->
    reachable s'.

(** A call that is not made by thread [tid]; the calls on the reader side
    carry no thread id and count as another thread's. *)
Definition by_other (tid : thread_id) (c : Call) : Prop :=
  match c with
  | CWriteLockEnter t | CWriteLockResume t | CWriteUnlock t => t <> tid
  | _ => True
  end.

End ReadWriteLock.

(* ===================================================================== *)
(** * The classifier: headers, filters, rules *)
(* ===================================================================== *)

Module Classifier.

(** [struct PacketHeader]. *)
Record PacketHeader := mkHeader {
  source_ip : Z;        (* uint32_t *)
  dest_ip : Z;          (* uint32_t *)
  source_port : Z;      (* uint16_t *)
  dest_port : Z;        (* uint16_t *)
  header_protocol : Z   (* uint8_t protocol *)
}.

(** [struct PacketFilter]. *)
Record PacketFilter := mkFilter {
  source_ip_prefix : string;
  dest_ip_prefix : string;
  source_port_low : Z;
  source_port_high : Z;
  dest_port_low : Z;
  dest_port_high : Z;
  protocol : Z
}.

(** [ActionList::ActionType] and [struct ActionList]. *)
Inductive ActionType := FORWARD | DROP | LOG | MIRROR.

Record ActionList := mkActions {
  primary_action : ActionType;
  next_hop_id : Z;
  log_identifier : string
}.

(** The default-constructed [ActionList]. *)
Definition default_actions : ActionList := mkActions DROP (-1) "".

(** [struct ClassificationRule]. *)
Record ClassificationRule := mkRule {
  rule_id : Z;
  priority : Z;
  filter : PacketFilter;
  actions : ActionList;
  enabled : bool;
  match_count : Z;        (* uint64_t *)
  last_match_time : Z     (* uint64_t *)
}.

(** The constructor [ClassificationRule(id, prio, f, a)]: enabled, with
    zeroed statistics. *)
Definition new_rule (id prio : Z) (f : PacketFilter) (a : ActionList) :=
  mkRule id prio f a true 0 0.

Definition set_rule_id (r : ClassificationRule) (id : Z) :=
  mkRule id (priority r) (filter r) (actions r) (enabled r)
         (match_count r) (last_match_time r).

Definition set_statistics (r : ClassificationRule) (count time : Z) :=
  mkRule (rule_id r) (priority r) (filter r) (actions r) (enabled r)
         count time.

Definition set_filter (r : ClassificationRule) (f : PacketFilter) :=
  mkRule (rule_id r) (priority r) f (actions r) (enabled r)
         (match_count r) (last_match_time r).

(** [struct ClassificationResult]. *)
Record ClassificationResult := mkResult {
  matched : bool;
  matched_rule_id : Z;
  result_actions : ActionList
}.

(** The default-constructed result, as returned when no rule matches. *)
Definition no_match : ClassificationResult :=
  mkResult false (-1) default_actions.

#[global] Instance ActionType_eq_dec : EqDecision ActionType.
Proof. solve_decision. Defined.
#[global] Instance ActionList_eq_dec : EqDecision ActionList.
Proof. solve_decision. Defined.
#[global] Instance ClassificationResult_eq_dec : EqDecision ClassificationResult.
Proof. solve_decision. Defined.

(** [PacketFilter::matches]: protocol and the two port ranges; the IP
    prefix strings are not looked at. *)
Definition matches (f : PacketFilter) (header : PacketHeader) : bool :=
  if negb (protocol f =? 0) && negb (protocol f =? header_protocol header)
  then false
  else if (negb (source_port_low f =? 0) || negb (source_port_high f =? 0))
          && ((source_port header <? source_port_low f)
              || (source_port header >? source_port_high f))
  then false
  else if (negb (dest_port_low f =? 0) || negb (dest_port_high f =? 0))
          && ((dest_port header <? dest_port_low f)
              || (dest_port header >? dest_port_high f))
  then false
  else true.

(** [PacketHeader::toString]. *)
Definition PacketHeader_toString (h : PacketHeader) : string :=
  "SrcIP: " +:+ pretty (source_ip h) +:+ ", DstIP: " +:+ pretty (dest_ip h)
  +:+ ", SrcPort: " +:+ pretty (source_port h)
  +:+ ", DstPort: " +:+ pretty (dest_port h)
  +:+ ", Proto: " +:+ pretty (header_protocol h).

(** [PacketFilter::toString]. *)
Definition PacketFilter_toString (f : PacketFilter) : string :=
  "SrcIP_Pfx: "
  +:+ (if decide (source_ip_prefix f = "") then "any" else source_ip_prefix f)
  +:+ ", DstIP_Pfx: "
  +:+ (if decide (dest_ip_prefix f = "") then "any" else dest_ip_prefix f)
  +:+ ", SrcPort: "
  +:+ (if (source_port_low f =? 0) && (source_port_high f =? 0) then "any"
       else pretty (source_port_low f) +:+ "-" +:+ pretty (source_port_high f))
  +:+ ", DstPort: "
  +:+ (if (dest_port_low f =? 0) && (dest_port_high f =? 0) then "any"
       else pretty (dest_port_low f) +:+ "-" +:+ pretty (dest_port_high f))
  +:+ ", Proto: "
  +:+ (if protocol f =? 0 then "any" else pretty (protocol f)).

(** ** The rule manager *)

(** [class RuleManager].  [rules_by_priority_cache_] holds pointers to the
    rules stored in the nodes of [rules_by_id_]; a node of a [std::map]
    keeps its address until it is erased, so a pointer is modelled as the
    key of its node and dereferenced through the map: the cache sees every
    in-place update of a rule.

    The member [rw_lock_] is not a field of the record.  Every method
    constructs a guard on it on entry and the guard's destructor releases
    it on return, so between two calls the lock is as it was constructed,
    [ReadWriteLock.new].  A method that constructs this one guard and no
    other obtains it at once and is modelled by its body.  [addRule] and
    [modifyRule] reach a second guard, in [detectConflict], while they
    hold the first: they are modelled with the lock, and are [None] when
    the call does not return. *)
Record RuleManager := mkRM {
  rules_by_id_ : gmap Z ClassificationRule;
  rules_by_priority_cache_ : list Z
}.

Definition RuleManager_new : RuleManager := mkRM ∅ [].

(** The thread that calls the rule manager. *)
Definition this_thread : ReadWriteLock.thread_id := 1%positive.

(** [WriteLockGuard lock(rw_lock_)]: the constructor is [writeLock], whose
    wait ends at once when its predicate holds; [None] when it does not
    return. *)
Definition WriteLockGuard (rw_lock : ReadWriteLock.t)
  : option ReadWriteLock.t :=
  '(returned, l) ← ReadWriteLock.writeLock_enter this_thread rw_lock;
  if (returned : bool) then Some l
  else ReadWriteLock.writeLock_resume this_thread l.

(** [~WriteLockGuard()]. *)
Definition WriteLockGuard_release (rw_lock : ReadWriteLock.t)
  : option ReadWriteLock.t :=
  ReadWriteLock.writeUnlock this_thread rw_lock.

(** [ReadLockGuard lock(rw_lock_)] and [~ReadLockGuard()]. *)
Definition ReadLockGuard (rw_lock : ReadWriteLock.t)
  : option ReadWriteLock.t :=
  ReadWriteLock.readLock rw_lock.

Definition ReadLockGuard_release (rw_lock : ReadWriteLock.t)
  : option ReadWriteLock.t :=
  ReadWriteLock.readUnlock rw_lock.

(** The keys of the map in iteration order ([std::map] iterates in
    ascending key order). *)
Definition keys_ascending (rules : gmap Z ClassificationRule) : list Z :=
  merge_sort Z.le (map_to_list rules).*1.

(** [a->priority] for the pointer [a]. *)
Definition priority_of (rules : gmap Z ClassificationRule) (a : Z) : Z :=
  match rules !! a with Some r => priority r | None => 0 end.

Section WithStdSort.

(** [std::sort] on a vector of pointers.  The standard promises a
    permutation ordered by the comparator and leaves the relative order of
    equivalent elements unspecified, so the sorting function is a
    parameter, constrained where needed by [std_sort_contract]. *)
Variable std_sort : (Z -> Z -> bool) -> list Z -> list Z.

(** [RuleManager::rebuildPriorityCache], returning the new cache. *)
Definition rebuildPriorityCache (rules : gmap Z ClassificationRule) : list Z :=
  std_sort (fun a b => priority_of rules a >? priority_of rules b)
           (keys_ascending rules).

(** [RuleManager::detectConflict]: the placeholder.  It constructs a
    [ReadLockGuard] on [rw_lock_], here in the state [rw_lock] the caller
    has put it in, and answers [false] once it holds the guard. *)
Definition detectConflict (rw_lock : ReadWriteLock.t) (rm : RuleManager)
    (rule : ClassificationRule) : option bool :=
  _ ← ReadLockGuard rw_lock;
  Some false.

(** [std::map::emplace]: the map and whether the insertion took place. *)
Definition emplace (rules : gmap Z ClassificationRule) (k : Z)
    (v : ClassificationRule) : gmap Z ClassificationRule * bool :=
  match rules !! k with
  | Some _ => (rules, false)
  | None => (<[k := v]> rules, true)
  end.

(** [RuleManager::addRule]: the [WriteLockGuard] is held from the first
    line to the return, the call of [detectConflict] included. *)
Definition RM_addRule (rm : RuleManager) (rule : ClassificationRule)
  : option (bool * RuleManager) :=
  lock ← WriteLockGuard ReadWriteLock.new;
  if bool_decide (is_Some (rules_by_id_ rm !! rule_id rule))
  then Some (false, rm)
  else
    conflict ← detectConflict lock rm rule;
    if (conflict : bool) then Some (false, rm)
    else
      let '(rules, inserted) :=
        emplace (rules_by_id_ rm) (rule_id rule) rule in
      if inserted then Some (true, mkRM rules (rebuildPriorityCache rules))
      else Some (false, mkRM rules (rules_by_priority_cache_ rm)).

(** [RuleManager::deleteRule]. *)
Definition RM_deleteRule (rm : RuleManager) (id : Z) : bool * RuleManager :=
  match rules_by_id_ rm !! id with
  | Some _ =>
      let rules := delete id (rules_by_id_ rm) in
      (true, mkRM rules (rebuildPriorityCache rules))
  | None => (false, rm)
  end.

(** [RuleManager::modifyRule]: as [addRule], under the [WriteLockGuard]
    throughout. *)
Definition RM_modifyRule (rm : RuleManager) (id : Z)
    (new_rule_data : ClassificationRule) : option (bool * RuleManager) :=
  lock ← WriteLockGuard ReadWriteLock.new;
  match rules_by_id_ rm !! id with
  | None => Some (false, rm)
  | Some old =>
      let temp_new_rule := set_rule_id new_rule_data id in
      conflict ← detectConflict lock rm temp_new_rule;
      if (conflict : bool) then Some (false, rm)
      else
        let priority_changed :=
          negb (priority old =? priority new_rule_data) in
        (* it->second = new_rule_data; it->second.rule_id = rule_id *)
        let rules := <[id := set_rule_id new_rule_data id]> (rules_by_id_ rm) in
        let cache :=
          if priority_changed
             || bool_decide (rules_by_priority_cache_ rm = [])
          then rebuildPriorityCache rules
          else rules_by_priority_cache_ rm in
        Some (true, mkRM rules cache)
  end.

(** [RuleManager::getRule]. *)
Definition getRule (rm : RuleManager) (id : Z) : option ClassificationRule :=
  rules_by_id_ rm !! id.

(** [RuleManager::getRulesByPriority]: a copy of the pointer vector. *)
Definition getRulesByPriority (rm : RuleManager) : list Z :=
  rules_by_priority_cache_ rm.

(** [RuleManager::incrementRuleMatchCount]. *)
Definition incrementRuleMatchCount (rm : RuleManager) (id timestamp : Z)
  : bool * RuleManager :=
  match rules_by_id_ rm !! id with
  | Some r =>
      (true,
       mkRM (<[id := set_statistics r (wrap64 (match_count r + 1)) timestamp]>
               (rules_by_id_ rm))
            (rules_by_priority_cache_ rm))
  | None => (false, rm)
  end.

(** [RuleManager::resetRuleStatistics]. *)
Definition RM_resetRuleStatistics (rm : RuleManager) (id : Z)
  : bool * RuleManager :=
  match rules_by_id_ rm !! id with
  | Some r =>
      (true, mkRM (<[id := set_statistics r 0 0]> (rules_by_id_ rm))
                  (rules_by_priority_cache_ rm))
  | None => (false, rm)
  end.

(** [RuleManager::resetAllRuleStatistics]. *)
Definition resetAllRuleStatistics (rm : RuleManager) : bool * RuleManager :=
  (true, mkRM ((fun r => set_statistics r 0 0) <$> rules_by_id_ rm)
              (rules_by_priority_cache_ rm)).

End WithStdSort.

(** ** The tries of the facade *)

(** [class TrieNode] and the freshly constructed [CompressedTrie]; the
    facade builds the two tries and never calls a method on them. *)
Inductive TrieNode :=
| mkTrieNode (children : list (Ascii.ascii * TrieNode))
             (next_hop_info : Z) (is_end_of_prefix : bool).

Definition CompressedTrie_new : TrieNode := mkTrieNode [] (-1) false.

(** ** The facade *)

(** [class PacketClassifier].  The constructor allocates [bloom_filter_]
    exactly when [use_bloom_filter_] is set and neither member changes
    afterwards, so the flag is read off the optional filter. *)
Record PacketClassifier := mkPC {
  source_ip_trie_ : TrieNode;
  dest_ip_trie_ : TrieNode;
  source_port_tree_ : IntervalTree.IntervalNode;
  dest_port_tree_ : IntervalTree.IntervalNode;
  bloom_filter_ : option BloomFilter.t;
  rule_manager_ : RuleManager
}.

Definition use_bloom_filter_ (pc : PacketClassifier) : bool :=
  bool_decide (is_Some (bloom_filter_ pc)).

Definition set_rule_manager (pc : PacketClassifier) (rm : RuleManager) :=
  mkPC (source_ip_trie_ pc) (dest_ip_trie_ pc) (source_port_tree_ pc)
       (dest_port_tree_ pc) (bloom_filter_ pc) rm.

Definition set_bloom_filter (pc : PacketClassifier)
    (bf : option BloomFilter.t) :=
  mkPC (source_ip_trie_ pc) (dest_ip_trie_ pc) (source_port_tree_ pc)
       (dest_port_tree_ pc) bf (rule_manager_ pc).

(** [PacketClassifier::PacketClassifier(enable)].  [bloom_m] and [bloom_k]
    are what [calculateOptimalParams(10000, 0.01)] writes. *)
Definition PacketClassifier_new (enable_bloom_filter_optimization : bool)
    (bloom_m : N) (bloom_k : positive) : PacketClassifier :=
  mkPC CompressedTrie_new CompressedTrie_new
       IntervalTree.Leaf IntervalTree.Leaf
       (if enable_bloom_filter_optimization
        then Some (BloomFilter.new_optimal bloom_m bloom_k) else None)
       RuleManager_new.

Section Facade.

Variable std_hash : string -> Z.
Variable std_sort : (Z -> Z -> bool) -> list Z -> list Z.

(** [bloom_filter_->insert(s)] when the filter is in use. *)
Definition bloom_insert (pc : PacketClassifier) (s : string) :=
  match bloom_filter_ pc with
  | Some bf => set_bloom_filter pc (Some (BloomFilter.insert std_hash bf s))
  | None => pc
  end.

(** [PacketClassifier::updateSpecializedStructuresForRule]: the trie and
    tree updates are log lines only; the Bloom filter receives the filter
    string of an enabled rule. *)
Definition updateSpecializedStructuresForRule (pc : PacketClassifier)
    (id : Z) : bool * PacketClassifier :=
  match getRule (rule_manager_ pc) id with
  | None => (false, pc)
  | Some rule =>
      if enabled rule && use_bloom_filter_ pc
      then (true, bloom_insert pc (PacketFilter_toString (filter rule)))
      else (true, pc)
  end.

(** [PacketClassifier::removeRuleFromSpecializedStructures]: log lines
    only, on both paths. *)
Definition removeRuleFromSpecializedStructures (pc : PacketClassifier)
    (id : Z) : bool * PacketClassifier :=
  match getRule (rule_manager_ pc) id with
  | None => (true, pc)
  | Some _ => (true, pc)
  end.

(** The Bloom insertion that closes [addRule] and [modifyRule]. *)
Definition bloom_insert_rule (pc : PacketClassifier) (id : Z) :=
  if use_bloom_filter_ pc then
    match getRule (rule_manager_ pc) id with
    | Some r =>
        if enabled r then bloom_insert pc (PacketFilter_toString (filter r))
        else pc
    | None => pc
    end
  else pc.

(** [PacketClassifier::addRule]; [None] when the call of the rule manager
    does not return. *)
Definition addRule (pc : PacketClassifier) (rule : ClassificationRule)
  : option (bool * PacketClassifier) :=
  '(added, rm) ← RM_addRule std_sort (rule_manager_ pc) rule;
  if negb added then Some (false, pc)
  else
    let pc := set_rule_manager pc rm in
    let '(updated, pc) :=
      updateSpecializedStructuresForRule pc (rule_id rule) in
    if negb updated then Some (false, pc)
    else Some (true, bloom_insert_rule pc (rule_id rule)).

(** [PacketClassifier::deleteRule]. *)
Definition deleteRule (pc : PacketClassifier) (id : Z)
  : bool * PacketClassifier :=
  let '(_, pc) := removeRuleFromSpecializedStructures pc id in
  let '(deleted, rm) := RM_deleteRule std_sort (rule_manager_ pc) id in
  if negb deleted then (false, pc)
  else (true, set_rule_manager pc rm).

(** [PacketClassifier::modifyRule]; [None] when the call of the rule
    manager does not return. *)
Definition modifyRule (pc : PacketClassifier) (id : Z)
    (new_rule_data : ClassificationRule) : option (bool * PacketClassifier) :=
  '(modified, rm) ←
    RM_modifyRule std_sort (rule_manager_ pc) id new_rule_data;
  if negb modified then Some (false, pc)
  else
    let pc := set_rule_manager pc rm in
    let '(_, pc) := removeRuleFromSpecializedStructures pc id in
    let '(updated, pc) := updateSpecializedStructuresForRule pc id in
    if negb updated then Some (false, pc)
    else Some (true, bloom_insert_rule pc id).

(** The loop of [PacketClassifier::classify] over the snapshot of
    pointers: the first enabled rule whose filter matches. *)
Fixpoint first_match (rules : gmap Z ClassificationRule) (ptrs : list Z)
    (header : PacketHeader) : option ClassificationRule :=
  match ptrs with
  | [] => None
  | p :: ptrs =>
      match rules !! p with
      | Some rule =>
          if negb (enabled rule) then first_match rules ptrs header
          else if matches (filter rule) header then Some rule
          else first_match rules ptrs header
      | None => first_match rules ptrs header
      end
  end.

(** [PacketClassifier::classify] from the snapshot on; [now] is the
    reading of the system clock in seconds. *)
Definition classify_rules (pc : PacketClassifier) (header : PacketHeader)
    (now : Z) : ClassificationResult * PacketClassifier :=
  let rules := getRulesByPriority (rule_manager_ pc) in
  match first_match (rules_by_id_ (rule_manager_ pc)) rules header with
  | Some rule =>
      let result := mkResult true (rule_id rule) (actions rule) in
      let '(_, rm) :=
        incrementRuleMatchCount (rule_manager_ pc) (rule_id rule) now in
      (result, set_rule_manager pc rm)
  | None => (no_match, pc)
  end.

(** [PacketClassifier::classify]: a negative answer of the Bloom filter
    writes a trace line and the scan goes on. *)
Definition classify (pc : PacketClassifier) (header : PacketHeader) (now : Z)
  : ClassificationResult * PacketClassifier :=
  match bloom_filter_ pc with
  | Some bf =>
      if negb (BloomFilter.possiblyContains std_hash bf
                 (PacketHeader_toString header))
      then classify_rules pc header now
      else classify_rules pc header now
  | None => classify_rules pc header now
  end.

(** [PacketClassifier::getRuleStatistics]. *)
Definition getRuleStatistics (pc : PacketClassifier) (id : Z) : Z :=
  match getRule (rule_manager_ pc) id with
  | Some rule => match_count rule
  | None => 0
  end.

(** [PacketClassifier::getStatistics]. *)
Definition getStatistics (pc : PacketClassifier) : gmap Z Z :=
  match_count <$> rules_by_id_ (rule_manager_ pc).

(** [PacketClassifier::resetStatistics] and [resetRuleStatistics]. *)
Definition resetStatistics (pc : PacketClassifier) : PacketClassifier :=
  set_rule_manager pc (resetAllRuleStatistics (rule_manager_ pc)).2.

Definition resetRuleStatistics (pc : PacketClassifier) (id : Z) :=
  set_rule_manager pc (RM_resetRuleStatistics (rule_manager_ pc) id).2.

(** ** Runs of the public interface *)

Inductive Op :=
| OpAdd (rule : ClassificationRule)
| OpDelete (id : Z)
| OpModify (id : Z) (new_rule_data : ClassificationRule)
| OpClassify (header : PacketHeader) (now : Z)
| OpGetStatistics
| OpGetRuleStatistics (id : Z)
| OpResetStatistics
| OpResetRuleStatistics (id : Z).

Inductive Out :=
| OutBool (b : bool)
| OutResult (r : ClassificationResult)
| OutStats (s : gmap Z Z)
| OutCount (n : Z)
| OutVoid.

(** One call: what it returns and the state it leaves; [None] when it does
    not return. *)
Definition step (pc : PacketClassifier) (op : Op)
  : option (Out * PacketClassifier) :=
  match op with
  | OpAdd rule => '(b, pc) ← addRule pc rule; Some (OutBool b, pc)
  | OpDelete id => let '(b, pc) := deleteRule pc id in Some (OutBool b, pc)
  | OpModify id r => '(b, pc) ← modifyRule pc id r; Some (OutBool b, pc)
  | OpClassify h now =>
      let '(r, pc) := classify pc h now in Some (OutResult r, pc)
  | OpGetStatistics => Some (OutStats (getStatistics pc), pc)
  | OpGetRuleStatistics id => Some (OutCount (getRuleStatistics pc id), pc)
  | OpResetStatistics => Some (OutVoid, resetStatistics pc)
  | OpResetRuleStatistics id => Some (OutVoid, resetRuleStatistics pc id)
  end.

(** The state after a run in which every call returns. *)
Fixpoint run (pc : PacketClassifier) (ops : list Op)
  : option PacketClassifier :=
  match ops with
  | [] => Some pc
  | op :: ops => '(_, pc) ← step pc op; run pc ops
  end.

(** What the caller of a run sees: the value each call returns, in order,
    up to the first call that does not return, which is marked [None] and
    ends the run. *)
Fixpoint outputs (pc : PacketClassifier) (ops : list Op)
  : list (option Out) :=
  match ops with
  | [] => []
  | op :: ops =>
      match step pc op with
      | Some (o, pc) => Some o :: outputs pc ops
      | None => [None]
      end
  end.

End Facade.

Section Batch.

Variable std_hash : string -> Z.

(** [PacketClassifier::classifyBatch]: one call of [classify] per header,
    in order, the results pushed in the same order.  Each header comes
    with the clock reading of its classification. *)
Fixpoint classifyBatch (pc : PacketClassifier)
    (headers : list (PacketHeader * Z))
  : list ClassificationResult * PacketClassifier :=
  match headers with
  | [] => ([], pc)
  | (header, now) :: headers =>
      let '(result, pc) := classify std_hash pc header now in
      let '(results, pc) := classifyBatch pc headers in
      (result :: results, pc)
  end.

End Batch.

End Classifier.

(* ===================================================================== *)
(** * The trie *)
(* ===================================================================== *)

Module CompressedTrie.
Import Classifier.

Definition children (n : TrieNode) : list (Ascii.ascii * TrieNode) :=
  match n with mkTrieNode c _ _ => c end.

Definition next_hop_info (n : TrieNode) : Z :=
  match n with mkTrieNode _ h _ => h end.

Definition is_end_of_prefix (n : TrieNode) : bool :=
  match n with mkTrieNode _ _ e => e end.

(** [TrieNode()]. *)
Definition TrieNode_new : TrieNode := mkTrieNode [] (-1) false.

(** [children.find(c)] on the [std::map<char, unique_ptr<TrieNode>>]; the
    map holds one node per key, and no method of the trie iterates over
    it, so the order of the association list is not observable. *)
Fixpoint find_child (c : Ascii.ascii) (cs : list (Ascii.ascii * TrieNode))
  : option TrieNode :=
  match cs with
  | [] => None
  | (c', n) :: rest => if decide (c = c') then Some n else find_child c rest
  end.

(** The map after the node under key [c] has become [n]: the in-place
    update of [*children[c]], or [children[c] = make_unique<TrieNode>()]
    followed by it when the key was absent. *)
Fixpoint set_child (c : Ascii.ascii) (n : TrieNode)
    (cs : list (Ascii.ascii * TrieNode)) : list (Ascii.ascii * TrieNode) :=
  match cs with
  | [] => [(c, n)]
  | (c', n') :: rest =>
      if decide (c = c') then (c, n) :: rest
      else (c', n') :: set_child c n rest
  end.

(** [CompressedTrie::insert]: the walk from [node] (the root, at the call)
    along the characters of [ip_prefix], creating the missing nodes, and
    the two assignments at its end. *)
Fixpoint insert (node : TrieNode) (ip_prefix : string) (next_hop : Z)
  : TrieNode :=
  match ip_prefix with
  | EmptyString => mkTrieNode (children node) next_hop true
  | String c rest =>
      let child := default TrieNode_new (find_child c (children node)) in
      mkTrieNode (set_child c (insert child rest next_hop) (children node))
                 (next_hop_info node) (is_end_of_prefix node)
  end.

(** The loop of [CompressedTrie::lookup]; the result is
    [longest_match_node] when the loop ends. *)
Fixpoint lookup_loop (current : TrieNode) (longest_match_node : option TrieNode)
    (ip_address : string) : option TrieNode :=
  match ip_address with
  | EmptyString => longest_match_node
  | String c rest =>
      match find_child c (children current) with
      | Some next =>
          lookup_loop next
            (if is_end_of_prefix next then Some next else longest_match_node)
            rest
      | None => longest_match_node
      end
  end.

(** [CompressedTrie::lookup]. *)
Definition lookup (root : TrieNode) (ip_address : string) : Z :=
  match lookup_loop root (if is_end_of_prefix root then Some root else None)
                    ip_address with
  | Some n => next_hop_info n
  | None => -1
  end.

(** [CompressedTrie::remove]: the walk stops without a change at a missing
    child; at the end of the walk the mark is cleared if it was set. *)
Fixpoint remove (node : TrieNode) (ip_prefix : string) : TrieNode :=
  match ip_prefix with
  | EmptyString =>
      if is_end_of_prefix node then mkTrieNode (children node) (-1) false
      else node
  | String c rest =>
      match find_child c (children node) with
      | Some child =>
          mkTrieNode (set_child c (remove child rest) (children node))
                     (next_hop_info node) (is_end_of_prefix node)
      | None => node
      end
  end.

(** The node the path [path] leads to from [node]. *)
Fixpoint node_at (node : TrieNode) (path : string) : option TrieNode :=
  match path with
  | EmptyString => Some node
  | String c rest => n ← find_child c (children node); node_at n rest
  end.

(** The next hop stored for [prefix]: the node of the path exists and is
    marked. *)
Definition entry (root : TrieNode) (prefix : string) : option Z :=
  n ← node_at root prefix;
  if is_end_of_prefix n then Some (next_hop_info n) else None.

Definition is_prefix (q s : string) : Prop := exists k, s = (q ++ k)%string.

End CompressedTrie.

(* ===================================================================== *)
(** * The hash table, one thread at a time *)
(* ===================================================================== *)

(** [ConcurrentHashTable] as a single thread runs it: each atomic load,
    store, compare-exchange and fetch-add takes effect at once, so a call
    is a function of the table it starts from. *)
Module ConcurrentHashTable.

(** [struct TableEntry]. *)
Record TableEntry := mkEntry {
  key : string;
  value : Z;                   (* int *)
  in_use : bool                (* std::atomic<bool> *)
}.

(** [TableEntry()]. *)
Definition empty_entry : TableEntry := mkEntry "" (-1) false.

(** The fields of [class ConcurrentHashTable]. *)
Record t := mk {
  table : list TableEntry;     (* std::vector<TableEntry> *)
  current_size : Z;            (* std::atomic<size_t> *)
  capacity : Z                 (* size_t *)
}.

(** [ConcurrentHashTable::ConcurrentHashTable(size_t initial_size)]. *)
Definition new (initial_size : Z) : t :=
  let capacity := if initial_size =? 0 then 1024 else initial_size in
  mk (replicate (Z.to_nat capacity) empty_entry) 0 capacity.

(** The slot [key] is looked for: in use and holding it. *)
Definition holds (k : string) (e : TableEntry) : bool :=
  in_use e && bool_decide (key e = k).

Section WithStdHash.

(** [std::hash<std::string>], as for the Bloom filter. *)
Variable std_hash : string -> Z.

(** [ConcurrentHashTable::hashFunction]. *)
Definition hashFunction (k : string) : Z := wrap64 (std_hash k).

(** The [do ... while] loop of [lookup].  One unit of [fuel] is one
    iteration; [None] is a run that needs more, or an index outside the
    vector. *)
Fixpoint lookup_loop (fuel : nat) (tbl : t) (k : string)
    (initial_index probe_distance current_index : Z) : option (option Z) :=
  match fuel with
  | O => None
  | S fuel =>
      e ← table tbl !! Z.to_nat current_index;
      if in_use e && bool_decide (key e = k) then Some (Some (value e))
      else
        let probe_distance := wrap64 (probe_distance + 1) in
        let current_index :=
          wrap64 (initial_index + probe_distance) mod capacity tbl in
        if probe_distance >=? capacity tbl then Some None
        else if current_index =? initial_index then Some None
        else lookup_loop fuel tbl k initial_index probe_distance current_index
  end.

(** [ConcurrentHashTable::lookup]: [Some (Some v)] is the answer true with
    [value = v], [Some None] the answer false. *)
Definition lookup (tbl : t) (k : string) : option (option Z) :=
  if capacity tbl =? 0 then None
  else
    let initial_index := hashFunction k mod capacity tbl in
    lookup_loop (Z.to_nat (capacity tbl)) tbl k initial_index 0 initial_index.

(** The loop of [insert]. *)
Fixpoint insert_loop (fuel : nat) (tbl : t) (k : string) (v : Z)
    (initial_index probe_distance current_index : Z) : option t :=
  match fuel with
  | O => None
  | S fuel =>
      e ← table tbl !! Z.to_nat current_index;
      if negb (in_use e) then
        (* the compare-exchange claimed the slot *)
        Some (mk (<[Z.to_nat current_index := mkEntry k v true]> (table tbl))
                 (wrap64 (current_size tbl + 1)) (capacity tbl))
      else if bool_decide (key e = k) then
        Some (mk (<[Z.to_nat current_index := mkEntry (key e) v true]>
                    (table tbl))
                 (current_size tbl) (capacity tbl))
      else
        let probe_distance := wrap64 (probe_distance + 1) in
        let current_index :=
          wrap64 (initial_index + probe_distance) mod capacity tbl in
        if probe_distance >=? capacity tbl then Some tbl
        else insert_loop fuel tbl k v initial_index probe_distance
                         current_index
  end.

(** [ConcurrentHashTable::insert]; the load-factor test only prints. *)
Definition insert (tbl : t) (k : string) (v : Z) : option t :=
  if capacity tbl =? 0 then None
  else
    let initial_index := hashFunction k mod capacity tbl in
    insert_loop (Z.to_nat (capacity tbl)) tbl k v initial_index 0
                initial_index.

(** The loop of [remove]. *)
Fixpoint remove_loop (fuel : nat) (tbl : t) (k : string)
    (initial_index probe_distance current_index : Z) : option (bool * t) :=
  match fuel with
  | O => None
  | S fuel =>
      e ← table tbl !! Z.to_nat current_index;
      if in_use e then
        if bool_decide (key e = k) then
          Some (true,
                mk (<[Z.to_nat current_index :=
                        mkEntry (key e) (value e) false]> (table tbl))
                   (wrap64 (current_size tbl - 1)) (capacity tbl))
        else
          let probe_distance := wrap64 (probe_distance + 1) in
          let current_index :=
            wrap64 (initial_index + probe_distance) mod capacity tbl in
          if probe_distance >=? capacity tbl then Some (false, tbl)
          else if current_index =? initial_index then Some (false, tbl)
          else remove_loop fuel tbl k initial_index probe_distance
                           current_index
      else Some (false, tbl)
  end.

(** [ConcurrentHashTable::remove]. *)
Definition remove (tbl : t) (k : string) : option (bool * t) :=
  if capacity tbl =? 0 then None
  else
    let initial_index := hashFunction k mod capacity tbl in
    remove_loop (Z.to_nat (capacity tbl)) tbl k initial_index 0 initial_index.

(** The body of the loop of [resize] for the old slot [e]. *)
Definition reinsert (acc : option t) (e : TableEntry) : option t :=
  tbl ← acc;
  if in_use e then insert tbl (key e) (value e) else Some tbl.

(** [ConcurrentHashTable::resize]: the table is replaced by
    [new_capacity] empty slots, the size is reset, and the old slots that
    are in use are inserted again in index order. *)
Definition resize (tbl : t) (new_capacity : Z) : option t :=
  foldl reinsert
        (Some (mk (replicate (Z.to_nat new_capacity) empty_entry) 0
                  new_capacity))
        (table tbl).

End WithStdHash.

(** The slot ends the probing of [insert] for [k]: free, or holding it. *)
Definition accepts (k : string) (e : TableEntry) : bool :=
  negb (in_use e) || bool_decide (key e = k).

(** What a slot contributes to [lookup] for [k]. *)
Definition view (k : string) (e : TableEntry) : option Z :=
  if holds k e then Some (value e) else None.

(** The value of the last slot of [es], in index order, that is in use and
    holds [k]. *)
Fixpoint last_binding (es : list TableEntry) (k : string) : option Z :=
  match es with
  | [] => None
  | e :: es =>
      match last_binding es k with
      | Some v => Some v
      | None => view k e
      end
  end.

(** The number of slots in use that hold [k], and the number of slots in
    use. *)
Definition stored (tbl : t) (k : string) : nat :=
  length (filter (fun e => holds k e = true) (table tbl)).

Definition used (tbl : t) : nat :=
  length (filter (fun e => in_use e = true) (table tbl)).

(** The invariant of the constructor: the vector has [capacity] slots, the
    capacity is positive and the size of a vector, and [current_size]
    counts the slots in use. *)
Record wf (tbl : t) : Prop := mkWf {
  wf_capacity : 0 < capacity tbl < 2 ^ 63;
  wf_length : length (table tbl) = Z.to_nat (capacity tbl);
  wf_size : current_size tbl = Z.of_nat (used tbl)
}.

(** A table of four slots with two keys.  With the length of the string
    for its hash, "a" and "bcdef" both hash to slot 1: "a" sits there and
    "bcdef" in the next slot, where the probing of [insert] puts it. *)
Definition two_keys : t :=
  mk [empty_entry; mkEntry "a" 7 true; mkEntry "bcdef" 9 true; empty_entry]
     2 4.

End ConcurrentHashTable.

(* ===================================================================== *)
(** * [std::sort] as the GNU C++ library implements it *)
(* ===================================================================== *)

(** [std::sort] of libstdc++ ([bits/stl_algo.h], [bits/stl_heap.h]): an
    introsort.  Ranges of more than 16 elements are partitioned around a
    median of three, with a heap sort once the depth limit is used up, and
    a final insertion sort runs over the whole range.  The vector is a
    list, an iterator the offset from its start; the loops run on fuel
    that the length of the vector bounds.  [None] is a run that reads or
    writes outside of the vector. *)
Module GnuSort.

Section WithComp.

(** The comparator, on the elements of the vector. *)
Variable comp : Z -> Z -> bool.

(** [*it] and [*it = x] for the iterator at offset [i] of the vector;
    [None] outside of it. *)
Definition load (v : list Z) (i : Z) : option Z :=
  if i <? 0 then None else v !! Z.to_nat i.

Definition store (v : list Z) (i : Z) (x : Z) : option (list Z) :=
  if (0 <=? i) && (i <? Z.of_nat (length v))
  then Some (<[Z.to_nat i := x]> v) else None.

(** [std::iter_swap]. *)
Definition iter_swap (v : list Z) (a b : Z) : option (list Z) :=
  x ← load v a; y ← load v b;
  v ← store v a y; store v b x.

(** [std::__move_median_to_first]. *)
Definition move_median_to_first (v : list Z) (result a b c : Z)
  : option (list Z) :=
  x ← load v a; y ← load v b; z ← load v c;
  if comp x y then
    if comp y z then iter_swap v result b
    else if comp x z then iter_swap v result c
    else iter_swap v result a
  else if comp x z then iter_swap v result a
  else if comp y z then iter_swap v result c
  else iter_swap v result b.

(** The two inner loops of [std::__unguarded_partition]. *)
Fixpoint advance (fuel : nat) (v : list Z) (first pivot : Z) : option Z :=
  match fuel with
  | O => None
  | S fuel =>
      x ← load v first; p ← load v pivot;
      if comp x p then advance fuel v (first + 1) pivot else Some first
  end.

Fixpoint retreat (fuel : nat) (v : list Z) (pivot last : Z) : option Z :=
  match fuel with
  | O => None
  | S fuel =>
      p ← load v pivot; x ← load v last;
      if comp p x then retreat fuel v pivot (last - 1) else Some last
  end.

(** [std::__unguarded_partition]. *)
Fixpoint unguarded_partition (fuel : nat) (v : list Z) (first last pivot : Z)
  : option (Z * list Z) :=
  match fuel with
  | O => None
  | S fuel =>
      first ← advance (S (length v)) v first pivot;
      let last := last - 1 in
      last ← retreat (S (length v)) v pivot last;
      if negb (first <? last) then Some (first, v)
      else
        v ← iter_swap v first last;
        unguarded_partition fuel v (first + 1) last pivot
  end.

(** [std::__unguarded_partition_pivot]. *)
Definition unguarded_partition_pivot (v : list Z) (first last : Z)
  : option (Z * list Z) :=
  let mid := first + (last - first) ÷ 2 in
  v ← move_median_to_first v first (first + 1) mid (last - 1);
  unguarded_partition (S (length v)) v (first + 1) last first.

(** [std::__push_heap], with the comparator [__iter_comp_val]. *)
Fixpoint push_heap (fuel : nat) (v : list Z) (first holeIndex topIndex : Z)
    (value : Z) : option (list Z) :=
  match fuel with
  | O => None
  | S fuel =>
      let parent := (holeIndex - 1) ÷ 2 in
      if topIndex <? holeIndex then
        p ← load v (first + parent);
        if comp p value then
          v ← store v (first + holeIndex) p;
          push_heap fuel v first parent topIndex value
        else store v (first + holeIndex) value
      else store v (first + holeIndex) value
  end.

(** The first loop of [std::__adjust_heap]: the hole moves down to the
    larger child. *)
Fixpoint sift_down (fuel : nat) (v : list Z) (first holeIndex secondChild
    len : Z) : option (list Z * Z * Z) :=
  match fuel with
  | O => None
  | S fuel =>
      if secondChild <? (len - 1) ÷ 2 then
        let secondChild := 2 * (secondChild + 1) in
        a ← load v (first + secondChild);
        b ← load v (first + (secondChild - 1));
        let secondChild := if comp a b then secondChild - 1 else secondChild in
        c ← load v (first + secondChild);
        v ← store v (first + holeIndex) c;
        sift_down fuel v first secondChild secondChild len
      else Some (v, holeIndex, secondChild)
  end.

(** [std::__adjust_heap]. *)
Definition adjust_heap (v : list Z) (first holeIndex len value : Z)
  : option (list Z) :=
  let topIndex := holeIndex in
  '(v, holeIndex, secondChild) ←
    sift_down (S (length v)) v first holeIndex holeIndex len;
  '(v, holeIndex) ←
    (if (Z.land len 1 =? 0) && (secondChild =? (len - 2) ÷ 2) then
       let secondChild := 2 * (secondChild + 1) in
       c ← load v (first + (secondChild - 1));
       v ← store v (first + holeIndex) c;
       Some (v, secondChild - 1)
     else Some (v, holeIndex));
  push_heap (S (length v)) v first holeIndex topIndex value.

(** [std::__pop_heap]. *)
Definition pop_heap (v : list Z) (first last result : Z) : option (list Z) :=
  value ← load v result;
  f ← load v first;
  v ← store v result f;
  adjust_heap v first 0 (last - first) value.

(** [std::__make_heap]: the loop from [parent] down to 0. *)
Fixpoint make_heap_from (fuel : nat) (v : list Z) (first len parent : Z)
  : option (list Z) :=
  match fuel with
  | O => None
  | S fuel =>
      value ← load v (first + parent);
      v ← adjust_heap v first parent len value;
      if parent =? 0 then Some v
      else make_heap_from fuel v first len (parent - 1)
  end.

Definition make_heap (v : list Z) (first last : Z) : option (list Z) :=
  if last - first <? 2 then Some v
  else
    let len := last - first in
    make_heap_from (S (length v)) v first len ((len - 2) ÷ 2).

(** [std::__sort_heap]. *)
Fixpoint sort_heap (fuel : nat) (v : list Z) (first last : Z)
  : option (list Z) :=
  match fuel with
  | O => None
  | S fuel =>
      if 1 <? last - first then
        let last := last - 1 in
        v ← pop_heap v first last last;
        sort_heap fuel v first last
      else Some v
  end.

(** [std::__heap_select]. *)
Fixpoint heap_select_from (fuel : nat) (v : list Z) (first middle i last : Z)
  : option (list Z) :=
  match fuel with
  | O => None
  | S fuel =>
      if i <? last then
        x ← load v i; f ← load v first;
        v ← (if comp x f then pop_heap v first middle i else Some v);
        heap_select_from fuel v first middle (i + 1) last
      else Some v
  end.

Definition heap_select (v : list Z) (first middle last : Z)
  : option (list Z) :=
  v ← make_heap v first middle;
  heap_select_from (S (length v)) v first middle middle last.

(** [std::__partial_sort]. *)
Definition partial_sort (v : list Z) (first middle last : Z)
  : option (list Z) :=
  v ← heap_select v first middle last;
  sort_heap (S (length v)) v first middle.

(** The loop of [std::__unguarded_linear_insert], with the comparator
    [__val_comp_iter]. *)
Fixpoint linear_insert_loop (fuel : nat) (v : list Z) (val last : Z)
  : option (list Z) :=
  match fuel with
  | O => None
  | S fuel =>
      let next := last - 1 in
      n ← load v next;
      if comp val n then
        v ← store v last n;
        linear_insert_loop fuel v val next
      else store v last val
  end.

(** [std::__unguarded_linear_insert]. *)
Definition unguarded_linear_insert (v : list Z) (last : Z)
  : option (list Z) :=
  val ← load v last;
  linear_insert_loop (S (length v)) v val last.

(** [val = *i; std::move_backward(first, i, i + 1); *first = val]. *)
Definition move_to_first (v : list Z) (first i : Z) : option (list Z) :=
  val ← load v i;
  if 0 <=? first then
    let f := Z.to_nat first in
    let n := Z.to_nat (i - first) in
    Some (take f v ++ val :: take n (drop f v) ++ drop (S (f + n)) v)
  else None.

(** [std::__insertion_sort]: the loop from [i] on, [n] elements to go. *)
Fixpoint insertion_sort_from (n : nat) (v : list Z) (first i : Z)
  : option (list Z) :=
  match n with
  | O => Some v
  | S n =>
      x ← load v i; f ← load v first;
      v ← (if comp x f then move_to_first v first i
           else unguarded_linear_insert v i);
      insertion_sort_from n v first (i + 1)
  end.

Definition insertion_sort (v : list Z) (first last : Z) : option (list Z) :=
  if first =? last then Some v
  else insertion_sort_from (Z.to_nat (last - (first + 1))) v first (first + 1).

(** [std::__unguarded_insertion_sort]. *)
Fixpoint unguarded_insertion_sort_from (n : nat) (v : list Z) (i : Z)
  : option (list Z) :=
  match n with
  | O => Some v
  | S n =>
      v ← unguarded_linear_insert v i;
      unguarded_insertion_sort_from n v (i + 1)
  end.

Definition unguarded_insertion_sort (v : list Z) (first last : Z)
  : option (list Z) :=
  unguarded_insertion_sort_from (Z.to_nat (last - first)) v first.

(** [enum { _S_threshold = 16 }]. *)
Definition _S_threshold : Z := 16.

(** [std::__final_insertion_sort]. *)
Definition final_insertion_sort (v : list Z) (first last : Z)
  : option (list Z) :=
  if _S_threshold <? last - first then
    v ← insertion_sort v first (first + _S_threshold);
    unguarded_insertion_sort v (first + _S_threshold) last
  else insertion_sort v first last.

(** [std::__introsort_loop]. *)
Fixpoint introsort_loop (fuel : nat) (v : list Z) (first last
    depth_limit : Z) : option (list Z) :=
  match fuel with
  | O => None
  | S fuel =>
      if _S_threshold <? last - first then
        if depth_limit =? 0 then partial_sort v first last last
        else
          let depth_limit := depth_limit - 1 in
          '(cut, v) ← unguarded_partition_pivot v first last;
          v ← introsort_loop fuel v cut last depth_limit;
          introsort_loop fuel v first cut depth_limit
      else Some v
  end.

(** [std::__sort] on the whole vector; [std::__lg] is the binary
    logarithm rounded down. *)
Definition sort (v : list Z) : option (list Z) :=
  let first := 0 in
  let last := Z.of_nat (length v) in
  if first =? last then Some v
  else
    v ← introsort_loop (S (length v)) v first last (Z.log2 (last - first) * 2);
    final_insertion_sort v first last.

(** [std::sort] as a function on vectors.  A run that leaves the vector
    (which takes a comparator that is no strict weak ordering) is
    undefined; the vector is then returned as it was. *)
Definition std_sort (v : list Z) : list Z := default v (sort v).

End WithComp.

End GnuSort.

(* ===================================================================== *)
(** * The reference classifier of the specification *)
(* ===================================================================== *)

Module Reference.
Import Classifier.

(** Modelled from the spec: the parsing collaborator that reads the textual
    form "a.b.c.d/len" of a prefix is not part of the sources.  A prefix is
    a 32-bit address with a length 0..32; it covers the addresses that
    agree with it on the first [len] bits. *)
Definition digit_of (c : Ascii.ascii) : option Z :=
  let n := Z.of_N (Ascii.N_of_ascii c) in
  if (48 <=? n) && (n <=? 57) then Some (n - 48) else None.

Fixpoint parse_decimal_from (acc : Z) (s : string) : option Z :=
  match s with
  | EmptyString => Some acc
  | String c s' => d ← digit_of c; parse_decimal_from (10 * acc + d) s'
  end.

Definition parse_decimal (s : string) : option Z :=
  match s with
  | EmptyString => None
  | _ => parse_decimal_from 0 s
  end.

(** The pieces of [s] between occurrences of [sep]; [cur] is the piece
    being read, in reverse. *)
Fixpoint split_on (sep : Ascii.ascii) (cur : string) (s : string)
  : list string :=
  match s with
  | EmptyString => [String.rev cur]
  | String c s' =>
      if Ascii.eqb c sep then String.rev cur :: split_on sep "" s'
      else split_on sep (String c cur) s'
  end.

Definition parse_prefix (s : string) : option (Z * Z) :=
  match split_on (Ascii.ascii_of_nat 47) "" s with
  | [addr; len] =>
      match split_on (Ascii.ascii_of_nat 46) "" addr with
      | [a; b; c; d] =>
          a ← parse_decimal a; b ← parse_decimal b;
          c ← parse_decimal c; d ← parse_decimal d;
          len ← parse_decimal len;
          if (a <? 256) && (b <? 256) && (c <? 256) && (d <? 256)
             && (len <=? 32)
          then Some (((a * 256 + b) * 256 + c) * 256 + d, len)
          else None
      | _ => None
      end
  | _ => None
  end.

(** Modelled from the spec: an unspecified prefix is a wildcard, a
    specified one covers the addresses that share its first [len] bits. *)
Definition prefix_covers (prefix : string) (ip : Z) : bool :=
  if decide (prefix = "") then true
  else
    match parse_prefix prefix with
    | Some (addr, len) => Z.shiftr ip (32 - len) =? Z.shiftr addr (32 - len)
    | None => false
    end.

(** The reference, in the words of the specification: the full filter
    semantics (both IP prefixes, both port ranges, the protocol).  Ports
    and protocol are the fields [PacketFilter::matches] compares, with its
    wildcard encoding. *)
Definition full_matches (f : PacketFilter) (h : PacketHeader) : bool :=
  prefix_covers (source_ip_prefix f) (source_ip h)
  && prefix_covers (dest_ip_prefix f) (dest_ip h)
  && matches f h.

(** The reference, in the words of the specification: priority order,
    higher priority first, ties by ascending id. *)
Definition before (r1 r2 : ClassificationRule) : Prop :=
  priority r2 < priority r1 \/
  (priority r1 = priority r2 /\ rule_id r1 <= rule_id r2).

#[global] Instance before_dec r1 r2 : Decision (before r1 r2).
Proof. unfold before. apply _. Defined.

(** The reference, in the words of the specification: the linear scan
    over the enabled rules of the rule set, in priority order, under the
    full filter semantics. *)
Definition reference_classify (rules : gmap Z ClassificationRule)
    (h : PacketHeader) : ClassificationResult :=
  match
    List.find (fun r => enabled r && full_matches (filter r) h)
              (merge_sort before (map_to_list rules).*2)
  with
  | Some r => mkResult true (rule_id r) (actions r)
  | None => no_match
  end.

End Reference.

(* ===================================================================== *)
(** * Specifications: sorting contract, invariants, scenarios *)
(* ===================================================================== *)

Module ClassifierSpec.
Import Classifier.

(** What the C++ standard guarantees of [std::sort] with the comparator
    [a->priority > b->priority]: the result is a permutation of the input
    in which no element precedes one of strictly higher key. *)
Definition std_sort_contract
    (std_sort : (Z -> Z -> bool) -> list Z -> list Z) : Prop :=
  forall (key : Z -> Z) (l : list Z),
    std_sort (fun a b => key a >? key b) l ≡ₚ l /\
    StronglySorted (fun a b => key b <= key a)
                   (std_sort (fun a b => key a >? key b) l).

(** A sorting function that meets the contract: [sort_stable] keeps
    equivalent elements in input order (an insertion sort, as library
    implementations use on short ranges). *)
Fixpoint insert_before (cmp : Z -> Z -> bool) (x : Z) (l : list Z) : list Z :=
  match l with
  | [] => [x]
  | y :: l' => if cmp y x then y :: insert_before cmp x l' else x :: l
  end.

Definition sort_stable (cmp : Z -> Z -> bool) (l : list Z) : list Z :=
  foldr (insert_before cmp) [] l.

(** Every rule is stored under its own id. *)
Definition ids_ok (rules : gmap Z ClassificationRule) : Prop :=
  forall k r, rules !! k = Some r -> rule_id r = k.

(** The cache holds one pointer per stored rule, by descending priority. *)
Record RM_wf (rm : RuleManager) : Prop := mkRM_wf {
  wf_nodup : NoDup (rules_by_priority_cache_ rm);
  wf_dom : forall k,
    k ∈ rules_by_priority_cache_ rm <-> is_Some (rules_by_id_ rm !! k);
  wf_sorted :
    StronglySorted
      (fun a b => priority_of (rules_by_id_ rm) b
                  <= priority_of (rules_by_id_ rm) a)
      (rules_by_priority_cache_ rm);
  wf_ids : ids_ok (rules_by_id_ rm)
}.

(** The invariant of the facade is that of its rule manager. *)
Definition PC_wf (pc : PacketClassifier) : Prop := RM_wf (rule_manager_ pc).

(** Descending priority on pointers. *)
Definition by_priority (rules : gmap Z ClassificationRule) (a b : Z) : Prop :=
  priority_of rules b <= priority_of rules a.

(** A stored rule that is enabled and whose ports and protocol accept the
    header. *)
Definition candidate (rules : gmap Z ClassificationRule) (h : PacketHeader)
    (r : ClassificationRule) : Prop :=
  (exists k, rules !! k = Some r) /\
  enabled r = true /\ matches (filter r) h = true.

(** The result of a priority scan that compares ports and protocol only:
    a candidate of highest priority, or no match when there is none. *)
Definition highest_priority_match (rules : gmap Z ClassificationRule)
    (h : PacketHeader) (res : ClassificationResult) : Prop :=
  if matched res then
    exists r, rules !! matched_rule_id res = Some r /\
      candidate rules h r /\ result_actions res = actions r /\
      forall r', candidate rules h r' -> priority r' <= priority r
  else
    res = no_match /\ forall r', ~ candidate rules h r'.

(** The default-constructed filter, and a filter on the source prefix
    alone. *)
Definition any_filter : PacketFilter := mkFilter "" "" 0 0 0 0 0.

Definition src_filter (prefix : string) : PacketFilter :=
  mkFilter prefix "" 0 0 0 0 0.

(** The two rules of scenario S2. *)
Definition ruleA : ClassificationRule :=
  new_rule 1 100 (src_filter "10.0.0.0/8") (mkActions DROP (-1) "").

Definition ruleB : ClassificationRule :=
  new_rule 2 200 (src_filter "10.1.0.0/16") (mkActions FORWARD 5 "").

(** A packet from 10.2.2.3; the other fields are free. *)
Definition packet_S2 (dst sport dport proto : Z) : PacketHeader :=
  mkHeader 0x0A020203 dst sport dport proto.

(** A stand-in for [std::hash<std::string>] in concrete runs. *)
Definition length_hash (s : string) : Z := Z.of_nat (String.length s).

(** Descending priority, ties by ascending id: the order the
    specification gives to the view. *)
Definition by_priority_then_id (rules : gmap Z ClassificationRule)
    (a b : Z) : Prop :=
  priority_of rules b < priority_of rules a \/
  (priority_of rules a = priority_of rules b /\ a <= b).

#[global] Instance by_priority_dec rules a b :
  Decision (by_priority rules a b).
Proof. unfold by_priority. apply _. Defined.

#[global] Instance by_priority_then_id_dec rules a b :
  Decision (by_priority_then_id rules a b).
Proof. unfold by_priority_then_id. apply _. Defined.

(** The view holds one pointer for each stored rule. *)
Definition view_is_store (rm : RuleManager) : Prop :=
  getRulesByPriority rm ≡ₚ (map_to_list (rules_by_id_ rm)).*1.

(** A match-all rule of the given id and priority. *)
Definition equal_priority (id prio : Z) : ClassificationRule :=
  new_rule id prio any_filter default_actions.

(** A source or destination port range with [low > high]. *)
Definition inverted_range (f : PacketFilter) : Prop :=
  source_port_low f > source_port_high f \/
  dest_port_low f > dest_port_high f.

(** A rule on TCP destination ports [443, 80]. *)
Definition inverted_rule : ClassificationRule :=
  new_rule 9 10 (mkFilter "" "" 0 0 443 80 6) default_actions.

(** The rule and a matching packet of scenario S3. *)
Definition web_rule : ClassificationRule :=
  new_rule 7 50 (mkFilter "" "" 0 0 80 443 6) (mkActions LOG (-1) "web").

Definition web_packet : PacketHeader := mkHeader 0 0 33333 80 6.

(** What [classify] reads of a rule: everything but the statistics. *)
Definition matching_part (r : ClassificationRule)
  : Z * Z * PacketFilter * ActionList * bool :=
  (rule_id r, priority r, filter r, actions r, enabled r).

(** Two rule managers that differ in statistics at most. *)
Definition same_matching (rm rm' : RuleManager) : Prop :=
  rules_by_priority_cache_ rm = rules_by_priority_cache_ rm' /\
  forall k, matching_part <$> (rules_by_id_ rm !! k)
            = matching_part <$> (rules_by_id_ rm' !! k).

(** ** States with rules in the store

    No call of the interface stores a rule (see [addRule_returns] in
    [ClassifierFacts]), so the states below are written down: a store
    with each rule under its own id, and a view that holds the stored
    rules by descending priority. *)

(** The classifier built with [enable] whose rule manager is [rm]. *)
Definition holding (enable : bool) (rm : RuleManager) : PacketClassifier :=
  set_rule_manager (PacketClassifier_new enable 64 3) rm.

(** The rule set of scenario S2. *)
Definition S2_store : RuleManager :=
  mkRM (<[2 := ruleB]> (<[1 := ruleA]> ∅)) [2; 1].

(** Rule 7 of scenario S3 alone, with the given [match_count]. *)
Definition web_store (count : Z) : RuleManager :=
  mkRM {[7 := set_statistics web_rule count 0]} [7].

(** Rule 7 of scenario S3, disabled. *)
Definition disabled_web_store : RuleManager :=
  mkRM {[7 := mkRule 7 50 (filter web_rule) (actions web_rule) false 0 0]}
       [7].

(** The match-all rules 1 .. [n] of one priority, the view by ascending
    id. *)
Definition equal_store (n prio : Z) : RuleManager :=
  mkRM (list_to_map ((fun i => (i, equal_priority i prio)) <$> seqZ 1 n))
       (seqZ 1 n).

(** The view the rebuild leaves for seventeen rules of one priority,
    under the sort of the GNU library. *)
Definition view_of_17 : list Z :=
  [9; 17; 16; 15; 14; 13; 12; 11; 10; 1; 8; 7; 6; 5; 4; 3; 2].

(** Two calls that end alike: both return, with the same value and the
    same rule manager, or neither does. *)
Definition alike (a b : option (Out * PacketClassifier)) : Prop :=
  match a, b with
  | Some (o, q), Some (o', q') => o = o' /\ rule_manager_ q = rule_manager_ q'
  | None, None => True
  | _, _ => False
  end.

(** Rule 7 stored in a classifier whose Bloom filter has received its
    filter string. *)
Definition covered_web : PacketClassifier :=
  bloom_insert length_hash (holding true (web_store 0))
               (PacketFilter_toString (filter web_rule)).

(** The Bloom filter of the facade covers the enabled rules: it is well
    formed and answers "possibly" for the filter string of every stored
    rule that is enabled. *)
Definition bloom_covers (std_hash : string -> Z) (pc : PacketClassifier)
  : Prop :=
  forall bf, bloom_filter_ pc = Some bf ->
    BloomFilter.wf bf /\
    forall k r, rules_by_id_ (rule_manager_ pc) !! k = Some r ->
      enabled r = true ->
      BloomFilter.possiblyContains std_hash bf
        (PacketFilter_toString (filter r)) = true.

End ClassifierSpec.

(* ===================================================================== *)
(** * Arithmetic *)
(* ===================================================================== *)

Lemma wrap64_range z : 0 <= wrap64 z < 2 ^ 64.
Proof. unfold wrap64. apply Z.mod_pos_bound. lia. Qed.

(* ===================================================================== *)
(** * Properties of the interval tree *)
(* ===================================================================== *)

Module IntervalTreeFacts.
Import IntervalTree.

Example insert_two :
  insert_all [mkInterval 10 20 1; mkInterval 30 40 2]
  = Some (Node (mkInterval 10 20 1) 40 Leaf
               (Node (mkInterval 30 40 2) 40 Leaf Leaf 1) 2).
Proof. reflexivity. Qed.

Example query_two :
  (t ← insert_all [mkInterval 10 30 1030; mkInterval 20 40 2040;
                   mkInterval 5 15 515];
   Some (findOverlappingIntervals t 12))
  = Some [mkInterval 10 30 1030; mkInterval 5 15 515].
Proof. reflexivity. Qed.

(** *** Heights *)

Lemma getHeight_nonneg t : heights_ok t -> 0 <= getHeight t.
Proof.
  induction t as [|i m l IHl r IHr h]; simpl; [lia|].
  intros (-> & Hl & _). specialize (IHl Hl). lia.
Qed.

Lemma getHeight_pos_node t : heights_ok t -> 0 < getHeight t -> is_node t = true.
Proof. destruct t; simpl; [lia | done]. Qed.

Lemma heights_ok_update i m l r h :
  heights_ok l -> heights_ok r ->
  heights_ok (updateMaxHigh (updateNodeHeight (Node i m l r h))).
Proof. simpl. auto. Qed.

Lemma rotateRight_heights yi ym xi xm xl xr xh yr yh :
  heights_ok xl -> heights_ok xr -> heights_ok yr ->
  exists t, rotateRight (Node yi ym (Node xi xm xl xr xh) yr yh) = Some t
            /\ heights_ok t /\ is_node t = true.
Proof. intros. eexists. split; [reflexivity|]. simpl. auto 10. Qed.

Lemma rotateLeft_heights xi xm xl yi ym yl yr yh xh :
  heights_ok xl -> heights_ok yl -> heights_ok yr ->
  exists t, rotateLeft (Node xi xm xl (Node yi ym yl yr yh) xh) = Some t
            /\ heights_ok t /\ is_node t = true.
Proof. intros. eexists. split; [reflexivity|]. simpl. auto 10. Qed.

Lemma remove_rebalance_heights i m l r h :
  heights_ok l -> heights_ok r ->
  exists t, remove_rebalance (Node i m l r h) = Some t /\ heights_ok t.
Proof.
  intros Hl Hr. unfold remove_rebalance.
  cbn [updateNodeHeight updateMaxHigh getBalanceFactor].
  pose proof (getHeight_nonneg l Hl) as Hl0.
  pose proof (getHeight_nonneg r Hr) as Hr0.
  set (m' := match r with Leaf => _ | Node _ rm _ _ _ => _ end).
  set (h' := 1 + Z.max (getHeight l) (getHeight r)).
  destruct (getHeight l - getHeight r >? 1) eqn:Hb1; cbn [andb].
  - (* left heavy: [l] is a node *)
    destruct l as [|li lm ll lr lh]; [simpl in *; lia|].
    destruct Hl as (Hlh & Hll & Hlr).
    destruct (getBalanceFactor (Node li lm ll lr lh) >=? 0) eqn:Hb2.
    + destruct (rotateRight_heights i m' li lm ll lr lh r h')
        as (t & Ht & Hok & _); auto. eauto.
    + assert ((getBalanceFactor (Node li lm ll lr lh) <? 0) = true) as ->
        by lia.
      simpl in Hb2.
      pose proof (getHeight_nonneg ll Hll).
      destruct lr as [|ri rm rl rr rh]; [simpl in *; lia|].
      destruct Hlr as (Hrh & Hrl & Hrr).
      destruct (rotateLeft_heights li lm ll ri rm rl rr rh lh)
        as (t & Ht & Hok & Hn); auto.
      rewrite Ht. cbn [mbind option_bind].
      destruct t as [|ti tm tl tr th]; [done|].
      destruct Hok as (? & ? & ?).
      destruct (rotateRight_heights i m' ti tm tl tr th r h')
        as (t' & Ht' & Hok' & _); auto. eauto.
  - destruct (getHeight l - getHeight r <? -1) eqn:Hb3; cbn [andb].
    + destruct r as [|ri rm rl rr rh]; [simpl in *; lia|].
      destruct Hr as (Hrh & Hrl & Hrr).
      destruct (getBalanceFactor (Node ri rm rl rr rh) <=? 0) eqn:Hb4.
      * destruct (rotateLeft_heights i m' l ri rm rl rr rh h')
          as (t & Ht & Hok & _); auto. eauto.
      * assert ((getBalanceFactor (Node ri rm rl rr rh) >? 0) = true) as ->
          by lia.
        simpl in Hb4.
        pose proof (getHeight_nonneg rr Hrr).
        destruct rl as [|li lm ll lr lh]; [simpl in *; lia|].
        destruct Hrl as (Hlh & Hll & Hlr).
        destruct (rotateRight_heights ri rm li lm ll lr lh rr rh)
          as (t & Ht & Hok & Hn); auto.
        rewrite Ht. cbn [mbind option_bind].
        destruct t as [|ti tm tl tr th]; [done|].
        destruct Hok as (? & ? & ?).
        destruct (rotateLeft_heights i m' l ti tm tl tr th h')
          as (t' & Ht' & Hok' & _); auto. eauto.
    + eexists. split; [reflexivity|]. simpl. auto.
Qed.

Lemma findMin_node t : is_node t = true -> is_node (findMin t) = true.
Proof.
  induction t as [|i m l IHl r IHr h]; [done|].
  intros _. simpl. destruct l; [done|]. apply IHl. done.
Qed.

Lemma removeRecursive_heights t target :
  heights_ok t ->
  exists t', removeRecursive t target = Some t' /\ heights_ok t'.
Proof.
  revert target.
  induction t as [|i m l IHl r IHr h]; intros target Hok.
  - exists Leaf. done.
  - destruct Hok as (Hh & Hl & Hr). cbn [removeRecursive].
    destruct (_ || _).
    { destruct (IHl target Hl) as (l' & -> & Hl').
      cbn [mbind option_bind]. by apply remove_rebalance_heights. }
    destruct (_ || _).
    { destruct (IHr target Hr) as (r' & -> & Hr').
      cbn [mbind option_bind]. by apply remove_rebalance_heights. }
    destruct (_ && _).
    2:{ by apply remove_rebalance_heights. }
    destruct l as [|li lm ll lr lh]; [eauto|].
    destruct r as [|ri rm rl rr rh]; [eauto|].
    pose proof (findMin_node (Node ri rm rl rr rh) eq_refl) as Hmin.
    destruct (findMin (Node ri rm rl rr rh)) as [|si sm sl sr sh] eqn:Hs;
      [done|].
    cbn [interval_of].
    destruct (IHr si Hr) as (r' & -> & Hr').
    cbn [mbind option_bind]. by apply remove_rebalance_heights.
Qed.

(** *** The point query on a well-formed tree *)

Lemma find_sound t q x :
  x ∈ findOverlappingRecursive t q -> x ∈ elements t /\ low x <= q <= high x.
Proof.
  induction t as [|i m l IHl r IHr h]; simpl; [by intros ?%elem_of_nil|].
  rewrite !elem_of_app, elem_of_cons, elem_of_app.
  intros [H | [H | H]].
  - destruct (_ && _) eqn:Hc; [|by apply elem_of_nil in H].
    apply list_elem_of_singleton in H as ->. split; [auto | lia].
  - destruct l as [|li lm ll lr lh]; [by apply elem_of_nil in H|].
    destruct (lm >=? q); [|by apply elem_of_nil in H].
    apply IHl in H as [? ?]. auto.
  - destruct r as [|ri rm rl rr rh]; [by apply elem_of_nil in H|].
    destruct (q >=? low i).
    { apply IHr in H as [? ?]. auto. }
    destruct (_ && _); [|by apply elem_of_nil in H].
    apply IHr in H as [? ?]. auto.
Qed.

Lemma max_bound_root_le t x :
  max_bound t -> x ∈ elements t ->
  match t with Leaf => False | Node _ m _ _ _ => high x <= m end.
Proof.
  destruct t as [|i m l r h]; [by intros _ ?%elem_of_nil|].
  intros (Hm & _ & _) Hx. rewrite Forall_forall in Hm. by apply Hm.
Qed.

Lemma find_complete t q x :
  bst t -> max_bound t ->
  x ∈ elements t -> low x <= q <= high x ->
  x ∈ findOverlappingRecursive t q.
Proof.
  induction t as [|i m l IHl r IHr h]; simpl; [by intros _ _ ?%elem_of_nil|].
  intros (Hbl & Hbr & Hl & Hr) (Hm & Hml & Hmr).
  rewrite !elem_of_app, elem_of_cons, elem_of_app.
  intros [-> | [Hx | Hx]] Hq.
  - left. destruct (_ && _) eqn:Hc; [apply list_elem_of_singleton; done | lia].
  - right; left. destruct l as [|li lm ll lr lh]; [by apply elem_of_nil in Hx|].
    pose proof (max_bound_root_le _ _ Hml Hx) as Hlm. cbn beta iota in Hlm.
    destruct (lm >=? q) eqn:Hc; [|lia].
    by apply IHl.
  - right; right.
    destruct r as [|ri rm rl rr rh]; [by apply elem_of_nil in Hx|].
    rewrite Forall_forall in Hbr. specialize (Hbr x Hx). cbn beta in Hbr.
    destruct (q >=? low i) eqn:Hc; [|lia].
    apply IHr; done.
Qed.

(** On a tree that satisfies the search order and the [max_high] bound, the
    pruned descent returns exactly the stored intervals that contain the
    point. *)
Theorem findOverlapping_correct t q x :
  bst t -> max_bound t ->
  x ∈ findOverlappingIntervals t q <->
  x ∈ elements t /\ low x <= q <= high x.
Proof.
  intros Hb Hm. split.
  - apply find_sound.
  - intros [? ?]. by apply find_complete.
Qed.

(** *** [updateMaxHigh], the rotations and the invariants *)

Lemma elements_refresh n :
  elements (updateMaxHigh (updateNodeHeight n)) = elements n.
Proof. by destruct n. Qed.

Lemma bst_refresh n : bst n -> bst (updateMaxHigh (updateNodeHeight n)).
Proof. by destruct n. Qed.

Lemma max_bound_updateMaxHigh i m l r h :
  max_bound l -> max_bound r -> max_bound (updateMaxHigh (Node i m l r h)).
Proof.
  intros Hl Hr. cbn [updateMaxHigh max_bound]. split; [|done].
  apply Forall_forall. intros x.
  rewrite elem_of_cons, elem_of_app. intros [-> | [Hx | Hx]].
  - destruct l, r; cbn beta; lia.
  - pose proof (max_bound_root_le _ _ Hl Hx) as Hle.
    destruct l; [done|]. destruct r; cbn beta; lia.
  - pose proof (max_bound_root_le _ _ Hr Hx) as Hle.
    destruct r; [done|]. destruct l; cbn beta; lia.
Qed.

Lemma max_bound_refresh i m l r h :
  max_bound l -> max_bound r ->
  max_bound (updateMaxHigh (updateNodeHeight (Node i m l r h))).
Proof. intros. by apply max_bound_updateMaxHigh. Qed.

Lemma rotateRight_spec y x :
  rotateRight y = Some x ->
  elements x ≡ₚ elements y /\
  (bst y -> bst x) /\
  (max_bound (left_of (left_of y)) -> max_bound (right_of (left_of y)) ->
   max_bound (right_of y) -> max_bound x).
Proof.
  destruct y as [|yi ym [|xi xm xl xr xh] yr yh]; try done.
  intros [= <-]. cbn [on_right updateNodeHeight left_of right_of].
  split; [|split].
  - simpl. rewrite <- !app_assoc. rewrite <- Permutation_middle.
    by rewrite (Permutation_swap xi yi).
  - simpl. intros (Hyl & Hyr & (Hxl & Hxr & ? & ?) & ?).
    apply Forall_cons in Hyl as [Hxy Hyl].
    apply Forall_app in Hyl as [Hylx Hyrx].
    repeat split; try done.
    apply Forall_cons. split; [done|]. apply Forall_app. split; [done|].
    eapply Forall_impl; [exact Hyr|]. cbn beta. intros; lia.
  - intros Hxl Hxr Hyr.
    exact (max_bound_updateMaxHigh xi xm xl _ _ Hxl
             (max_bound_updateMaxHigh yi ym xr yr
                (1 + Z.max (getHeight xr) (getHeight yr)) Hxr Hyr)).
Qed.

Lemma rotateLeft_spec x y :
  rotateLeft x = Some y ->
  elements y ≡ₚ elements x /\
  (bst x -> bst y) /\
  (max_bound (left_of x) -> max_bound (left_of (right_of x)) ->
   max_bound (right_of (right_of x)) -> max_bound y).
Proof.
  destruct x as [|xi xm xl [|yi ym yl yr yh] xh]; try done.
  intros [= <-]. cbn [on_left updateNodeHeight left_of right_of].
  split; [|split].
  - simpl. rewrite <- !app_assoc. rewrite <- Permutation_middle.
    by rewrite (Permutation_swap xi yi).
  - simpl. intros (Hxl & Hxr & ? & (Hyl & Hyr & ? & ?)).
    apply Forall_cons in Hxr as [Hxy Hxr].
    apply Forall_app in Hxr as [Hxyl Hxyr].
    repeat split; try done.
    apply Forall_cons. split; [done|]. apply Forall_app. split; [|done].
    eapply Forall_impl; [exact Hxl|]. cbn beta. intros; lia.
  - intros Hxl Hyl Hyr.
    exact (max_bound_updateMaxHigh yi ym _ yr _
             (max_bound_updateMaxHigh xi xm xl yl
                (1 + Z.max (getHeight xl) (getHeight yl)) Hxl Hyl) Hyr).
Qed.

(** *** Insertion *)

(** With the moved-from pointer, the balancing tail of [insertRecursive]
    is defined exactly when the node needs no rotation. *)
Lemma insert_rebalance_moved node t :
  insert_rebalance node None = Some t ->
  t = updateMaxHigh (updateNodeHeight node) /\
  -1 <= getBalanceFactor t <= 1.
Proof.
  unfold insert_rebalance.
  set (n := updateMaxHigh (updateNodeHeight node)).
  destruct (getBalanceFactor n >? 1) eqn:H1; [done|].
  destruct (getBalanceFactor n <? -1) eqn:H2; [done|].
  cbn. intros [= <-]. split; [done | lia].
Qed.

Lemma insert_rebalance_moved_undefined node :
  let n := updateMaxHigh (updateNodeHeight node) in
  getBalanceFactor n > 1 \/ getBalanceFactor n < -1 ->
  insert_rebalance node None = None.
Proof.
  intros n Hb. unfold insert_rebalance. fold n.
  destruct (getBalanceFactor n >? 1) eqn:H1; [done|].
  destruct (getBalanceFactor n <? -1) eqn:H2; [done|]. lia.
Qed.

Lemma insertRecursive_spec t n t' :
  insertRecursive t n = Some t' ->
  elements t' ≡ₚ n :: elements t /\
  (bst t -> bst t') /\
  (max_bound t -> max_bound t') /\
  (heights_ok t -> heights_ok t').
Proof.
  revert t'. induction t as [|i m l IHl r IHr h]; intros t'.
  - intros [= <-]. simpl. repeat split; auto.
    apply Forall_singleton. lia.
  - cbn [insertRecursive]. intros Hins.
    apply bind_Some in Hins as (node' & Hdesc & Hreb).
    apply insert_rebalance_moved in Hreb as [-> _].
    assert ((exists l', insertRecursive l n = Some l' /\
                        node' = Node i m l' r h /\ low n <= low i) \/
            (exists r', insertRecursive r n = Some r' /\
                        node' = Node i m l r' h /\ low i <= low n))
      as [(l' & Hl' & -> & Hlow) | (r' & Hr' & -> & Hlow)].
    { destruct (low n <? low i) eqn:H1.
      { apply bind_Some in Hdesc as (l' & ? & [= <-]). left. eexists.
        repeat split; [done | lia]. }
      destruct (low n >? low i) eqn:H2.
      { apply bind_Some in Hdesc as (r' & ? & [= <-]). right. eexists.
        repeat split; [done | lia]. }
      destruct (high n <? high i) eqn:H3.
      { apply bind_Some in Hdesc as (l' & ? & [= <-]). left. eexists.
        repeat split; [done | lia]. }
      apply bind_Some in Hdesc as (r' & ? & [= <-]). right. eexists.
      repeat split; [done | lia]. }
    + destruct (IHl _ Hl') as (Hp & Hb & Hm & Hh).
      rewrite elements_refresh. split; [|split; [|split]].
      * simpl. rewrite Hp. simpl. apply Permutation_swap.
      * intros (Hbl & Hbr & ? & ?). apply bst_refresh. simpl.
        repeat split; auto. rewrite Hp. by apply Forall_cons.
      * intros (_ & ? & ?). apply max_bound_refresh; auto.
      * intros (_ & ? & ?). apply heights_ok_update; auto.
    + destruct (IHr _ Hr') as (Hp & Hb & Hm & Hh).
      rewrite elements_refresh. split; [|split; [|split]].
      * simpl. rewrite Hp. rewrite <- Permutation_middle.
        apply Permutation_swap.
      * intros (Hbl & Hbr & ? & ?). apply bst_refresh. simpl.
        repeat split; auto. rewrite Hp. by apply Forall_cons.
      * intros (_ & ? & ?). apply max_bound_refresh; auto.
      * intros (_ & ? & ?). apply heights_ok_update; auto.
Qed.

Lemma insert_all_snoc l i :
  insert_all (l ++ [i])
  = (t ← insert_all l; insert t (low i) (high i) (data_id i)).
Proof. unfold insert_all. by rewrite foldl_app. Qed.

Lemma insert_all_spec l t :
  insert_all l = Some t ->
  elements t ≡ₚ filter (fun i => low i <= high i) l /\
  bst t /\ max_bound t /\ heights_ok t.
Proof.
  revert t. induction l as [|i l IH] using rev_ind; intros t.
  - intros [= <-]. done.
  - rewrite insert_all_snoc. intros H.
    apply bind_Some in H as (t0 & Ht0 & Hins).
    destruct (IH _ Ht0) as (Hp & Hb & Hm & Hh).
    rewrite filter_app. unfold insert in Hins.
    destruct (low i >? high i) eqn:Hc.
    + injection Hins as <-.
      rewrite filter_cons_False by lia. rewrite filter_nil, app_nil_r. done.
    + destruct i as [lo hi id]; cbn [low high data_id] in *.
      apply insertRecursive_spec in Hins as (Hp' & Hb' & Hm' & Hh').
      repeat split; auto.
      rewrite filter_cons_True by (cbn; lia).
      rewrite filter_nil, Hp', Hp. by rewrite <- Permutation_cons_append.
Qed.

(** Whenever a run of insertions is defined, the point query returns
    exactly the inserted intervals that contain the point. *)
Theorem query_after_inserts l t q x :
  insert_all l = Some t ->
  x ∈ findOverlappingIntervals t q <-> x ∈ l /\ low x <= q <= high x.
Proof.
  intros Hl. apply insert_all_spec in Hl as (Hp & Hb & Hm & _).
  rewrite findOverlapping_correct by done.
  rewrite Hp, list_elem_of_filter. intuition lia.
Qed.

(** Three intervals with increasing [low] leave the root with balance
    factor -2, and the balancing tail then reads the moved-from
    [new_interval]. *)
Lemma insert_ascending_undefined a b c :
  low a <= high a -> low b <= high b -> low c <= high c ->
  low a < low b -> low b < low c ->
  insert_all [a; b; c] = None.
Proof.
  intros Ha Hb Hc Hab Hbc.
  destruct a as [al ah ai], b as [bl bh bi], c as [cl ch ci].
  cbn [low high] in *. unfold insert_all, insert.
  repeat (cbn; unfold insert_rebalance, and_then;
          repeat match goal with
                 | |- context [Z.gtb ?x ?y] => rewrite (Z.gtb_ltb x y)
                 | |- context [Z.ltb ?x ?y] =>
                     destruct (Z.ltb_spec x y); try lia
                 end).
  reflexivity.
Qed.

(** C6 (evaluation at the failing input).  On the insertions of the
    repository's own test [InsertMultipleNonOverlappingIntervals],
    [10,20], [30,40] and [50,60], the third call reaches the balancing tail
    of [insertRecursive] with balance factor -2 and dereferences the
    moved-from [new_interval]: the run is undefined and no query can be
    answered. *)
Theorem insert_three_ascending_undefined :
  insert_all [mkInterval 10 20 1; mkInterval 30 40 2; mkInterval 50 60 3]
  = None.
Proof. reflexivity. Qed.

(** *** Removal *)

Lemma reachable_heights_ok t : reachable t -> heights_ok t.
Proof.
  induction 1 as [|t lo hi id t' _ IH Hins|t lo hi id b t' _ IH Hrem].
  - done.
  - unfold insert in Hins. destruct (lo >? hi); [by injection Hins as <-|].
    by apply insertRecursive_spec in Hins as (_ & _ & _ & ?); auto.
  - unfold remove in Hrem. apply bind_Some in Hrem as (r & Hr & [= _ <-]).
    destruct (removeRecursive_heights t (mkInterval lo hi id) IH)
      as (r' & Hr' & ?). congruence.
Qed.

(** C10.  [IntervalTree::remove(low, high, data_id)] returns [true] on
    every tree whose stored heights are the computed ones (so on every tree
    the interface can build) and for every argument triple, whether or not
    an interval with that range and id is stored. *)
Theorem remove_always_true root lo hi id :
  heights_ok root ->
  exists root', remove root lo hi id = Some (true, root') /\ heights_ok root'.
Proof.
  intros Hok. unfold remove.
  destruct (removeRecursive_heights root (mkInterval lo hi id) Hok)
    as (r & -> & Hr).
  exists r. done.
Qed.

Lemma remove_always_true_witness :
  heights_ok (Node (mkInterval 10 20 1) 20 Leaf Leaf 1) /\
  exists root',
    remove (Node (mkInterval 10 20 1) 20 Leaf Leaf 1) 100 200 100
    = Some (true, root') /\ heights_ok root'.
Proof.
  split; [simpl; auto|].
  apply (remove_always_true (Node (mkInterval 10 20 1) 20 Leaf Leaf 1)).
  simpl; auto.
Defined.

(** Nothing was stored under the removed triple, the tree is unchanged and
    the flag is still [true]. *)
Example remove_absent_true :
  remove (Node (mkInterval 10 20 1) 20 Leaf Leaf 1) 10 20 2
  = Some (true, Node (mkInterval 10 20 1) 20 Leaf Leaf 1).
Proof. reflexivity. Qed.

Corollary remove_reachable_true root lo hi id :
  reachable root -> exists root', remove root lo hi id = Some (true, root').
Proof.
  intros H%reachable_heights_ok. unfold remove.
  destruct (removeRecursive_heights root (mkInterval lo hi id) H)
    as (r & -> & _).
  eauto.
Qed.

End IntervalTreeFacts.

(* ===================================================================== *)
(** * Properties of the Bloom filter *)
(* ===================================================================== *)

Module BloomFilterFacts.
Import BloomFilter.

Lemma new_size_hashes_wf size k : wf (new_size_hashes size k).
Proof.
  unfold wf, new_size_hashes. cbn. rewrite length_replicate.
  split; [|done]. destruct (Z.of_N size =? 0) eqn:E; lia.
Qed.

Lemma new_optimal_wf size k : wf (new_optimal size k).
Proof.
  unfold wf, new_optimal. cbn. rewrite length_replicate.
  split; [|done]. destruct (Z.of_N size =? 0) eqn:E; lia.
Qed.

Lemma get_set_bit_same bits h :
  (Z.to_nat h < length bits)%nat -> get_bit (set_bit bits h) h = true.
Proof.
  intros Hlt. unfold get_bit, set_bit.
  by rewrite list_lookup_insert_eq.
Qed.

Lemma get_set_bit_mono bits h h' :
  get_bit bits h' = true -> get_bit (set_bit bits h) h' = true.
Proof.
  unfold get_bit, set_bit. intros Hb.
  destruct (decide (Z.to_nat h = Z.to_nat h')) as [E|E].
  - rewrite E. destruct (bits !! Z.to_nat h') eqn:Hl; [|done].
    rewrite list_lookup_insert_eq; [done|]. by eapply lookup_lt_Some.
  - by rewrite list_lookup_insert_ne.
Qed.

Lemma length_set_bits bits hs : length (foldl set_bit bits hs) = length bits.
Proof.
  revert bits. induction hs as [|h hs IH]; intros bits; [done|].
  cbn. rewrite IH. apply length_insert.
Qed.

Lemma set_bits_mono bits hs h' :
  get_bit bits h' = true -> get_bit (foldl set_bit bits hs) h' = true.
Proof.
  revert bits. induction hs as [|h hs IH]; intros bits Hb; [done|].
  cbn. apply IH. by apply get_set_bit_mono.
Qed.

Lemma set_bits_sets bits hs h :
  h ∈ hs -> (Z.to_nat h < length bits)%nat ->
  get_bit (foldl set_bit bits hs) h = true.
Proof.
  revert bits. induction hs as [|h0 hs IH]; intros bits Hin Hlt.
  - by apply elem_of_nil in Hin.
  - cbn. apply elem_of_cons in Hin as [-> | Hin].
    + apply set_bits_mono. by apply get_set_bit_same.
    + apply IH; [done|]. unfold set_bit. by rewrite length_insert.
Qed.

Section AnyStdHash.
Variable std_hash : string -> Z.

(** The k positions of an item depend on [m] and [k] alone. *)
Lemma hash_params bf bf' x :
  bit_array_size bf' = bit_array_size bf ->
  num_hash_functions bf' = num_hash_functions bf ->
  hash std_hash bf' x = hash std_hash bf x.
Proof.
  intros Hm Hk. unfold BloomFilter.hash, hash_at. rewrite Hm, Hk. done.
Qed.

Lemma hash_in_range bf x h :
  wf bf -> h ∈ hash std_hash bf x -> 0 <= h < bit_array_size bf.
Proof.
  intros [Hm _]. unfold BloomFilter.hash.
  destruct (_ || _); [by intros ?%elem_of_nil|].
  intros (i & -> & _)%list_elem_of_fmap. unfold hash_at.
  repeat case_match; apply Z.mod_pos_bound; lia.
Qed.

Lemma insert_wf bf x : wf bf -> wf (insert std_hash bf x).
Proof.
  intros [Hm Hl]. unfold BloomFilter.insert.
  destruct (bit_array_size bf =? 0); [done|].
  split; cbn; [done|]. by rewrite length_set_bits.
Qed.

Lemma insert_size bf x :
  bit_array_size (insert std_hash bf x) = bit_array_size bf.
Proof. unfold BloomFilter.insert. by destruct (bit_array_size bf =? 0). Qed.

Lemma insert_num_hashes bf x :
  num_hash_functions (insert std_hash bf x) = num_hash_functions bf.
Proof. unfold BloomFilter.insert. by destruct (bit_array_size bf =? 0). Qed.

(** Bits are only ever set. *)
Lemma insert_bit_mono bf x h :
  get_bit (bit_array bf) h = true ->
  get_bit (bit_array (insert std_hash bf x)) h = true.
Proof.
  intros Hb. unfold BloomFilter.insert.
  destruct (bit_array_size bf =? 0); [done|]. cbn. by apply set_bits_mono.
Qed.

Lemma possiblyContains_insert_same bf x :
  wf bf -> possiblyContains std_hash (insert std_hash bf x) x = true.
Proof.
  intros Hwf. unfold BloomFilter.possiblyContains.
  rewrite insert_size.
  destruct (bit_array_size bf =? 0) eqn:Hm; [destruct Hwf; lia|].
  apply forallb_forall. intros h Hh%list_elem_of_In.
  rewrite (hash_params bf) in Hh by auto using insert_size, insert_num_hashes.
  unfold BloomFilter.insert. rewrite Hm. cbn.
  apply set_bits_sets; [done|].
  destruct Hwf as [? Hl]. rewrite Hl.
  pose proof (hash_in_range bf x h (conj H Hl) Hh). lia.
Qed.

Lemma possiblyContains_insert_mono bf x y :
  possiblyContains std_hash bf x = true ->
  possiblyContains std_hash (insert std_hash bf y) x = true.
Proof.
  unfold BloomFilter.possiblyContains. rewrite insert_size.
  destruct (bit_array_size bf =? 0); [done|].
  rewrite !forallb_forall. intros Hall h Hh.
  rewrite (hash_params bf) in Hh by auto using insert_size, insert_num_hashes.
  apply insert_bit_mono. auto.
Qed.

Lemma inserts_wf bf xs : wf bf -> wf (foldl (insert std_hash) bf xs).
Proof.
  revert bf. induction xs as [|y xs IH]; intros bf Hwf; [done|].
  cbn. apply IH. by apply insert_wf.
Qed.

Lemma inserts_mono bf xs x :
  possiblyContains std_hash bf x = true ->
  possiblyContains std_hash (foldl (insert std_hash) bf xs) x = true.
Proof.
  revert bf. induction xs as [|y xs IH]; intros bf Hp; [done|].
  cbn. apply IH. by apply possiblyContains_insert_mono.
Qed.

Lemma inserted_possiblyContains bf xs x :
  wf bf -> x ∈ xs ->
  possiblyContains std_hash (foldl (insert std_hash) bf xs) x = true.
Proof.
  revert bf. induction xs as [|y xs IH]; intros bf Hwf Hin.
  - by apply elem_of_nil in Hin.
  - cbn. apply elem_of_cons in Hin as [-> | Hin].
    + apply inserts_mono. by apply possiblyContains_insert_same.
    + apply IH; [|done]. by apply insert_wf.
Qed.

End AnyStdHash.

(** C7.  No false negatives: whatever [std::hash] is, for a filter built
    by either constructor and any run of [insert] calls, every inserted
    item is reported as possibly contained. *)
Theorem bloom_no_false_negatives
    (std_hash : string -> Z) (size : N) (num_hashes : Z)
    (out_size : N) (out_num_hashes : positive)
    (items : list string) (x : string) :
  x ∈ items ->
  possiblyContains std_hash
    (foldl (insert std_hash) (new_size_hashes size num_hashes) items) x = true
  /\
  possiblyContains std_hash
    (foldl (insert std_hash) (new_optimal out_size out_num_hashes) items) x
  = true.
Proof.
  intros Hin. split; apply inserted_possiblyContains; auto.
  - apply new_size_hashes_wf.
  - apply new_optimal_wf.
Qed.

Lemma bloom_no_false_negatives_witness :
  "b" ∈ ["a"; "b"; "c"] /\
  (possiblyContains (fun s => Z.of_nat (String.length s))
     (foldl (insert (fun s => Z.of_nat (String.length s)))
            (new_size_hashes 16 3) ["a"; "b"; "c"]) "b" = true
   /\
   possiblyContains (fun s => Z.of_nat (String.length s))
     (foldl (insert (fun s => Z.of_nat (String.length s)))
            (new_optimal 16 3) ["a"; "b"; "c"]) "b" = true).
Proof.
  assert (Hin : "b" ∈ ["a"; "b"; "c"]) by (repeat constructor).
  split; [exact Hin|].
  exact (bloom_no_false_negatives (fun s => Z.of_nat (String.length s))
           16%N 3 16%N 3%positive ["a"; "b"; "c"] "b" Hin).
Defined.

(** A filter queried for an item it never received can answer [false]. *)
Example bloom_negative :
  possiblyContains (fun s => Z.of_nat (String.length s))
    (insert (fun s => Z.of_nat (String.length s)) (new_size_hashes 16 3) "a")
    "zz" = false.
Proof. vm_compute. reflexivity. Qed.

End BloomFilterFacts.

(* ===================================================================== *)
(** * The prefix parser of the reference on the S2 prefixes *)
(* ===================================================================== *)

Module ReferenceFacts.
Import Reference.

Example parse_prefix_10_8 : parse_prefix "10.0.0.0/8" = Some (167772160, 8).
Proof. reflexivity. Qed.

Example covers_10_8 : prefix_covers "10.0.0.0/8" 0x0A020203 = true.
Proof. reflexivity. Qed.

Example not_covers_10_1_16 : prefix_covers "10.1.0.0/16" 0x0A020203 = false.
Proof. reflexivity. Qed.

End ReferenceFacts.

(* ===================================================================== *)
(** * Properties of the rule manager and of the facade *)
(* ===================================================================== *)

Module ClassifierFacts.
Import Classifier ClassifierSpec.

(** ** Sorting functions within the contract of [std::sort] *)

Lemma insert_before_perm cmp x l : insert_before cmp x l ≡ₚ x :: l.
Proof.
  induction l as [|y l IH]; [done|]. simpl. destruct (cmp y x); [|done].
  rewrite IH. apply Permutation_swap.
Qed.

Lemma insert_before_sorted (key : Z -> Z) x l :
  StronglySorted (fun a b => key b <= key a) l ->
  StronglySorted (fun a b => key b <= key a)
                 (insert_before (fun a b => key a >? key b) x l).
Proof.
  induction 1 as [|y l Hs IH Hy]; simpl.
  - repeat constructor.
  - destruct (key y >? key x) eqn:E.
    + constructor; [done|]. rewrite insert_before_perm.
      constructor; [lia | done].
    + constructor; [by constructor|].
      constructor; [lia|]. eapply Forall_impl; [exact Hy|].
      cbn beta. intros; lia.
Qed.

Lemma sort_stable_contract : std_sort_contract sort_stable.
Proof.
  intros key l. unfold sort_stable. induction l as [|x l [IHp IHs]].
  - split; [done | constructor].
  - simpl. split.
    + by rewrite insert_before_perm, IHp.
    + by apply insert_before_sorted.
Qed.

(** ** The guards on [rw_lock_] *)

Lemma WriteLockGuard_new :
  WriteLockGuard ReadWriteLock.new
  = Some (ReadWriteLock.mk 0 0 true (Some this_thread) 1).
Proof. reflexivity. Qed.

(** A guard that is constructed on the free lock and destroyed leaves the
    lock free: between two calls of the rule manager the lock is as it was
    constructed. *)
Lemma guards_leave_lock_free :
  (l ← WriteLockGuard ReadWriteLock.new; WriteLockGuard_release l)
  = Some ReadWriteLock.new /\
  (l ← ReadLockGuard ReadWriteLock.new; ReadLockGuard_release l)
  = Some ReadWriteLock.new.
Proof. split; reflexivity. Qed.

(** While a writer is active, the constructor of a [ReadLockGuard] does
    not return, and neither does [detectConflict]. *)
Lemma ReadLockGuard_blocked l :
  ReadWriteLock.writer_active_ l = true -> ReadLockGuard l = None.
Proof.
  intros H. unfold ReadLockGuard, ReadWriteLock.readLock,
    ReadWriteLock.readLock_ready. by rewrite H.
Qed.

Lemma detectConflict_blocked l rm rule :
  ReadWriteLock.writer_active_ l = true -> detectConflict l rm rule = None.
Proof. intros H. unfold detectConflict. by rewrite ReadLockGuard_blocked. Qed.

(** On the free lock [detectConflict] answers [false]. *)
Lemma detectConflict_free rm rule :
  detectConflict ReadWriteLock.new rm rule = Some false.
Proof. reflexivity. Qed.

(** ** The invariant of the rule manager *)

Lemma StronglySorted_ext {A} (R R' : A -> A -> Prop) l :
  (forall a b, R a b -> R' a b) -> StronglySorted R l -> StronglySorted R' l.
Proof.
  intros HR. induction 1 as [|x l Hs IH Hx]; constructor; [done|].
  eapply Forall_impl; [exact Hx | auto].
Qed.

Lemma keys_ascending_perm rules :
  keys_ascending rules ≡ₚ (map_to_list rules).*1.
Proof. apply merge_sort_Permutation. Qed.

Lemma elem_of_keys (rules : gmap Z ClassificationRule) k :
  k ∈ (map_to_list rules).*1 <-> is_Some (rules !! k).
Proof.
  rewrite list_elem_of_fmap. split.
  - intros ([k' r] & -> & Hin). apply elem_of_map_to_list in Hin. eauto.
  - intros [r Hr]. exists (k, r). split; [done|].
    by apply elem_of_map_to_list.
Qed.

Section RuleManagerInvariant.
Variable std_sort : (Z -> Z -> bool) -> list Z -> list Z.
Hypothesis sort_ok : std_sort_contract std_sort.

Lemma rebuild_perm rules :
  rebuildPriorityCache std_sort rules ≡ₚ (map_to_list rules).*1.
Proof.
  unfold rebuildPriorityCache.
  destruct (sort_ok (priority_of rules) (keys_ascending rules)) as [Hp _].
  etrans; [exact Hp | apply keys_ascending_perm].
Qed.

Lemma rebuild_wf rules :
  ids_ok rules -> RM_wf (mkRM rules (rebuildPriorityCache std_sort rules)).
Proof.
  intros Hids. split; cbn [rules_by_id_ rules_by_priority_cache_].
  - rewrite rebuild_perm. apply NoDup_fst_map_to_list.
  - intros k. rewrite rebuild_perm. apply elem_of_keys.
  - unfold rebuildPriorityCache.
    by destruct (sort_ok (priority_of rules) (keys_ascending rules)) as [_ ?].
  - done.
Qed.

(** [addRule] returns exactly when the id is stored, and then refuses the
    rule; for an id that is not stored it reaches [detectConflict] with
    the write lock held. *)
Lemma RM_addRule_returns rm rule :
  RM_addRule std_sort rm rule
  = if bool_decide (is_Some (rules_by_id_ rm !! rule_id rule))
    then Some (false, rm) else None.
Proof.
  unfold RM_addRule. rewrite WriteLockGuard_new. cbn [mbind option_bind].
  case_bool_decide; [done|]. by rewrite detectConflict_blocked.
Qed.

(** [modifyRule] returns exactly when the id is not stored. *)
Lemma RM_modifyRule_returns rm id new_rule_data :
  RM_modifyRule std_sort rm id new_rule_data
  = match rules_by_id_ rm !! id with
    | Some _ => None
    | None => Some (false, rm)
    end.
Proof.
  unfold RM_modifyRule. rewrite WriteLockGuard_new. cbn [mbind option_bind].
  destruct (rules_by_id_ rm !! id); [|done].
  by rewrite detectConflict_blocked.
Qed.

Lemma RM_addRule_wf rm rule b rm' :
  RM_wf rm -> RM_addRule std_sort rm rule = Some (b, rm') -> RM_wf rm'.
Proof.
  intros Hwf. rewrite RM_addRule_returns. case_bool_decide; [|done].
  by intros [= _ <-].
Qed.

Lemma RM_deleteRule_wf rm id :
  RM_wf rm -> RM_wf (RM_deleteRule std_sort rm id).2.
Proof.
  intros Hwf. unfold RM_deleteRule.
  destruct (rules_by_id_ rm !! id) eqn:Hl; [|done].
  cbn. apply rebuild_wf. intros k r.
  rewrite lookup_delete. case_decide; [done|]. apply (wf_ids _ Hwf).
Qed.

(** Replacing a stored rule by one of the same priority leaves the cache
    valid as it stands. *)
Lemma replace_same_priority_wf rm id old new :
  RM_wf rm ->
  rules_by_id_ rm !! id = Some old ->
  priority new = priority old -> rule_id new = id ->
  RM_wf (mkRM (<[id := new]> (rules_by_id_ rm)) (rules_by_priority_cache_ rm)).
Proof.
  intros Hwf Hold Hprio Hid.
  assert (Hp : forall k, priority_of (<[id := new]> (rules_by_id_ rm)) k
                         = priority_of (rules_by_id_ rm) k).
  { intros k. unfold priority_of. rewrite lookup_insert.
    case_decide as Hk; [|done]. subst k. by rewrite Hold. }
  split; cbn [rules_by_id_ rules_by_priority_cache_].
  - apply (wf_nodup _ Hwf).
  - intros k. rewrite (wf_dom _ Hwf). rewrite lookup_insert.
    case_decide as Hk; [|done]. subst k. rewrite Hold. split; eauto.
  - eapply StronglySorted_ext; [|apply (wf_sorted _ Hwf)].
    cbn beta. intros a b. by rewrite !Hp.
  - intros k r. rewrite lookup_insert. case_decide as Hk.
    + intros [= <-]. congruence.
    + apply (wf_ids _ Hwf).
Qed.

Lemma RM_modifyRule_wf rm id new_rule_data b rm' :
  RM_wf rm ->
  RM_modifyRule std_sort rm id new_rule_data = Some (b, rm') -> RM_wf rm'.
Proof.
  intros Hwf. rewrite RM_modifyRule_returns.
  destruct (rules_by_id_ rm !! id); [done|]. by intros [= _ <-].
Qed.

Lemma incrementRuleMatchCount_wf rm id ts :
  RM_wf rm -> RM_wf (incrementRuleMatchCount rm id ts).2.
Proof.
  intros Hwf. unfold incrementRuleMatchCount.
  destruct (rules_by_id_ rm !! id) as [r|] eqn:Hr; [|done].
  cbn [snd]. eapply replace_same_priority_wf; eauto.
  cbn. by apply (wf_ids _ Hwf).
Qed.

Lemma RM_resetRuleStatistics_wf rm id :
  RM_wf rm -> RM_wf (RM_resetRuleStatistics rm id).2.
Proof.
  intros Hwf. unfold RM_resetRuleStatistics.
  destruct (rules_by_id_ rm !! id) as [r|] eqn:Hr; [|done].
  cbn [snd]. eapply replace_same_priority_wf; eauto.
  cbn. by apply (wf_ids _ Hwf).
Qed.

Lemma resetAllRuleStatistics_wf rm :
  RM_wf rm -> RM_wf (resetAllRuleStatistics rm).2.
Proof.
  intros Hwf. unfold resetAllRuleStatistics. cbn [snd].
  assert (Hp : forall k,
    priority_of ((fun r => set_statistics r 0 0) <$> rules_by_id_ rm) k
    = priority_of (rules_by_id_ rm) k).
  { intros k. unfold priority_of. rewrite lookup_fmap.
    by destruct (rules_by_id_ rm !! k). }
  split; cbn [rules_by_id_ rules_by_priority_cache_].
  - apply (wf_nodup _ Hwf).
  - intros k. rewrite (wf_dom _ Hwf), lookup_fmap.
    by rewrite fmap_is_Some.
  - eapply StronglySorted_ext; [|apply (wf_sorted _ Hwf)].
    cbn beta. intros a b. by rewrite !Hp.
  - intros k r. rewrite lookup_fmap.
    destruct (rules_by_id_ rm !! k) as [r0|] eqn:Hr0; [|done].
    intros [= <-]. cbn. by apply (wf_ids _ Hwf).
Qed.

End RuleManagerInvariant.

Lemma RuleManager_new_wf : RM_wf RuleManager_new.
Proof.
  split; cbn.
  - constructor.
  - intros k. rewrite lookup_empty. split.
    + by intros ?%elem_of_nil.
    + by intros [? ?].
  - constructor.
  - intros k r. by rewrite lookup_empty.
Qed.

(** ** The facade and the rule manager *)

Section FacadeInvariant.
Variable std_hash : string -> Z.
Variable std_sort : (Z -> Z -> bool) -> list Z -> list Z.

Lemma bloom_insert_rm pc s :
  rule_manager_ (bloom_insert std_hash pc s) = rule_manager_ pc.
Proof. unfold bloom_insert. by destruct (bloom_filter_ pc). Qed.

Lemma bloom_insert_rule_rm pc id :
  rule_manager_ (bloom_insert_rule std_hash pc id) = rule_manager_ pc.
Proof.
  unfold bloom_insert_rule. destruct (use_bloom_filter_ pc); [|done].
  destruct (getRule _ _) as [r|]; [|done].
  destruct (enabled r); [apply bloom_insert_rm | done].
Qed.

Lemma update_rm pc id :
  rule_manager_ (updateSpecializedStructuresForRule std_hash pc id).2
  = rule_manager_ pc.
Proof.
  unfold updateSpecializedStructuresForRule.
  destruct (getRule _ _) as [r|]; [|done].
  destruct (_ && _); [apply bloom_insert_rm | done].
Qed.

(** The index update reports failure only for a rule that is not stored. *)
Lemma update_result pc id :
  (updateSpecializedStructuresForRule std_hash pc id).1
  = bool_decide (is_Some (getRule (rule_manager_ pc) id)).
Proof.
  unfold updateSpecializedStructuresForRule.
  destruct (getRule _ _) as [r|] eqn:E.
  - rewrite bool_decide_eq_true_2 by eauto. by destruct (_ && _).
  - rewrite bool_decide_eq_false_2; [done|]. by intros [? ?].
Qed.

Lemma remove_specialized pc id :
  removeRuleFromSpecializedStructures pc id = (true, pc).
Proof.
  unfold removeRuleFromSpecializedStructures. by destruct (getRule _ _).
Qed.

(** [addRule] of the facade returns exactly when the id is stored: it
    reports failure and leaves the classifier as it was. *)
Lemma addRule_returns pc rule :
  addRule std_hash std_sort pc rule
  = if bool_decide (is_Some (rules_by_id_ (rule_manager_ pc) !! rule_id rule))
    then Some (false, pc) else None.
Proof.
  unfold addRule. rewrite RM_addRule_returns. by case_bool_decide.
Qed.

(** [modifyRule] of the facade returns exactly when the id is not stored,
    with failure and the classifier as it was. *)
Lemma modifyRule_returns pc id new_rule_data :
  modifyRule std_hash std_sort pc id new_rule_data
  = match rules_by_id_ (rule_manager_ pc) !! id with
    | Some _ => None
    | None => Some (false, pc)
    end.
Proof.
  unfold modifyRule. rewrite RM_modifyRule_returns.
  by destruct (rules_by_id_ (rule_manager_ pc) !! id).
Qed.

Lemma RM_deleteRule_false rm id :
  (RM_deleteRule std_sort rm id).1 = false ->
  (RM_deleteRule std_sort rm id).2 = rm.
Proof. unfold RM_deleteRule. by destruct (rules_by_id_ rm !! id). Qed.

Lemma deleteRule_rm pc id :
  rule_manager_ (deleteRule std_sort pc id).2
  = (RM_deleteRule std_sort (rule_manager_ pc) id).2.
Proof.
  unfold deleteRule. rewrite remove_specialized.
  destruct (RM_deleteRule std_sort (rule_manager_ pc) id) as [d rm] eqn:E.
  destruct d; cbn [negb snd]; [done|].
  pose proof (RM_deleteRule_false (rule_manager_ pc) id) as H.
  rewrite E in H. symmetry. by apply H.
Qed.

(** The Bloom filter has no say in [classify]. *)
Lemma classify_classify_rules pc header now :
  classify std_hash pc header now = classify_rules pc header now.
Proof.
  unfold classify. destruct (bloom_filter_ pc); [|done]. by destruct (negb _).
Qed.

Lemma classify_rm pc header now :
  rule_manager_ (classify std_hash pc header now).2
  = match first_match (rules_by_id_ (rule_manager_ pc))
            (getRulesByPriority (rule_manager_ pc)) header with
    | Some rule =>
        (incrementRuleMatchCount (rule_manager_ pc) (rule_id rule) now).2
    | None => rule_manager_ pc
    end.
Proof.
  rewrite classify_classify_rules. unfold classify_rules.
  destruct (first_match _ _ _) as [rule|]; [|done].
  by destruct (incrementRuleMatchCount _ _ _).
Qed.

(** ** The invariant along runs *)

Hypothesis sort_ok : std_sort_contract std_sort.

Lemma step_wf pc op o pc' :
  PC_wf pc -> step std_hash std_sort pc op = Some (o, pc') -> PC_wf pc'.
Proof.
  unfold PC_wf. intros Hwf.
  destruct op as [r|id|id r|h now| |id| |id]; cbn [step].
  - rewrite addRule_returns. case_bool_decide; [|done].
    by intros [= _ <-].
  - destruct (deleteRule _ _ _) as [b pc1] eqn:E. intros [= _ <-].
    pose proof (deleteRule_rm pc id) as H. rewrite E in H. cbn in H.
    rewrite H. by apply RM_deleteRule_wf.
  - rewrite modifyRule_returns.
    destruct (rules_by_id_ (rule_manager_ pc) !! id); [done|].
    by intros [= _ <-].
  - destruct (classify _ _ _ _) as [res pc1] eqn:E. intros [= _ <-].
    pose proof (classify_rm pc h now) as H. rewrite E in H. cbn in H.
    rewrite H. destruct (first_match _ _ _); [|done].
    by apply incrementRuleMatchCount_wf.
  - by intros [= _ <-].
  - by intros [= _ <-].
  - intros [= _ <-]. by apply resetAllRuleStatistics_wf.
  - intros [= _ <-]. by apply RM_resetRuleStatistics_wf.
Qed.

(** A run splits at its first call. *)
Lemma run_cons pc op ops pc' :
  run std_hash std_sort pc (op :: ops) = Some pc' <->
  exists o pc1, step std_hash std_sort pc op = Some (o, pc1) /\
                run std_hash std_sort pc1 ops = Some pc'.
Proof.
  cbn [run]. split.
  - intros ([o pc1] & Hs & Hr)%bind_Some. eauto.
  - intros (o & pc1 & Hs & Hr). by rewrite Hs.
Qed.

Lemma run_wf pc ops pc' :
  PC_wf pc -> run std_hash std_sort pc ops = Some pc' -> PC_wf pc'.
Proof.
  revert pc. induction ops as [|op ops IH]; intros pc Hwf.
  - by intros [= <-].
  - intros (o & pc1 & Hs & Hr)%run_cons. eapply IH; [|exact Hr].
    by eapply step_wf.
Qed.

Lemma new_wf enable m k : PC_wf (PacketClassifier_new enable m k).
Proof. apply RuleManager_new_wf. Qed.

End FacadeInvariant.

(** ** Classification is a priority scan on ports and protocol *)

Lemma first_match_Some rules ptrs h r :
  first_match rules ptrs h = Some r ->
  StronglySorted (by_priority rules) ptrs ->
  exists p, p ∈ ptrs /\ rules !! p = Some r /\
    enabled r = true /\ matches (filter r) h = true /\
    forall p' r', p' ∈ ptrs -> rules !! p' = Some r' ->
      enabled r' = true -> matches (filter r') h = true ->
      priority r' <= priority r.
Proof.
  induction ptrs as [|p ptrs IH]; [done|].
  cbn [first_match]. intros Hfm Hs.
  apply StronglySorted_inv in Hs as [Hs Hp].
  assert (Htail : first_match rules ptrs h = Some r ->
    (forall rp, rules !! p = Some rp ->
                enabled rp = true -> matches (filter rp) h = true -> False) ->
    exists p0, p0 ∈ p :: ptrs /\ rules !! p0 = Some r /\
      enabled r = true /\ matches (filter r) h = true /\
      forall p' r', p' ∈ p :: ptrs -> rules !! p' = Some r' ->
        enabled r' = true -> matches (filter r') h = true ->
        priority r' <= priority r).
  { intros Hfm' Hno.
    destruct (IH Hfm' Hs) as (p0 & Hin & Hl & He & Hm & Hmax).
    exists p0. repeat split; try done; [by apply list_elem_of_further|].
    intros p' r' [-> | Hin']%elem_of_cons Hl' He' Hm'.
    - exfalso. by eapply (Hno r').
    - by eapply Hmax. }
  destruct (rules !! p) as [rule|] eqn:Hl.
  2:{ apply (Htail Hfm). done. }
  destruct (enabled rule) eqn:He; cbn [negb] in Hfm.
  2:{ apply (Htail Hfm). intros rp [= <-]. congruence. }
  destruct (matches (filter rule) h) eqn:Hm.
  2:{ apply (Htail Hfm). intros rp [= <-]. congruence. }
  injection Hfm as <-. exists p. repeat split; try done.
  { apply list_elem_of_here. }
  intros p' r' [-> | Hin']%elem_of_cons Hl' He' Hm'.
  - rewrite Hl in Hl'. injection Hl' as <-. lia.
  - rewrite Forall_forall in Hp. specialize (Hp p' Hin').
    unfold by_priority, priority_of in Hp. by rewrite Hl, Hl' in Hp.
Qed.

Lemma first_match_None rules ptrs h :
  first_match rules ptrs h = None ->
  forall p r, p ∈ ptrs -> rules !! p = Some r ->
    enabled r = true -> matches (filter r) h = false.
Proof.
  induction ptrs as [|p0 ptrs IH]; [by intros _ p r ?%elem_of_nil|].
  cbn [first_match]. intros Hfm p r [-> | Hin]%elem_of_cons Hl He.
  - rewrite Hl, He in Hfm. cbn in Hfm.
    by destruct (matches (filter r) h).
  - destruct (rules !! p0) as [rule|]; [|by eapply IH].
    destruct (enabled rule); cbn in Hfm; [|by eapply IH].
    destruct (matches (filter rule) h); [done | by eapply IH].
Qed.

Lemma classify_highest_priority std_hash pc h now :
  PC_wf pc ->
  highest_priority_match (rules_by_id_ (rule_manager_ pc)) h
    (classify std_hash pc h now).1.
Proof.
  intros Hwf. rewrite classify_classify_rules. unfold classify_rules.
  unfold getRulesByPriority.
  destruct (first_match _ _ _) as [rule|] eqn:Hfm.
  - destruct (incrementRuleMatchCount _ _ _) as [b rm']. cbn.
    apply first_match_Some in Hfm as (p & Hin & Hl & He & Hm & Hmax);
      [|apply (wf_sorted _ Hwf)].
    pose proof (wf_ids _ Hwf p rule Hl) as Hid.
    exists rule. rewrite Hid. repeat split; eauto.
    intros r' ((k & Hk) & He' & Hm'). eapply (Hmax k); eauto.
    apply (wf_dom _ Hwf). eauto.
  - cbn. split; [done|]. intros r' ((k & Hk) & He' & Hm').
    assert (Hin : k ∈ rules_by_priority_cache_ (rule_manager_ pc))
      by (apply (wf_dom _ Hwf); eauto).
    rewrite (first_match_None _ _ _ Hfm k r' Hin Hk He') in Hm'. done.
Qed.

(** ** Scenario S2 *)

Lemma S2_store_wf : RM_wf S2_store.
Proof.
  split; cbn [S2_store rules_by_id_ rules_by_priority_cache_].
  - apply (bool_decide_unpack _). by vm_compute.
  - intros k. rewrite !elem_of_cons, elem_of_nil.
    rewrite lookup_insert_is_Some, lookup_insert_is_Some, lookup_empty.
    split.
    + intros [-> | [-> | []]]; [by left | right; split; [done | by left]].
    + intros [<- | [_ [<- | [_ [? ?]]]]]; [by left | right; by left | done].
  - repeat constructor; unfold priority_of; vm_compute; congruence.
  - intros k r. rewrite lookup_insert. case_decide as H2.
    + by intros [= <-].
    + rewrite lookup_insert. case_decide as H1; [by intros [= <-] | done].
Qed.




(** ** The priority view *)

Lemma RM_wf_view_is_store rm : RM_wf rm -> view_is_store rm.
Proof.
  intros Hwf. apply NoDup_Permutation.
  - apply (wf_nodup _ Hwf).
  - apply NoDup_fst_map_to_list.
  - intros k. unfold getRulesByPriority.
    by rewrite (wf_dom _ Hwf), elem_of_keys.
Qed.

(** The store of [n] rules of one priority, viewed by ascending id, is
    in the invariant. *)
Lemma fst_tagged {A} (f : Z -> A) (l : list Z) :
  ((fun i => (i, f i)) <$> l).*1 = l.
Proof. induction l as [|x l IH]; [done|]. cbn. by rewrite IH. Qed.

Lemma equal_store_lookup n prio k :
  rules_by_id_ (equal_store n prio) !! k
  = if bool_decide (1 <= k < 1 + n) then Some (equal_priority k prio)
    else None.
Proof.
  cbn [equal_store rules_by_id_]. case_bool_decide as Hk.
  - apply elem_of_list_to_map_1.
    + rewrite fst_tagged. apply NoDup_seqZ.
    + apply list_elem_of_fmap. exists k. split; [done|].
      apply elem_of_seqZ. lia.
  - apply not_elem_of_list_to_map_1. rewrite fst_tagged, elem_of_seqZ. lia.
Qed.

Lemma equal_store_wf n prio enable :
  PC_wf (holding enable (equal_store n prio)).
Proof.
  unfold PC_wf. cbn [holding set_rule_manager rule_manager_].
  split.
  - cbn. apply NoDup_seqZ.
  - intros k. cbn [rules_by_priority_cache_ equal_store].
    rewrite elem_of_seqZ.
    change (list_to_map _) with (rules_by_id_ (equal_store n prio)).
    rewrite equal_store_lookup. case_bool_decide; split; try done; try lia.
  - assert (Hp : forall k, k ∈ seqZ 1 n ->
              priority_of (rules_by_id_ (equal_store n prio)) k = prio).
    { intros k Hk%elem_of_seqZ. unfold priority_of.
      rewrite equal_store_lookup. by rewrite bool_decide_eq_true_2 by lia. }
    cbn [rules_by_priority_cache_ equal_store] in *.
    revert Hp. generalize (seqZ 1 n). intros l Hp.
    induction l as [|x l IH]; constructor.
    + apply IH. intros k Hk. apply Hp. by apply list_elem_of_further.
    + apply Forall_forall. intros y Hy.
      rewrite (Hp x), (Hp y);
        [lia | by apply list_elem_of_further | apply list_elem_of_here].
  - intros k r. rewrite equal_store_lookup. case_bool_decide; [|done].
    by intros [= <-].
Qed.




(** The sort of the GNU library on twenty pointers whose priorities are
    distinct, given by ascending priority: it returns them by descending
    priority. *)
Example gnu_sort_distinct :
  GnuSort.sort (fun a b => a >? b) (seqZ 1 20) = Some (reverse (seqZ 1 20)).
Proof. by vm_compute. Qed.

(** With up to sixteen rules the sort of the GNU library is an insertion
    sort, which keeps rules of one priority in the ascending id order of
    the map. *)
Example view_ties_sixteen :
  getRulesByPriority
    (rule_manager_ (deleteRule GnuSort.std_sort
                      (holding false (equal_store 17 5)) 17).2)
  = seqZ 1 16.
Proof. by vm_compute. Qed.

(** ** Results of the mutations *)

Section Results.
Variable std_hash : string -> Z.
Variable std_sort : (Z -> Z -> bool) -> list Z -> list Z.

Lemma deleteRule_result pc id :
  (deleteRule std_sort pc id).1
  = bool_decide (is_Some (rules_by_id_ (rule_manager_ pc) !! id)).
Proof.
  unfold deleteRule. rewrite remove_specialized. unfold RM_deleteRule.
  destruct (rules_by_id_ (rule_manager_ pc) !! id) eqn:E.
  - by rewrite bool_decide_eq_true_2 by eauto.
  - by rewrite bool_decide_eq_false_2 by (by intros [? ?]).
Qed.

(** A mutation that fails returns the state it was given. *)
Lemma addRule_false pc rule pc' :
  addRule std_hash std_sort pc rule = Some (false, pc') -> pc' = pc.
Proof.
  rewrite addRule_returns. case_bool_decide; [|done]. by intros [= <-].
Qed.

Lemma deleteRule_false pc id :
  (deleteRule std_sort pc id).1 = false -> (deleteRule std_sort pc id).2 = pc.
Proof.
  rewrite deleteRule_result. intros H%bool_decide_eq_false.
  unfold deleteRule. rewrite remove_specialized. unfold RM_deleteRule.
  destruct (rules_by_id_ (rule_manager_ pc) !! id) eqn:E; [|done].
  exfalso. apply H. eauto.
Qed.

Lemma modifyRule_false pc id new_rule_data pc' :
  modifyRule std_hash std_sort pc id new_rule_data = Some (false, pc') ->
  pc' = pc.
Proof.
  rewrite modifyRule_returns.
  destruct (rules_by_id_ (rule_manager_ pc) !! id); [done|].
  by intros [= <-].
Qed.

(** [classify] reads the rule manager and nothing else. *)
Lemma classify_depends_on_rm pc pc' h now :
  rule_manager_ pc = rule_manager_ pc' ->
  (classify std_hash pc h now).1 = (classify std_hash pc' h now).1 /\
  rule_manager_ (classify std_hash pc h now).2
  = rule_manager_ (classify std_hash pc' h now).2.
Proof.
  intros Hrm. rewrite !classify_classify_rules. unfold classify_rules.
  rewrite Hrm. destruct (first_match _ _ _) as [rule|]; [|done].
  by destruct (incrementRuleMatchCount _ _ _).
Qed.

(** Two classifiers with the same rule manager take every step alike. *)
Lemma step_depends_on_rm pc pc' op :
  rule_manager_ pc = rule_manager_ pc' ->
  alike (step std_hash std_sort pc op) (step std_hash std_sort pc' op).
Proof.
  intros Hrm. destruct op as [r|id|id r|h now| |id| |id]; cbn [step].
  - rewrite !addRule_returns, Hrm. by case_bool_decide.
  - pose proof (deleteRule_result pc id) as H1.
    pose proof (deleteRule_result pc' id) as H2.
    pose proof (deleteRule_rm std_sort pc id) as H3.
    pose proof (deleteRule_rm std_sort pc' id) as H4.
    destruct (deleteRule _ pc id), (deleteRule _ pc' id). cbn in *.
    rewrite H1, H2, H3, H4, Hrm. done.
  - rewrite !modifyRule_returns, Hrm.
    by destruct (rules_by_id_ (rule_manager_ pc') !! id).
  - destruct (classify_depends_on_rm pc pc' h now Hrm) as [H1 H2].
    destruct (classify _ pc h now), (classify _ pc' h now). cbn in *.
    by rewrite H1, H2.
  - cbn. unfold getStatistics. by rewrite Hrm.
  - cbn. unfold getRuleStatistics. by rewrite Hrm.
  - cbn. by rewrite Hrm.
  - cbn. by rewrite Hrm.
Qed.

Lemma outputs_depend_on_rm pc pc' ops :
  rule_manager_ pc = rule_manager_ pc' ->
  outputs std_hash std_sort pc ops = outputs std_hash std_sort pc' ops.
Proof.
  revert pc pc'. induction ops as [|op ops IH]; intros pc pc' Hrm; [done|].
  cbn [outputs].
  pose proof (step_depends_on_rm pc pc' op Hrm) as H.
  destruct (step _ _ pc op) as [[o q]|], (step _ _ pc' op) as [[o' q']|];
    cbn in H; try done.
  destruct H as [-> H]. f_equal. by apply IH.
Qed.

End Results.

(** C8.  The Bloom pre-filter never decides a classification.  In any
    state, replacing the Bloom filter by any other filter, or by none,
    changes neither the result of [classify] nor the rule manager it
    leaves; and along any run of the interface every output is the same
    whether the classifier was built with the pre-filter or without it,
    whatever the filter's dimensions, and the same from any state whatever
    Bloom filter is put in it. *)
Theorem bloom_never_decides
    (std_hash : string -> Z)
    (std_sort : (Z -> Z -> bool) -> list Z -> list Z) :
  (forall pc bf h now,
     (classify std_hash (set_bloom_filter pc bf) h now).1
     = (classify std_hash pc h now).1 /\
     rule_manager_ (classify std_hash (set_bloom_filter pc bf) h now).2
     = rule_manager_ (classify std_hash pc h now).2) /\
  (forall enable m k enable' m' k' ops,
     outputs std_hash std_sort (PacketClassifier_new enable m k) ops
     = outputs std_hash std_sort (PacketClassifier_new enable' m' k') ops) /\
  (forall pc bf ops,
     outputs std_hash std_sort (set_bloom_filter pc bf) ops
     = outputs std_hash std_sort pc ops).
Proof.
  split; [|split].
  - intros pc bf h now. by apply classify_depends_on_rm.
  - intros. by apply outputs_depend_on_rm.
  - intros. by apply outputs_depend_on_rm.
Qed.

(** A state in which the pre-filter answers "definitely not" and the
    packet is classified all the same. *)
Example bloom_negative_still_matches :
  let pc := holding true (mkRM {[1 := ruleA]} [1]) in
  (b ← bloom_filter_ pc;
   Some (BloomFilter.possiblyContains length_hash b
           (PacketHeader_toString (packet_S2 0 0 0 0))))
  = Some false /\
  (classify length_hash pc (packet_S2 0 0 0 0) 0).1
  = mkResult true 1 (actions ruleA).
Proof. vm_compute. done. Qed.

(** ** Failure of a mutation *)

(** C4.  A mutation of the facade that reports failure returns the
    classifier (rule store, view, indexes, Bloom filter) exactly as it
    received it.  This covers a failure of the index update as well:
    [updateSpecializedStructuresForRule] reports failure only for an id
    that the rule manager does not store, so it does not fail after the
    store has taken the rule, and no failure is returned with a changed
    store. *)
Theorem failed_mutation_leaves_state
    (std_hash : string -> Z)
    (std_sort : (Z -> Z -> bool) -> list Z -> list Z)
    (pc : PacketClassifier) :
  (forall rule pc',
     addRule std_hash std_sort pc rule = Some (false, pc') -> pc' = pc) /\
  (forall id,
     (deleteRule std_sort pc id).1 = false ->
     (deleteRule std_sort pc id).2 = pc) /\
  (forall id new_rule_data pc',
     modifyRule std_hash std_sort pc id new_rule_data = Some (false, pc') ->
     pc' = pc) /\
  (forall id,
     (updateSpecializedStructuresForRule std_hash pc id).1 = false <->
     getRule (rule_manager_ pc) id = None).
Proof.
  split; [|split; [|split]].
  - intros rule pc'. apply addRule_false.
  - intros id. apply deleteRule_false.
  - intros id r pc'. apply modifyRule_false.
  - intros id. rewrite update_result. rewrite bool_decide_eq_false.
    rewrite <- eq_None_not_Some. done.
Qed.

Lemma failed_mutation_leaves_state_witness :
  let pc := holding true S2_store in
  let pc' := default (PacketClassifier_new false 0 1)
               (snd <$> addRule length_hash sort_stable pc ruleA) in
  addRule length_hash sort_stable pc ruleA = Some (false, pc') /\
  pc' = pc /\
  (deleteRule sort_stable pc 5).1 = false /\
  (deleteRule sort_stable pc 5).2 = pc.
Proof.
  intros pc pc'.
  assert (H : addRule length_hash sort_stable pc ruleA = Some (false, pc'))
    by (vm_compute; reflexivity).
  assert (Hd : (deleteRule sort_stable pc 5).1 = false)
    by (vm_compute; reflexivity).
  split; [exact H|].
  pose proof (failed_mutation_leaves_state length_hash sort_stable pc) as T.
  exact (conj (proj1 T ruleA pc' H) (conj Hd (proj1 (proj2 T) 5 Hd))).
Defined.

(** ** Inverted port ranges *)

(** C5 (counterexample).  Rule 9 carries the destination port range
    [443, 80].  On the new classifier [addRule] does not return failure
    for it: no rule is stored under 9, the call goes on to
    [detectConflict], and it does not return. *)
Lemma addRule_inverted_range_not_refused :
  let pc := PacketClassifier_new false 0 1 in
  dest_port_low (filter inverted_rule) > dest_port_high (filter inverted_rule)
  /\ addRule length_hash sort_stable pc inverted_rule = None
  /\ ~ exists pc', addRule length_hash sort_stable pc inverted_rule
                   = Some (false, pc').
Proof.
  cbn zeta. split; [by vm_compute|]. split; [by vm_compute|].
  intros [pc' H]. by vm_compute in H.
Qed.

(** C5 (amended).  [addRule] does not look at port ranges.  For a rule
    with a range [lo, hi], [lo > hi], it returns failure exactly when the
    id of the rule is already stored, and the classifier is then as it
    was; what the call returns is the same for every other filter put in
    the rule.  A range with [lo > hi] is turned away only by
    [IntervalTree::insert], which leaves the tree as it is and which
    [addRule] does not call. *)
Theorem inverted_range_not_rejected
    (std_hash : string -> Z)
    (std_sort : (Z -> Z -> bool) -> list Z -> list Z)
    (pc : PacketClassifier) (rule : ClassificationRule) :
  inverted_range (filter rule) ->
  (forall pc',
     addRule std_hash std_sort pc rule = Some (false, pc') <->
     is_Some (rules_by_id_ (rule_manager_ pc) !! rule_id rule) /\ pc' = pc) /\
  (forall f,
     fst <$> addRule std_hash std_sort pc (set_filter rule f)
     = fst <$> addRule std_hash std_sort pc rule) /\
  forall root lo hi id,
    lo > hi -> IntervalTree.insert root lo hi id = Some root.
Proof.
  intros _. split; [|split].
  - intros pc'. rewrite addRule_returns. case_bool_decide as Hs.
    + split; [by intros [= <-] | by intros [_ ->]].
    + split; [done | by intros [? _]].
  - intros f. by rewrite !addRule_returns.
  - intros root lo hi id Hlt. unfold IntervalTree.insert.
    by replace (lo >? hi) with true by lia.
Qed.

Lemma inverted_range_not_rejected_witness :
  let pc := holding false (equal_store 9 5) in
  inverted_range (filter inverted_rule) /\
  addRule length_hash sort_stable pc inverted_rule = Some (false, pc) /\
  fst <$> addRule length_hash sort_stable pc
            (set_filter inverted_rule any_filter)
  = fst <$> addRule length_hash sort_stable pc inverted_rule.
Proof.
  intros pc.
  assert (H1 : inverted_range (filter inverted_rule)) by (right; cbn; lia).
  assert (H2 : is_Some (rules_by_id_ (rule_manager_ pc)
                          !! rule_id inverted_rule)).
  { change (is_Some (rules_by_id_ (equal_store 9 5) !! 9)).
    rewrite equal_store_lookup, bool_decide_eq_true_2 by lia. eauto. }
  split; [exact H1|].
  pose proof (inverted_range_not_rejected length_hash sort_stable pc
                inverted_rule H1) as T.
  exact (conj (proj2 (proj1 T pc) (conj H2 eq_refl))
              (proj1 (proj2 T) any_filter)).
Defined.

Lemma matches_inverted_range f h : inverted_range f -> matches f h = false.
Proof.
  intros [H | H]; unfold matches.
  - destruct (_ && _); [done|].
    replace (negb (source_port_low f =? 0) || negb (source_port_high f =? 0))
      with true by lia.
    by replace ((source_port h <? source_port_low f)
                || (source_port h >? source_port_high f)) with true by lia.
  - destruct (_ && _); [done|]. destruct (_ && _); [done|].
    replace (negb (dest_port_low f =? 0) || negb (dest_port_high f =? 0))
      with true by lia.
    by replace ((dest_port h <? dest_port_low f)
                || (dest_port h >? dest_port_high f)) with true by lia.
Qed.

Lemma first_match_stored rules ptrs h r :
  first_match rules ptrs h = Some r ->
  exists p, rules !! p = Some r /\ matches (filter r) h = true.
Proof.
  induction ptrs as [|p ptrs IH]; [done|]. cbn [first_match].
  destruct (rules !! p) as [rule|] eqn:Hl; [|done].
  destruct (enabled rule); cbn [negb]; [|done].
  destruct (matches (filter rule) h) eqn:Hm; [|done].
  intros [= <-]. eauto.
Qed.

(** While a rule with an inverted range is stored under an id, [classify]
    does not return that id. *)
Lemma inverted_range_never_returned std_hash pc id r h now :
  ids_ok (rules_by_id_ (rule_manager_ pc)) ->
  rules_by_id_ (rule_manager_ pc) !! id = Some r ->
  inverted_range (filter r) ->
  ~ (matched (classify std_hash pc h now).1 = true /\
     matched_rule_id (classify std_hash pc h now).1 = id).
Proof.
  intros Hids Hl Hinv. rewrite classify_classify_rules. unfold classify_rules.
  destruct (first_match _ _ _) as [rule|] eqn:Hfm.
  - destruct (incrementRuleMatchCount _ _ _). cbn. intros [_ Hid].
    apply first_match_stored in Hfm as (p & Hp & Hm).
    pose proof (Hids p rule Hp) as Hrid.
    assert (p = id) by congruence. subst p.
    assert (rule = r) by congruence. subst rule.
    by rewrite matches_inverted_range in Hm.
  - cbn. by intros [? _].
Qed.

(** C9 (evaluation at the failing input).  Rule 9 has the destination
    port range [443, 80] and its id is not stored in the new classifier.
    [addRule] does not return [true] for it: the rule manager holds the
    write lock on [rw_lock_] when [detectConflict] asks for the read lock
    on it, and the call does not return.  The rest of the statement holds:
    the filter of rule 9 matches no header, and in a state that stores the
    rule [classify] does not answer with its id. *)
Theorem inverted_range_accepted_never_matches :
  let pc := PacketClassifier_new false 0 1 in
  inverted_range (filter inverted_rule) /\
  getRule (rule_manager_ pc) (rule_id inverted_rule) = None /\
  RM_addRule GnuSort.std_sort (rule_manager_ pc) inverted_rule = None /\
  addRule length_hash GnuSort.std_sort pc inverted_rule = None /\
  (forall h, matches (filter inverted_rule) h = false) /\
  (forall h now,
     let res := (classify length_hash
                   (holding false (mkRM {[9 := inverted_rule]} [9])) h now).1
     in ~ (matched res = true /\ matched_rule_id res = 9)).
Proof.
  assert (Hinv : inverted_range (filter inverted_rule)) by (right; cbn; lia).
  cbn zeta. split; [exact Hinv|].
  split; [reflexivity|]. split; [by vm_compute|]. split; [by vm_compute|].
  split.
  - intros h. by apply matches_inverted_range.
  - intros h now.
    apply (inverted_range_never_returned length_hash _ 9 inverted_rule);
      [|by vm_compute|exact Hinv].
    intros k r. cbn. rewrite lookup_singleton_Some. by intros [<- <-].
Qed.

(** ** Statistics *)

(** [deleteRule] leaves every surviving rule as it is, and [classify]
    leaves a rule's count or adds one to it (modulo 2^64). *)
Lemma deleteRule_keeps_rules std_sort pc id' id r :
  id <> id' ->
  getRule (rule_manager_ pc) id = Some r ->
  getRule (rule_manager_ (deleteRule std_sort pc id').2) id = Some r.
Proof.
  unfold getRule. intros Hne Hr. rewrite deleteRule_rm. unfold RM_deleteRule.
  destruct (rules_by_id_ (rule_manager_ pc) !! id'); [|done].
  cbn. by rewrite lookup_delete_ne.
Qed.

Lemma deleteRule_survivor std_sort pc id' id r r' :
  getRule (rule_manager_ pc) id = Some r ->
  getRule (rule_manager_ (deleteRule std_sort pc id').2) id = Some r' ->
  r' = r.
Proof.
  intros Hr Hr'. destruct (decide (id = id')) as [->|Hne].
  - revert Hr'. unfold getRule in *. rewrite deleteRule_rm.
    unfold RM_deleteRule. rewrite Hr. cbn. by rewrite lookup_delete_eq.
  - rewrite (deleteRule_keeps_rules std_sort pc id' id r Hne Hr) in Hr'.
    congruence.
Qed.

Lemma classify_match_count std_hash pc h now id r :
  getRule (rule_manager_ pc) id = Some r ->
  exists r',
    getRule (rule_manager_ (classify std_hash pc h now).2) id = Some r' /\
    (match_count r' = match_count r \/
     match_count r' = wrap64 (match_count r + 1)).
Proof.
  unfold getRule. intros Hr. rewrite classify_rm.
  destruct (first_match _ _ _) as [rule|]; [|eauto].
  unfold incrementRuleMatchCount.
  destruct (rules_by_id_ (rule_manager_ pc) !! rule_id rule) as [r0|] eqn:E;
    [|eauto].
  cbn [snd rules_by_id_]. rewrite lookup_insert. case_decide as Hk.
  - subst id. assert (r0 = r) by congruence. subst r0. eauto.
  - eauto.
Qed.




End ClassifierFacts.

(* ===================================================================== *)
(** * More on the facade: batches, statistics, round trips *)
(* ===================================================================== *)

Module ClassifierExtra.
Import Classifier ClassifierSpec ClassifierFacts.

Section Matching.
Variable std_hash : string -> Z.
Variable std_sort : (Z -> Z -> bool) -> list Z -> list Z.

Lemma same_matching_refl rm : same_matching rm rm.
Proof. by split. Qed.

Lemma same_matching_trans rm1 rm2 rm3 :
  same_matching rm1 rm2 -> same_matching rm2 rm3 -> same_matching rm1 rm3.
Proof.
  intros [Hc1 Hr1] [Hc2 Hr2]. split; [congruence|].
  intros k. by rewrite Hr1, Hr2.
Qed.

Lemma set_statistics_same_matching rm id r c t :
  rules_by_id_ rm !! id = Some r ->
  same_matching rm
    (mkRM (<[id := set_statistics r c t]> (rules_by_id_ rm))
          (rules_by_priority_cache_ rm)).
Proof.
  intros Hr. split; [done|]. intros k. cbn [rules_by_id_].
  rewrite lookup_insert. case_decide as Hk; [|done]. subst k.
  by rewrite Hr.
Qed.

Lemma increment_same_matching rm id ts :
  same_matching rm (incrementRuleMatchCount rm id ts).2.
Proof.
  unfold incrementRuleMatchCount.
  destruct (rules_by_id_ rm !! id) as [r|] eqn:Hr;
    [by apply set_statistics_same_matching | apply same_matching_refl].
Qed.

Lemma first_match_same_matching rules rules' ptrs h :
  (forall k, matching_part <$> (rules !! k) = matching_part <$> (rules' !! k)) ->
  matching_part <$> first_match rules ptrs h
  = matching_part <$> first_match rules' ptrs h.
Proof.
  intros Hsame. induction ptrs as [|p ptrs IH]; [done|].
  cbn [first_match]. specialize (Hsame p).
  destruct (rules !! p) as [r|], (rules' !! p) as [r'|]; try done.
  cbn in Hsame. injection Hsame as Hid Hpr Hf Ha He.
  rewrite He, Hf. destruct (enabled r') eqn:He'; cbn [negb]; [|done].
  destruct (matches (filter r') h); [|done].
  cbn. unfold matching_part. congruence.
Qed.

(** The result of [classify] does not depend on the statistics. *)
Lemma classify_same_matching pc pc' h now now' :
  same_matching (rule_manager_ pc) (rule_manager_ pc') ->
  (classify std_hash pc h now).1 = (classify std_hash pc' h now').1.
Proof.
  intros [Hc Hr]. rewrite !classify_classify_rules. unfold classify_rules.
  unfold getRulesByPriority. rewrite <- Hc.
  pose proof (first_match_same_matching _ _
                (rules_by_priority_cache_ (rule_manager_ pc)) h Hr) as Hfm.
  destruct (first_match (rules_by_id_ (rule_manager_ pc)) _ h) as [r|],
           (first_match (rules_by_id_ (rule_manager_ pc')) _ h) as [r'|];
    try done.
  cbn in Hfm. injection Hfm as Hid Hpr Hf Ha He.
  do 2 destruct (incrementRuleMatchCount _ _ _). cbn. congruence.
Qed.

Lemma classify_keeps_matching pc h now :
  same_matching (rule_manager_ pc)
                (rule_manager_ (classify std_hash pc h now).2).
Proof.
  rewrite classify_rm. destruct (first_match _ _ _);
    [apply increment_same_matching | apply same_matching_refl].
Qed.

Lemma classifyBatch_spec pc pc0 headers :
  same_matching (rule_manager_ pc0) (rule_manager_ pc) ->
  (classifyBatch std_hash pc headers).1
  = (fun hn => (classify std_hash pc0 hn.1 hn.2).1) <$> headers
  /\ same_matching (rule_manager_ pc0)
                    (rule_manager_ (classifyBatch std_hash pc headers).2).
Proof.
  revert pc. induction headers as [|[h now] headers IH]; intros pc Hsame.
  - done.
  - cbn [classifyBatch fmap list_fmap].
    pose proof (classify_same_matching pc0 pc h now now Hsame) as Hres.
    pose proof (classify_keeps_matching pc h now) as Hkeep.
    destruct (classify std_hash pc h now) as [r pc1]. cbn [fst snd] in *.
    destruct (IH pc1 (same_matching_trans _ _ _ Hsame Hkeep)) as [IH1 IH2].
    destruct (classifyBatch std_hash pc1 headers) as [rs pc2].
    cbn [fst snd] in *. split; [|done]. by rewrite Hres, IH1.
Qed.

End Matching.

(** X1.  [classifyBatch] returns one result per header, in order, and
    each is the result [classify] gives for that header on the classifier
    as it was before the batch: the statistics the earlier
    classifications of the batch update do not influence the later
    ones. *)
Theorem classifyBatch_pointwise (std_hash : string -> Z)
    (pc : PacketClassifier) (headers : list (PacketHeader * Z)) :
  (classifyBatch std_hash pc headers).1
  = (fun hn => (classify std_hash pc hn.1 hn.2).1) <$> headers
  /\ length (classifyBatch std_hash pc headers).1 = length headers.
Proof.
  destruct (classifyBatch_spec std_hash pc pc headers
              (same_matching_refl _)) as [H _].
  split; [done|]. by rewrite H, length_fmap.
Qed.

(** ** Statistics *)

Section Statistics.
Variable std_hash : string -> Z.
Variable std_sort : (Z -> Z -> bool) -> list Z -> list Z.

Lemma resetAll_same_matching rm :
  same_matching rm (resetAllRuleStatistics rm).2.
Proof.
  split; [done|]. intros k. cbn. rewrite lookup_fmap.
  by destruct (rules_by_id_ rm !! k).
Qed.

Lemma resetRule_same_matching rm id :
  same_matching rm (RM_resetRuleStatistics rm id).2.
Proof.
  unfold RM_resetRuleStatistics.
  destruct (rules_by_id_ rm !! id) as [r|] eqn:Hr;
    [by apply set_statistics_same_matching | apply same_matching_refl].
Qed.

End Statistics.

(** X2.  In a store that keeps each rule under its own id, a
    classification that matches adds one (modulo 2^64) to the count of
    the rule it returns, stamps it with the clock reading and leaves
    every other rule untouched; a classification that does not match
    changes nothing at all. *)
Theorem classify_updates_matched_rule_only (std_hash : string -> Z)
    (pc : PacketClassifier) (h : PacketHeader) (now : Z) :
  ids_ok (rules_by_id_ (rule_manager_ pc)) ->
  let res := (classify std_hash pc h now).1 in
  let pc' := (classify std_hash pc h now).2 in
  (matched res = true ->
   getRuleStatistics pc' (matched_rule_id res)
   = wrap64 (getRuleStatistics pc (matched_rule_id res) + 1) /\
   (last_match_time <$> getRule (rule_manager_ pc') (matched_rule_id res))
   = Some now /\
   forall id, id <> matched_rule_id res ->
     getRule (rule_manager_ pc') id = getRule (rule_manager_ pc) id) /\
  (matched res = false -> pc' = pc).
Proof.
  intros Hids. cbn zeta. rewrite classify_classify_rules.
  unfold classify_rules, getRulesByPriority.
  destruct (first_match _ _ _) as [rule|] eqn:Hfm.
  - apply first_match_stored in Hfm as (p & Hp & _).
    pose proof (Hids p rule Hp) as Hid. subst p.
    unfold incrementRuleMatchCount. rewrite Hp. cbn.
    split; [|done]. intros _.
    unfold getRuleStatistics, getRule. cbn.
    rewrite lookup_insert_eq, Hp. cbn. repeat split.
    intros id Hne. by rewrite lookup_insert_ne.
  - cbn. split; [done|]. by destruct pc.
Qed.

Lemma classify_updates_matched_rule_only_witness :
  let pc := holding true (web_store 41) in
  ids_ok (rules_by_id_ (rule_manager_ pc)) /\
  matched (classify length_hash pc web_packet 1000).1 = true /\
  getRuleStatistics (classify length_hash pc web_packet 1000).2 7
  = wrap64 (getRuleStatistics pc 7 + 1).
Proof.
  intros pc.
  assert (Hids : ids_ok (rules_by_id_ (rule_manager_ pc))).
  { intros k r. cbn. rewrite lookup_singleton_Some. by intros [<- <-]. }
  assert (Hm : matched (classify length_hash pc web_packet 1000).1 = true)
    by (by vm_compute).
  split; [exact Hids|]. split; [exact Hm|].
  exact (proj1 (proj1 (classify_updates_matched_rule_only length_hash pc
                         web_packet 1000 Hids) Hm)).
Defined.

(** X3.  [resetStatistics] sets the count of every stored rule to 0 and
    keeps the set of ids; [resetRuleStatistics(id)] sets the count of
    [id] to 0 (and is a no-op on the counts when [id] is not stored) and
    keeps every other count.  Neither changes the result of any later
    classification. *)
Theorem reset_statistics_zeroes_counts (std_hash : string -> Z)
    (pc : PacketClassifier) :
  getStatistics (resetStatistics pc) = (fun _ => 0) <$> getStatistics pc /\
  (forall id, getRuleStatistics (resetRuleStatistics pc id) id = 0) /\
  (forall id id', id' <> id ->
     getRuleStatistics (resetRuleStatistics pc id) id'
     = getRuleStatistics pc id') /\
  (forall id h now,
     (classify std_hash (resetStatistics pc) h now).1
     = (classify std_hash pc h now).1 /\
     (classify std_hash (resetRuleStatistics pc id) h now).1
     = (classify std_hash pc h now).1).
Proof.
  split; [|split; [|split]].
  - unfold getStatistics, resetStatistics. cbn.
    rewrite <- !map_fmap_compose. by apply map_fmap_ext.
  - intros id. unfold getRuleStatistics, resetRuleStatistics, getRule,
      RM_resetRuleStatistics. cbn.
    destruct (rules_by_id_ (rule_manager_ pc) !! id) as [r|] eqn:Hr; cbn.
    + by rewrite lookup_insert_eq.
    + by rewrite Hr.
  - intros id id' Hne. unfold getRuleStatistics, resetRuleStatistics,
      getRule, RM_resetRuleStatistics. cbn.
    destruct (rules_by_id_ (rule_manager_ pc) !! id) as [r|] eqn:Hr; cbn;
      [|done].
    by rewrite lookup_insert_ne.
  - intros id h now. split; symmetry; apply classify_same_matching.
    + apply resetAll_same_matching.
    + apply resetRule_same_matching.
Qed.

(** ** Round trips and what the mutations keep *)

(** X4.  [addRule] returns only to report failure.  When the id of the
    rule is already stored it returns [false] and the classifier is as it
    was.  When the id is not stored the call does not return:
    [RuleManager::addRule] holds the [WriteLockGuard] on [rw_lock_] when
    [detectConflict] constructs a [ReadLockGuard] on the same lock, whose
    wait for [!writer_active_] does not end.  So no call of [addRule]
    stores a rule. *)
Theorem addRule_returns_only_failure
    (std_hash : string -> Z)
    (std_sort : (Z -> Z -> bool) -> list Z -> list Z)
    (pc : PacketClassifier) (rule : ClassificationRule) :
  (is_Some (getRule (rule_manager_ pc) (rule_id rule)) ->
   addRule std_hash std_sort pc rule = Some (false, pc)) /\
  (getRule (rule_manager_ pc) (rule_id rule) = None ->
   RM_addRule std_sort (rule_manager_ pc) rule = None /\
   addRule std_hash std_sort pc rule = None) /\
  (forall b pc',
     addRule std_hash std_sort pc rule = Some (b, pc') ->
     b = false /\ pc' = pc).
Proof.
  unfold getRule. rewrite addRule_returns, RM_addRule_returns.
  split; [|split].
  - intros Hs. by rewrite bool_decide_eq_true_2.
  - intros Hn. rewrite bool_decide_eq_false_2; [done|].
    rewrite Hn. by intros [? ?].
  - intros b pc'. case_bool_decide; [|done]. by intros [= <- <-].
Qed.

Lemma addRule_returns_only_failure_witness :
  (getRule (rule_manager_ (PacketClassifier_new true 64 3)) (rule_id ruleA)
   = None /\
   addRule length_hash GnuSort.std_sort (PacketClassifier_new true 64 3) ruleA
   = None) /\
  (is_Some (getRule (rule_manager_ (holding true S2_store)) (rule_id ruleA))
   /\
   addRule length_hash GnuSort.std_sort (holding true S2_store) ruleA
   = Some (false, holding true S2_store)).
Proof.
  assert (H1 : getRule (rule_manager_ (PacketClassifier_new true 64 3))
                       (rule_id ruleA) = None) by reflexivity.
  assert (H2 : is_Some (getRule (rule_manager_ (holding true S2_store))
                                (rule_id ruleA))) by (by eexists).
  split.
  - split; [exact H1|].
    exact (proj2 (proj1 (proj2 (addRule_returns_only_failure length_hash
                                  GnuSort.std_sort _ ruleA)) H1)).
  - split; [exact H2|].
    exact (proj1 (addRule_returns_only_failure length_hash GnuSort.std_sort
                    _ ruleA) H2).
Defined.

(** X5.  [modifyRule] returns only to report failure.  On an id that is
    not stored it returns [false] and changes nothing.  On a stored id
    the call does not return, for the reason [addRule] does not: the
    assignment [it->second = new_rule_data] comes after the call of
    [detectConflict].  So no call of [modifyRule] changes a stored
    rule. *)
Theorem modifyRule_returns_only_failure
    (std_hash : string -> Z)
    (std_sort : (Z -> Z -> bool) -> list Z -> list Z)
    (pc : PacketClassifier) (id : Z) (data : ClassificationRule) :
  (getRule (rule_manager_ pc) id = None ->
   modifyRule std_hash std_sort pc id data = Some (false, pc)) /\
  (is_Some (getRule (rule_manager_ pc) id) ->
   RM_modifyRule std_sort (rule_manager_ pc) id data = None /\
   modifyRule std_hash std_sort pc id data = None) /\
  (forall b pc',
     modifyRule std_hash std_sort pc id data = Some (b, pc') ->
     b = false /\ pc' = pc).
Proof.
  unfold getRule. rewrite modifyRule_returns, RM_modifyRule_returns.
  destruct (rules_by_id_ (rule_manager_ pc) !! id) as [old|].
  - split; [done|]. split; [done|]. by intros b pc'.
  - split; [done|]. split; [by intros [? ?]|].
    intros b pc'. by intros [= <- <-].
Qed.

Lemma modifyRule_returns_only_failure_witness :
  (is_Some (getRule (rule_manager_ (holding true S2_store)) 2) /\
   modifyRule length_hash GnuSort.std_sort (holding true S2_store) 2 ruleA
   = None) /\
  (getRule (rule_manager_ (holding true S2_store)) 5 = None /\
   modifyRule length_hash GnuSort.std_sort (holding true S2_store) 5 ruleA
   = Some (false, holding true S2_store)).
Proof.
  assert (H1 : is_Some (getRule (rule_manager_ (holding true S2_store)) 2))
    by (by eexists).
  assert (H2 : getRule (rule_manager_ (holding true S2_store)) 5 = None)
    by reflexivity.
  split.
  - split; [exact H1|].
    exact (proj2 (proj1 (proj2 (modifyRule_returns_only_failure length_hash
                                  GnuSort.std_sort _ 2 ruleA)) H1)).
  - split; [exact H2|].
    exact (proj1 (modifyRule_returns_only_failure length_hash
                    GnuSort.std_sort _ 5 ruleA) H2).
Defined.

(** X6.  A rule that is stored disabled is never the answer of
    [classify], whatever its filter and priority. *)
Theorem disabled_rule_never_matches (std_hash : string -> Z)
    (pc : PacketClassifier) (id : Z) (r : ClassificationRule)
    (h : PacketHeader) (now : Z) :
  ids_ok (rules_by_id_ (rule_manager_ pc)) ->
  rules_by_id_ (rule_manager_ pc) !! id = Some r ->
  enabled r = false ->
  ~ (matched (classify std_hash pc h now).1 = true /\
     matched_rule_id (classify std_hash pc h now).1 = id).
Proof.
  intros Hids Hl Hdis. rewrite classify_classify_rules. unfold classify_rules.
  destruct (first_match _ _ _) as [rule|] eqn:Hfm.
  - destruct (incrementRuleMatchCount _ _ _). cbn. intros [_ Hid].
    assert (Hen : enabled rule = true).
    { clear -Hfm. revert Hfm. generalize (getRulesByPriority (rule_manager_ pc)).
      intros ptrs. induction ptrs as [|p ptrs IH]; [done|]. cbn [first_match].
      destruct (_ !! p) as [r0|]; [|done].
      destruct (enabled r0) eqn:E; cbn [negb]; [|done].
      destruct (matches _ _); [|done]. by intros [= <-]. }
    apply first_match_stored in Hfm as (p & Hp & _).
    pose proof (Hids p rule Hp). assert (p = id) by congruence. subst p.
    congruence.
  - cbn. by intros [? _].
Qed.

Lemma disabled_rule_never_matches_witness :
  let pc := holding true disabled_web_store in
  ~ (matched (classify length_hash pc web_packet 0).1 = true /\
     matched_rule_id (classify length_hash pc web_packet 0).1 = 7).
Proof.
  intros pc.
  apply (disabled_rule_never_matches length_hash pc 7
           (mkRule 7 50 (filter web_rule) (actions web_rule) false 0 0)).
  - intros k r. cbn. rewrite lookup_singleton_Some. by intros [<- <-].
  - reflexivity.
  - reflexivity.
Defined.

(** X7.  After a successful [deleteRule(id)] the id is gone from the
    store, its statistics read 0, and no classification returns it. *)
Theorem deleted_rule_never_matches
    (std_hash : string -> Z)
    (std_sort : (Z -> Z -> bool) -> list Z -> list Z)
    (pc : PacketClassifier) (id : Z) :
  ids_ok (rules_by_id_ (rule_manager_ pc)) ->
  (deleteRule std_sort pc id).1 = true ->
  let pc' := (deleteRule std_sort pc id).2 in
  getRule (rule_manager_ pc') id = None /\
  getRuleStatistics pc' id = 0 /\
  forall h now,
    ~ (matched (classify std_hash pc' h now).1 = true /\
       matched_rule_id (classify std_hash pc' h now).1 = id).
Proof.
  intros Hids Hdel. cbn zeta.
  rewrite deleteRule_result in Hdel. apply bool_decide_eq_true in Hdel.
  destruct Hdel as [r Hr].
  assert (Hrules :
    rules_by_id_ (rule_manager_ (deleteRule std_sort pc id).2)
    = delete id (rules_by_id_ (rule_manager_ pc))).
  { rewrite deleteRule_rm. unfold RM_deleteRule. by rewrite Hr. }
  assert (Hgone : getRule (rule_manager_ (deleteRule std_sort pc id).2) id
                  = None).
  { unfold getRule. by rewrite Hrules, lookup_delete_eq. }
  split; [done|]. split.
  { unfold getRuleStatistics. by rewrite Hgone. }
  intros h now. rewrite classify_classify_rules. unfold classify_rules.
  destruct (first_match _ _ _) as [rule|] eqn:Hfm.
  - destruct (incrementRuleMatchCount _ _ _). cbn. intros [_ Hid].
    apply first_match_stored in Hfm as (p & Hp & _).
    rewrite Hrules in Hp. apply lookup_delete_Some in Hp as [Hne Hp].
    pose proof (Hids p rule Hp). congruence.
  - cbn. by intros [? _].
Qed.

Lemma deleted_rule_never_matches_witness :
  let pc := holding true (web_store 3) in
  ids_ok (rules_by_id_ (rule_manager_ pc)) /\
  (deleteRule GnuSort.std_sort pc 7).1 = true /\
  getRuleStatistics pc 7 = 3 /\
  getRuleStatistics (deleteRule GnuSort.std_sort pc 7).2 7 = 0.
Proof.
  intros pc.
  assert (Hids : ids_ok (rules_by_id_ (rule_manager_ pc))).
  { intros k r. cbn. rewrite lookup_singleton_Some. by intros [<- <-]. }
  assert (Hdel : (deleteRule GnuSort.std_sort pc 7).1 = true)
    by (by vm_compute).
  split; [exact Hids|]. split; [exact Hdel|]. split; [reflexivity|].
  exact (proj1 (proj2 (deleted_rule_never_matches length_hash
                         GnuSort.std_sort pc 7 Hids Hdel))).
Defined.

(** ** The Bloom filter of the facade *)

Section BloomCover.
Variable std_hash : string -> Z.
Variable std_sort : (Z -> Z -> bool) -> list Z -> list Z.

(** Changing the rules without a new enabled filter keeps the cover. *)
Lemma bloom_covers_rules pc rm :
  bloom_covers std_hash pc ->
  (forall k r, rules_by_id_ rm !! k = Some r -> enabled r = true ->
     exists r0 k0, rules_by_id_ (rule_manager_ pc) !! k0 = Some r0 /\
                   enabled r0 = true /\ filter r0 = filter r) ->
  bloom_covers std_hash (set_rule_manager pc rm).
Proof.
  intros Hcov Hrules bf Hbf. destruct (Hcov bf Hbf) as [Hwf Hall].
  split; [done|]. intros k r Hr He.
  destruct (Hrules k r Hr He) as (r0 & k0 & Hr0 & He0 & <-). eauto.
Qed.

(** Storing a rule and inserting its filter string when it is enabled. *)
Lemma bloom_covers_store pc id rule :
  bloom_covers std_hash pc ->
  let pc1 := set_rule_manager pc
               (mkRM (<[id := rule]> (rules_by_id_ (rule_manager_ pc)))
                     (rules_by_priority_cache_ (rule_manager_ pc))) in
  forall pc2,
    rules_by_id_ (rule_manager_ pc2)
    = <[id := rule]> (rules_by_id_ (rule_manager_ pc)) ->
    bloom_filter_ pc2
    = (if enabled rule
       then (fun bf =>
               BloomFilter.insert std_hash
                 (BloomFilter.insert std_hash bf
                    (PacketFilter_toString (filter rule)))
                 (PacketFilter_toString (filter rule))) <$> bloom_filter_ pc
       else bloom_filter_ pc) ->
    bloom_covers std_hash pc2.
Proof.
  intros Hcov _ pc2 Hrules Hbf bf2 Hbf2. rewrite Hbf in Hbf2.
  destruct (bloom_filter_ pc) as [bf|] eqn:E; [|by destruct (enabled rule)].
  destruct (Hcov bf E) as [Hwf Hall].
  destruct (enabled rule) eqn:Hen; cbn in Hbf2; injection Hbf2 as <-.
  - split; [by do 2 apply BloomFilterFacts.insert_wf|].
    intros k r Hr He. rewrite Hrules, lookup_insert in Hr.
    case_decide as Hk.
    + injection Hr as <-.
      apply BloomFilterFacts.possiblyContains_insert_mono.
      by apply BloomFilterFacts.possiblyContains_insert_same.
    + do 2 apply BloomFilterFacts.possiblyContains_insert_mono. eauto.
  - split; [done|]. intros k r Hr He. rewrite Hrules, lookup_insert in Hr.
    case_decide as Hk; [injection Hr as <-; congruence | eauto].
Qed.

(** The Bloom filter the two insertions of [addRule] and [modifyRule]
    leave, for a rule stored under [id]. *)
Lemma bloom_after_update pc id rule :
  getRule (rule_manager_ pc) id = Some rule ->
  let pc1 := (updateSpecializedStructuresForRule std_hash pc id).2 in
  (updateSpecializedStructuresForRule std_hash pc id).1 = true /\
  bloom_filter_ (bloom_insert_rule std_hash pc1 id)
  = (if enabled rule
     then (fun bf =>
             BloomFilter.insert std_hash
               (BloomFilter.insert std_hash bf
                  (PacketFilter_toString (filter rule)))
               (PacketFilter_toString (filter rule))) <$> bloom_filter_ pc
     else bloom_filter_ pc) /\
  rule_manager_ (bloom_insert_rule std_hash pc1 id) = rule_manager_ pc.
Proof.
  intros Hr. cbn zeta.
  unfold updateSpecializedStructuresForRule, bloom_insert_rule,
    use_bloom_filter_, bloom_insert. rewrite Hr.
  destruct (bloom_filter_ pc) as [bf|] eqn:E.
  - destruct (enabled rule) eqn:Hen; cbn.
    + rewrite Hr, Hen. cbn. done.
    + rewrite E. cbn. rewrite Hr, Hen. by rewrite E.
  - cbn. rewrite andb_false_r. cbn. rewrite E. cbn.
    by destruct (enabled rule).
Qed.

Lemma deleteRule_covers pc id :
  bloom_covers std_hash pc ->
  bloom_covers std_hash (deleteRule std_sort pc id).2.
Proof.
  intros Hcov. unfold deleteRule. rewrite remove_specialized.
  unfold RM_deleteRule.
  destruct (rules_by_id_ (rule_manager_ pc) !! id) as [r0|] eqn:E; [|done].
  cbn. apply bloom_covers_rules; [done|]. cbn. intros k r Hr He.
  apply lookup_delete_Some in Hr as [_ Hr]. eauto.
Qed.

(** The statistics updates keep every filter and every enabled flag. *)
Lemma same_matching_covers pc rm :
  bloom_covers std_hash pc ->
  same_matching (rule_manager_ pc) rm ->
  bloom_covers std_hash (set_rule_manager pc rm).
Proof.
  intros Hcov [_ Hsame]. apply bloom_covers_rules; [done|].
  intros k r Hr He. specialize (Hsame k). rewrite Hr in Hsame.
  destruct (rules_by_id_ (rule_manager_ pc) !! k) as [r0|] eqn:E; [|done].
  cbn in Hsame. injection Hsame as _ _ Hf _ Hen.
  exists r0, k. split; [done|]. split; congruence.
Qed.

Lemma classify_covers pc h now :
  bloom_covers std_hash pc ->
  bloom_covers std_hash (classify std_hash pc h now).2.
Proof.
  intros Hcov. rewrite classify_classify_rules. unfold classify_rules.
  destruct (first_match _ _ _) as [rule|]; [|done].
  pose proof (increment_same_matching (rule_manager_ pc) (rule_id rule) now)
    as Hs.
  destruct (incrementRuleMatchCount _ _ _) as [b rm]. cbn [snd] in *.
  by apply same_matching_covers.
Qed.

Lemma step_covers pc op o pc' :
  bloom_covers std_hash pc ->
  step std_hash std_sort pc op = Some (o, pc') ->
  bloom_covers std_hash pc'.
Proof.
  intros Hcov. destruct op as [r|id|id r|h now| |id| |id]; cbn [step].
  - rewrite addRule_returns. case_bool_decide; [|done]. by intros [= _ <-].
  - pose proof (deleteRule_covers pc id Hcov).
    destruct (deleteRule _ _ _). by intros [= _ <-].
  - rewrite modifyRule_returns.
    destruct (rules_by_id_ (rule_manager_ pc) !! id); [done|].
    by intros [= _ <-].
  - pose proof (classify_covers pc h now Hcov).
    destruct (classify _ _ _ _). by intros [= _ <-].
  - by intros [= _ <-].
  - by intros [= _ <-].
  - intros [= _ <-].
    apply same_matching_covers; [done | apply resetAll_same_matching].
  - intros [= _ <-].
    apply same_matching_covers; [done | apply resetRule_same_matching].
Qed.

Lemma run_covers pc ops pc' :
  bloom_covers std_hash pc ->
  run std_hash std_sort pc ops = Some pc' ->
  bloom_covers std_hash pc'.
Proof.
  revert pc. induction ops as [|op ops IH]; intros pc Hcov.
  - by intros [= <-].
  - intros (o & pc1 & Hs & Hr)%run_cons. eapply IH; [|exact Hr].
    by eapply step_covers.
Qed.

Lemma new_covers enable bloom_m bloom_k :
  bloom_covers std_hash (PacketClassifier_new enable bloom_m bloom_k).
Proof.
  intros bf Hbf. cbn in Hbf.
  destruct enable; [|done]. injection Hbf as <-.
  split; [apply BloomFilterFacts.new_optimal_wf|].
  intros k r Hr. cbn in Hr. by apply lookup_empty_Some in Hr.
Qed.

End BloomCover.

(** The state [covered_web] is covered: its filter has received the
    filter string of rule 7. *)
Lemma covered_web_covers : bloom_covers length_hash covered_web.
Proof.
  intros bf Hbf.
  assert (E : bloom_filter_ covered_web
              = Some (BloomFilter.insert length_hash
                        (BloomFilter.new_optimal 64 3)
                        (PacketFilter_toString (filter web_rule))))
    by reflexivity.
  rewrite E in Hbf. injection Hbf as <-. split.
  - apply BloomFilterFacts.insert_wf, BloomFilterFacts.new_optimal_wf.
  - intros k r.
    change (rules_by_id_ (rule_manager_ covered_web))
      with ({[7 := set_statistics web_rule 0 0]}
            : gmap Z ClassificationRule).
    rewrite lookup_singleton_Some. intros [<- <-] _.
    apply BloomFilterFacts.possiblyContains_insert_same,
      BloomFilterFacts.new_optimal_wf.
Qed.

(** X8.  The Bloom filter of the facade, when there is one, answers
    "possibly contains" for the filter string of every stored rule that
    is enabled: this holds of the new classifier and every call of the
    interface that returns keeps it, so it holds after every run that
    returns from a state in which it holds.  Nothing clears a bit, and no
    call that returns stores a new filter. *)
Theorem bloom_covers_enabled_rules
    (std_hash : string -> Z)
    (std_sort : (Z -> Z -> bool) -> list Z -> list Z) :
  (forall enable bloom_m bloom_k,
     bloom_covers std_hash (PacketClassifier_new enable bloom_m bloom_k)) /\
  (forall enable bloom_m bloom_k ops pc',
     run std_hash std_sort (PacketClassifier_new enable bloom_m bloom_k) ops
     = Some pc' ->
     bloom_covers std_hash pc') /\
  (forall pc ops pc',
     bloom_covers std_hash pc ->
     run std_hash std_sort pc ops = Some pc' ->
     bloom_covers std_hash pc').
Proof.
  split; [|split].
  - apply new_covers.
  - intros enable m k ops pc'. apply run_covers, new_covers.
  - intros pc ops pc'. apply run_covers.
Qed.

Lemma bloom_covers_enabled_rules_witness :
  let ops := [OpClassify web_packet 5; OpDelete 3; OpModify 4 ruleA;
              OpAdd web_rule] in
  let pc' := default covered_web
               (run length_hash GnuSort.std_sort covered_web ops) in
  bloom_covers length_hash covered_web /\
  run length_hash GnuSort.std_sort covered_web ops = Some pc' /\
  getRuleStatistics pc' 7 = 1 /\
  bloom_covers length_hash pc'.
Proof.
  intros ops pc'.
  assert (Hrun : run length_hash GnuSort.std_sort covered_web ops = Some pc')
    by (by vm_compute).
  split; [exact covered_web_covers|]. split; [exact Hrun|].
  split; [by vm_compute|].
  exact (proj2 (proj2 (bloom_covers_enabled_rules length_hash
                         GnuSort.std_sort))
           covered_web ops pc' covered_web_covers Hrun).
Defined.

End ClassifierExtra.

(* ===================================================================== *)
(** * More on the interval tree: exact queries, balance, removal *)
(* ===================================================================== *)

Module IntervalTreeExtra.
Import IntervalTree IntervalTreeFacts.

Lemma filter_none {A} (P : A -> Prop) `{forall x, Decision (P x)} l :
  Forall (fun x => ~ P x) l -> filter P l = [].
Proof.
  induction 1 as [|x l Hx _ IH]; [done|].
  by rewrite filter_cons_False.
Qed.

Lemma filter_all {A} (P : A -> Prop) `{forall x, Decision (P x)} l :
  Forall P l -> filter P l = l.
Proof.
  induction 1 as [|x l Hx _ IH]; [done|].
  rewrite filter_cons_True by done. by rewrite IH.
Qed.

Lemma filter_root {A} (P : A -> Prop) `{forall x, Decision (P x)} i l r :
  filter P (i :: l ++ r)
  = (if decide (P i) then [i] else []) ++ filter P l ++ filter P r.
Proof. rewrite filter_cons, filter_app. by destruct (decide (P i)). Qed.

(** *** Exact answers of the two queries *)

Lemma max_bound_children i m l r h :
  max_bound (Node i m l r h) -> max_bound l /\ max_bound r.
Proof. by intros (_ & ? & ?). Qed.

Lemma max_bound_Forall t :
  max_bound t ->
  Forall (fun x => match t with
                   | Leaf => False
                   | Node _ m _ _ _ => high x <= m
                   end) (elements t).
Proof.
  intros Hm. apply Forall_forall. intros x Hx.
  by apply max_bound_root_le.
Qed.

Lemma find_point_exact t q :
  bst t -> max_bound t ->
  findOverlappingRecursive t q ≡ₚ filter (contains q) (elements t).
Proof.
  induction t as [|i m l IHl r IHr h]; [done|].
  intros (Hbl & Hbr & Hl & Hr) (Hm & Hml & Hmr).
  cbn [findOverlappingRecursive elements]. rewrite filter_root.
  apply Permutation_app; [|apply Permutation_app].
  - unfold contains. destruct (decide _) as [Hc|Hc];
      destruct (_ && _) eqn:E; try done; lia.
  - destruct l as [|li lm ll lr lh]; [done|].
    destruct (lm >=? q) eqn:E; [by apply IHl|].
    symmetry. rewrite filter_none; [done|].
    eapply Forall_impl; [apply (max_bound_Forall _ Hml)|].
    cbn beta iota. unfold contains. intros x ?. lia.
  - destruct r as [|ri rm rl rr rh]; [done|].
    destruct (q >=? low i) eqn:E; [by apply IHr|].
    assert (Hnone : filter (contains q) (elements (Node ri rm rl rr rh)) = []).
    { apply filter_none. eapply Forall_impl; [exact Hbr|].
      cbn beta. unfold contains. intros x ?. lia. }
    rewrite Hnone. destruct (_ && _); [|done].
    rewrite IHr by done. by rewrite Hnone.
Qed.

Lemma find_range_exact t query :
  bst t -> max_bound t ->
  findOverlappingRange t query
  ≡ₚ filter (overlaps (low query) (high query)) (elements t).
Proof.
  induction t as [|i m l IHl r IHr h]; [done|].
  intros (Hbl & Hbr & Hl & Hr) (Hm & Hml & Hmr).
  cbn [findOverlappingRange elements]. rewrite filter_root.
  apply Permutation_app; [|apply Permutation_app].
  - unfold overlaps. destruct (decide _) as [Hc|Hc];
      destruct (_ && _) eqn:E; try done; lia.
  - destruct l as [|li lm ll lr lh]; [done|].
    destruct (lm >=? low query) eqn:E; [by apply IHl|].
    symmetry. rewrite filter_none; [done|].
    eapply Forall_impl; [apply (max_bound_Forall _ Hml)|].
    cbn beta iota. unfold overlaps. intros x ?. lia.
  - destruct r as [|ri rm rl rr rh]; [done|].
    destruct (high query >=? low i) eqn:E; [by apply IHr|].
    symmetry. rewrite filter_none; [done|].
    eapply Forall_impl; [exact Hbr|].
    cbn beta. unfold overlaps. intros x ?. lia.
Qed.

(** X9.  On a tree that satisfies the search order and the [max_high]
    bound, the point query returns every stored interval that contains
    the point exactly as many times as it is stored, and nothing else:
    the answer is a permutation of the stored intervals filtered by
    containment. *)
Theorem point_query_exact t q :
  bst t -> max_bound t ->
  findOverlappingIntervals t q ≡ₚ filter (contains q) (elements t).
Proof. apply find_point_exact. Qed.

Lemma point_query_exact_witness :
  (t ← insert_all [mkInterval 10 30 1; mkInterval 20 40 2;
                   mkInterval 5 15 3];
   Some (length (findOverlappingIntervals t 12))) = Some 2%nat.
Proof.
  destruct (insert_all [mkInterval 10 30 1; mkInterval 20 40 2;
                        mkInterval 5 15 3]) as [t|] eqn:E; [|discriminate E].
  destruct (insert_all_spec _ _ E) as (Hp & Hb & Hm & _).
  cbn [mbind option_bind]. f_equal.
  rewrite (Permutation_length (point_query_exact t 12 Hb Hm)), Hp.
  reflexivity.
Defined.

(** X10.  The range query [findOverlappingIntervals(low, high)] returns
    nothing when [low > high]; otherwise, on a tree that satisfies the
    search order and the [max_high] bound, it returns exactly the stored
    intervals [x] with [low <= x.high] and [high >= x.low], each as many
    times as it is stored. *)
Theorem range_query_exact t lo hi :
  bst t -> max_bound t ->
  findOverlappingIntervalsRange t lo hi
  ≡ₚ (if decide (lo > hi) then []
      else filter (overlaps lo hi) (elements t)).
Proof.
  intros Hb Hm. unfold findOverlappingIntervalsRange.
  destruct (decide (lo > hi)) as [Hc|Hc].
  - by replace (lo >? hi) with true by lia.
  - replace (lo >? hi) with false by lia.
    by apply (find_range_exact t (mkInterval lo hi 0)).
Qed.

Lemma range_query_exact_witness :
  (t ← insert_all [mkInterval 10 30 1; mkInterval 20 40 2;
                   mkInterval 5 15 3];
   Some (length (findOverlappingIntervalsRange t 31 100))) = Some 1%nat.
Proof.
  destruct (insert_all [mkInterval 10 30 1; mkInterval 20 40 2;
                        mkInterval 5 15 3]) as [t|] eqn:E; [|discriminate E].
  destruct (insert_all_spec _ _ E) as (Hp & Hb & Hm & _).
  cbn [mbind option_bind]. f_equal.
  rewrite (Permutation_length (range_query_exact t 31 100 Hb Hm)).
  destruct (decide (31 > 100)) as [?|_]; [lia|]. rewrite Hp.
  reflexivity.
Defined.

(** *** The AVL balance *)

Lemma insertRecursive_balanced t n t' :
  insertRecursive t n = Some t' ->
  heights_ok t -> balanced t -> heights_ok t' /\ balanced t'.
Proof.
  revert t'. induction t as [|i m l IHl r IHr h]; intros t'.
  - intros [= <-] _ _. cbn. repeat split; lia.
  - cbn [insertRecursive]. intros Hins (Hh & Hl & Hr) (Hb & Hbl & Hbr).
    apply bind_Some in Hins as (node' & Hdesc & Hreb).
    apply insert_rebalance_moved in Hreb as [-> Hbf].
    assert ((exists l', insertRecursive l n = Some l' /\
                        node' = Node i m l' r h) \/
            (exists r', insertRecursive r n = Some r' /\
                        node' = Node i m l r' h))
      as [(l' & Hl' & ->) | (r' & Hr' & ->)].
    { repeat case_match;
        apply bind_Some in Hdesc as (c & ? & [= <-]); eauto. }
    + destruct (IHl _ Hl' Hl Hbl) as [Hl2 Hbl2].
      split; [by apply heights_ok_update|]. cbn in *. auto.
    + destruct (IHr _ Hr' Hr Hbr) as [Hr2 Hbr2].
      split; [by apply heights_ok_update|]. cbn in *. auto.
Qed.

Lemma remove_rebalance_avl i m l r h :
  heights_ok l -> heights_ok r -> balanced l -> balanced r ->
  -2 <= getHeight l - getHeight r <= 2 ->
  exists t, remove_rebalance (Node i m l r h) = Some t /\
    heights_ok t /\ balanced t /\
    (getHeight t = 1 + Z.max (getHeight l) (getHeight r) \/
     (getHeight t = Z.max (getHeight l) (getHeight r) /\
      (getHeight l - getHeight r = 2 \/ getHeight l - getHeight r = -2))).
Proof.
  intros Hl Hr Hbl Hbr Hd. unfold remove_rebalance.
  cbn [updateNodeHeight updateMaxHigh getBalanceFactor].
  pose proof (getHeight_nonneg l Hl) as Hl0.
  pose proof (getHeight_nonneg r Hr) as Hr0.
  destruct (getHeight l - getHeight r >? 1) eqn:Hb1; cbn [andb].
  - destruct l as [|li lm ll lr lh]; [simpl in *; lia|].
    destruct Hl as (Hlh & Hll & Hlr). destruct Hbl as (Hlb & Hbll & Hblr).
    pose proof (getHeight_nonneg ll Hll). pose proof (getHeight_nonneg lr Hlr).
    cbn [getHeight] in *.
    destruct (getBalanceFactor (Node li lm ll lr lh) >=? 0) eqn:Hb2;
      cbn [getBalanceFactor] in Hb2.
    + eexists. split; [reflexivity|]. cbn. repeat split; auto; lia.
    + replace (getBalanceFactor (Node li lm ll lr lh) <? 0) with true
        by (cbn; lia).
      destruct lr as [|zi zm zl zr zh]; [simpl in *; lia|].
      destruct Hlr as (Hzh & Hzl & Hzr). destruct Hblr as (Hzb & Hbzl & Hbzr).
      pose proof (getHeight_nonneg zl Hzl).
      pose proof (getHeight_nonneg zr Hzr).
      cbn [getHeight] in *.
      eexists. split; [reflexivity|]. cbn. repeat split; auto; lia.
  - destruct (getHeight l - getHeight r <? -1) eqn:Hb3; cbn [andb].
    + destruct r as [|ri rm rl rr rh]; [simpl in *; lia|].
      destruct Hr as (Hrh & Hrl & Hrr). destruct Hbr as (Hrb & Hbrl & Hbrr).
      pose proof (getHeight_nonneg rl Hrl).
      pose proof (getHeight_nonneg rr Hrr).
      cbn [getHeight] in *.
      destruct (getBalanceFactor (Node ri rm rl rr rh) <=? 0) eqn:Hb4;
        cbn [getBalanceFactor] in Hb4.
      * eexists. split; [reflexivity|]. cbn. repeat split; auto; lia.
      * replace (getBalanceFactor (Node ri rm rl rr rh) >? 0) with true
          by (cbn; lia).
        destruct rl as [|zi zm zl zr zh]; [simpl in *; lia|].
        destruct Hrl as (Hzh & Hzl & Hzr).
        destruct Hbrl as (Hzb & Hbzl & Hbzr).
        pose proof (getHeight_nonneg zl Hzl).
        pose proof (getHeight_nonneg zr Hzr).
        cbn [getHeight] in *.
        eexists. split; [reflexivity|]. cbn. repeat split; auto; lia.
    + eexists. split; [reflexivity|]. cbn. repeat split; auto; lia.
Qed.

Lemma removeRecursive_avl t target :
  heights_ok t -> balanced t ->
  exists t', removeRecursive t target = Some t' /\
    heights_ok t' /\ balanced t' /\
    (getHeight t' = getHeight t \/ getHeight t' = getHeight t - 1).
Proof.
  revert target.
  induction t as [|i m l IHl r IHr h]; intros target Hok Hbal.
  - exists Leaf. cbn. auto.
  - destruct Hok as (Hh & Hl & Hr). destruct Hbal as (Hb & Hbl & Hbr).
    pose proof (getHeight_nonneg l Hl) as Hl0.
    pose proof (getHeight_nonneg r Hr) as Hr0.
    cbn [removeRecursive getHeight].
    destruct (_ || _).
    { destruct (IHl target Hl Hbl) as (l' & -> & Hl' & Hbl' & Hhl).
      cbn [mbind option_bind].
      destruct (remove_rebalance_avl i m l' r h) as (t & Ht & ? & ? & Hht);
        auto; [lia|].
      exists t. repeat split; auto. lia. }
    destruct (_ || _).
    { destruct (IHr target Hr Hbr) as (r' & -> & Hr' & Hbr' & Hhr).
      cbn [mbind option_bind].
      destruct (remove_rebalance_avl i m l r' h) as (t & Ht & ? & ? & Hht);
        auto; [lia|].
      exists t. repeat split; auto. lia. }
    destruct (_ && _).
    2:{ destruct (remove_rebalance_avl i m l r h) as (t & Ht & ? & ? & Hht);
          auto; [lia|].
        exists t. repeat split; auto. lia. }
    destruct l as [|li lm ll lr lh].
    { exists r. cbn [getHeight] in *. repeat split; auto. lia. }
    destruct r as [|ri rm rl rr rh].
    { eexists. split; [reflexivity|]. cbn [getHeight] in *.
      split; [exact Hl|]. split; [exact Hbl|]. lia. }
    pose proof (findMin_node (Node ri rm rl rr rh) eq_refl) as Hmin.
    destruct (findMin (Node ri rm rl rr rh)) as [|si sm sl sr sh] eqn:Hs;
      [done|].
    cbn [interval_of].
    destruct (IHr si Hr Hbr) as (r' & -> & Hr' & Hbr' & Hhr).
    cbn [mbind option_bind].
    destruct (remove_rebalance_avl si m (Node li lm ll lr lh) r' h)
      as (t & Ht & ? & ? & Hht); auto; [lia|].
    exists t. repeat split; auto. lia.
Qed.

(** X11.  Every tree the interface can build, by runs of [insert] that
    are defined and of [remove], is an AVL tree: at every node the stored
    height is one more than the larger child height, and the heights of
    the two children differ by at most one. *)
Theorem reachable_is_avl t : reachable t -> heights_ok t /\ balanced t.
Proof.
  induction 1 as [|t lo hi id t' _ [IHh IHb] Hins
                  |t lo hi id b t' _ [IHh IHb] Hrem].
  - done.
  - unfold insert in Hins. destruct (lo >? hi); [by injection Hins as <-|].
    by eapply insertRecursive_balanced.
  - unfold remove in Hrem. apply bind_Some in Hrem as (r & Hr & [= _ <-]).
    destruct (removeRecursive_avl t (mkInterval lo hi id) IHh IHb)
      as (r' & Hr' & ? & ? & _).
    assert (r = r') by congruence. by subst.
Qed.

Lemma reachable_is_avl_witness :
  balanced (Node (mkInterval 10 20 1) 40 Leaf
                 (Node (mkInterval 30 40 2) 40 Leaf Leaf 1) 2).
Proof.
  apply (reachable_is_avl _).
  apply (reach_insert (Node (mkInterval 10 20 1) 20 Leaf Leaf 1) 30 40 2);
    [|reflexivity].
  apply (reach_insert Leaf 10 20 1); [apply reach_empty | reflexivity].
Defined.

(** *** When an insertion is defined *)

Lemma insert_rebalance_balanced node :
  -1 <= getBalanceFactor (updateMaxHigh (updateNodeHeight node)) <= 1 ->
  insert_rebalance node None = Some (updateMaxHigh (updateNodeHeight node)).
Proof.
  intros Hb. unfold insert_rebalance.
  set (n := updateMaxHigh (updateNodeHeight node)) in *.
  replace (getBalanceFactor n >? 1) with false by lia.
  replace (getBalanceFactor n <? -1) with false by lia.
  done.
Qed.

Lemma balance_factor_refresh i m l r h :
  getBalanceFactor (updateMaxHigh (updateNodeHeight (Node i m l r h)))
  = getHeight l - getHeight r.
Proof. done. Qed.

Lemma balanced_refresh i m l r h :
  balanced (updateMaxHigh (updateNodeHeight (Node i m l r h)))
  <-> -1 <= getHeight l - getHeight r <= 1 /\ balanced l /\ balanced r.
Proof. done. Qed.

Lemma insertRecursive_plain t n t' :
  insertRecursive t n = Some t' -> t' = plain_insert t n.
Proof.
  revert t'. induction t as [|i m l IHl r IHr h]; intros t'.
  { by intros [= <-]. }
  cbn [insertRecursive plain_insert]. intros Hins.
  apply bind_Some in Hins as (node' & Hdesc & Hreb).
  apply insert_rebalance_moved in Hreb as [-> _]. f_equal. f_equal.
  repeat case_match;
    apply bind_Some in Hdesc as (c & Hc & [= <-]);
    by rewrite ?(IHl _ Hc), ?(IHr _ Hc).
Qed.

Lemma plain_insert_defined t n :
  balanced (plain_insert t n) ->
  insertRecursive t n = Some (plain_insert t n).
Proof.
  induction t as [|i m l IHl r IHr h]; [done|].
  cbn [insertRecursive plain_insert].
  destruct (low n <? low i); [|destruct (low n >? low i);
                               [|destruct (high n <? high i)]];
    intros Hb;
    pose proof (proj1 (balanced_refresh _ _ _ _ _) Hb) as (Hf & Hl & Hr);
    rewrite ?(IHl Hl), ?(IHr Hr); cbn [mbind option_bind];
    by apply insert_rebalance_balanced.
Qed.

(** X30.  [insertRecursive] never rotates: whenever it is defined, its
    result is the plain insertion (descent and refreshed fields only); it
    is defined whenever the plain insertion is balanced, and on an AVL
    tree it is undefined exactly when the plain insertion leaves a node
    out of balance, that is, exactly when a rotation would be needed. *)
Theorem insert_defined_iff_no_rotation t n :
  (forall t', insertRecursive t n = Some t' -> t' = plain_insert t n) /\
  (balanced (plain_insert t n) ->
   insertRecursive t n = Some (plain_insert t n)) /\
  (heights_ok t -> balanced t ->
   (insertRecursive t n = None <-> ~ balanced (plain_insert t n))).
Proof.
  split; [intros t'; apply insertRecursive_plain|].
  split; [apply plain_insert_defined|].
  intros Hh Hb. split.
  - intros Hnone Hbal. by rewrite (plain_insert_defined t n Hbal) in Hnone.
  - intros Hnb. destruct (insertRecursive t n) as [t'|] eqn:Hins; [|done].
    destruct Hnb. rewrite <- (insertRecursive_plain _ _ _ Hins).
    by destruct (insertRecursive_balanced _ _ _ Hins Hh Hb).
Qed.

(** *** The search order along every run *)

Lemma max_bound_left_of t : max_bound t -> max_bound (left_of t).
Proof. destruct t; [done|]. by intros (_ & ? & _). Qed.

Lemma max_bound_right_of t : max_bound t -> max_bound (right_of t).
Proof. destruct t; [done|]. by intros (_ & _ & ?). Qed.

Lemma bst_replace_left i m l l' r h :
  (forall x, x ∈ elements l' -> x ∈ elements l) -> bst l' ->
  bst (Node i m l r h) -> bst (Node i m l' r h).
Proof.
  intros Hsub Hl' (Hl & Hr & _ & ?). repeat split; auto.
  apply Forall_forall. intros x Hx.
  by apply (proj1 (Forall_forall _ _) Hl), Hsub.
Qed.

Lemma bst_replace_right i m l r r' h :
  (forall x, x ∈ elements r' -> x ∈ elements r) -> bst r' ->
  bst (Node i m l r h) -> bst (Node i m l r' h).
Proof.
  intros Hsub Hr' (Hl & Hr & ? & _). repeat split; auto.
  apply Forall_forall. intros x Hx.
  by apply (proj1 (Forall_forall _ _) Hr), Hsub.
Qed.

Lemma remove_rebalance_spec n t :
  remove_rebalance n = Some t ->
  elements t ≡ₚ elements n /\
  (bst n -> bst t) /\
  (max_bound (left_of n) -> max_bound (right_of n) -> max_bound t).
Proof.
  unfold remove_rebalance.
  pose proof (elements_refresh n) as He. pose proof (bst_refresh n) as Hb.
  assert (left_of (updateMaxHigh (updateNodeHeight n)) = left_of n) as Hlo
    by by destruct n.
  assert (right_of (updateMaxHigh (updateNodeHeight n)) = right_of n) as Hro
    by by destruct n.
  assert (max_bound (left_of n) -> max_bound (right_of n) ->
          max_bound (updateMaxHigh (updateNodeHeight n))) as Hm.
  { destruct n; [done|]. apply max_bound_refresh. }
  destruct (updateMaxHigh (updateNodeHeight n)) as [|i m l r h].
  { intros [= <-]. by rewrite He. }
  cbn [left_of right_of] in Hlo, Hro. rewrite <- He, <- Hlo, <- Hro.
  rewrite <- Hlo, <- Hro in Hm. clear He Hlo Hro.
  assert (bst n -> bst (Node i m l r h)) as Hb' by done. clear Hb.
  destruct (_ && _).
  { intros Hrot. apply rotateRight_spec in Hrot as (Hp & Hbst & Hmax).
    split; [done|]. split; [by auto|]. intros Hl Hr.
    apply Hmax; cbn [left_of right_of]; auto using max_bound_left_of,
      max_bound_right_of. }
  destruct (_ && _).
  { intros Hrot. apply bind_Some in Hrot as (l' & Hl' & Hrot).
    apply rotateLeft_spec in Hl' as (Hpl & Hbl & Hml).
    apply rotateRight_spec in Hrot as (Hp & Hbst & Hmax).
    cbn [left_of right_of] in Hmax.
    split; [|split].
    - rewrite Hp. cbn. by rewrite Hpl.
    - intros Hn. apply Hbst. specialize (Hb' Hn).
      apply (bst_replace_left i m l l' r h); auto.
      + intros x. by rewrite Hpl.
      + apply Hbl. by destruct Hb' as (_ & _ & ? & _).
    - intros Hl Hr.
      assert (max_bound l') as Hl2
        by auto using max_bound_left_of, max_bound_right_of.
      auto using max_bound_left_of, max_bound_right_of. }
  destruct (_ && _).
  { intros Hrot. apply rotateLeft_spec in Hrot as (Hp & Hbst & Hmax).
    split; [done|]. split; [by auto|]. intros Hl Hr.
    apply Hmax; cbn [left_of right_of]; auto using max_bound_left_of,
      max_bound_right_of. }
  destruct (_ && _).
  { intros Hrot. apply bind_Some in Hrot as (r' & Hr' & Hrot).
    apply rotateRight_spec in Hr' as (Hpr & Hbr & Hmr).
    apply rotateLeft_spec in Hrot as (Hp & Hbst & Hmax).
    cbn [left_of right_of] in Hmax.
    split; [|split].
    - rewrite Hp. cbn. by rewrite Hpr.
    - intros Hn. apply Hbst. specialize (Hb' Hn).
      apply (bst_replace_right i m l r r' h); auto.
      + intros x. by rewrite Hpr.
      + apply Hbr. by destruct Hb' as (_ & _ & _ & ?).
    - intros Hl Hr.
      assert (max_bound r') as Hr2
        by auto using max_bound_left_of, max_bound_right_of.
      auto using max_bound_left_of, max_bound_right_of. }
  intros [= <-]. split; [done|]. split; [done|]. by auto.
Qed.

Lemma findMin_least r s :
  interval_of (findMin r) = Some s ->
  s ∈ elements r /\
  (bst r -> Forall (fun x => low s <= low x) (elements r)).
Proof.
  induction r as [|i m l IHl rr _ h]; [done|].
  destruct l as [|li lm ll lr lh].
  - intros [= <-]. split; [apply list_elem_of_here|].
    intros (_ & Hr & _). cbn. apply Forall_cons. split; [lia | done].
  - intros Hs. destruct (IHl Hs) as [Hin Hleast].
    split.
    { cbn [elements]. apply list_elem_of_further, elem_of_app. by left. }
    intros (Hl & Hr & Hbl & _). specialize (Hleast Hbl).
    pose proof (proj1 (Forall_forall _ _) Hl s Hin) as Hsi. cbn beta in Hsi.
    cbn [elements]. apply Forall_cons. split; [done|].
    apply Forall_app. split; [done|].
    eapply Forall_impl; [exact Hr|]. cbn beta. intros; lia.
Qed.

Lemma removeRecursive_spec t target t' :
  removeRecursive t target = Some t' ->
  (forall x, x ∈ elements t' -> x ∈ elements t) /\
  (bst t -> bst t') /\
  (max_bound t -> max_bound t').
Proof.
  revert target t'.
  induction t as [|i m l IHl r IHr h]; intros target t'.
  { by intros [= <-]. }
  cbn [removeRecursive].
  destruct (_ || _).
  { intros H. apply bind_Some in H as (l' & Hl' & Hreb).
    destruct (IHl _ _ Hl') as (Hsub & Hb & Hm).
    apply remove_rebalance_spec in Hreb as (Hp & Hbst & Hmax).
    cbn [left_of right_of] in Hmax. split; [|split].
    - intros x. rewrite Hp. cbn [elements].
      rewrite !elem_of_cons, !elem_of_app. naive_solver.
    - intros Hn. apply Hbst. apply (bst_replace_left i m l l' r h); auto.
      apply Hb. by destruct Hn as (_ & _ & ? & _).
    - intros (_ & ? & ?). auto. }
  destruct (_ || _).
  { intros H. apply bind_Some in H as (r' & Hr' & Hreb).
    destruct (IHr _ _ Hr') as (Hsub & Hb & Hm).
    apply remove_rebalance_spec in Hreb as (Hp & Hbst & Hmax).
    cbn [left_of right_of] in Hmax. split; [|split].
    - intros x. rewrite Hp. cbn [elements].
      rewrite !elem_of_cons, !elem_of_app. naive_solver.
    - intros Hn. apply Hbst. apply (bst_replace_right i m l r r' h); auto.
      apply Hb. by destruct Hn as (_ & _ & _ & ?).
    - intros (_ & ? & ?). auto. }
  destruct (_ && _).
  2:{ intros Hreb.
      apply remove_rebalance_spec in Hreb as (Hp & Hbst & Hmax).
      cbn [left_of right_of] in Hmax. split; [|split].
      - intros x. by rewrite Hp.
      - done.
      - intros (_ & ? & ?). auto. }
  destruct l as [|li lm ll lr lh].
  { intros [= <-]. split; [|split].
    - intros x Hx. by apply list_elem_of_further.
    - by intros (_ & _ & _ & ?).
    - by intros (_ & _ & ?). }
  destruct r as [|ri rm rl rr rh].
  { intros [= <-]. split; [|split].
    - intros x Hx. apply list_elem_of_further, elem_of_app. by left.
    - by intros (_ & _ & ? & _).
    - by intros (_ & ? & _). }
  destruct (interval_of (findMin (Node ri rm rl rr rh))) as [succ|] eqn:Hs;
    [|done].
  intros H. apply bind_Some in H as (r' & Hr' & Hreb).
  destruct (IHr _ _ Hr') as (Hsub & Hb & Hm).
  destruct (findMin_least _ _ Hs) as [Hin Hleast].
  apply remove_rebalance_spec in Hreb as (Hp & Hbst & Hmax).
  cbn [left_of right_of] in Hmax. split; [|split].
  - intros x. rewrite Hp.
    change (elements (Node succ m (Node li lm ll lr lh) r' h))
      with (succ :: elements (Node li lm ll lr lh) ++ elements r').
    change (elements (Node i m (Node li lm ll lr lh) (Node ri rm rl rr rh) h))
      with (i :: elements (Node li lm ll lr lh)
              ++ elements (Node ri rm rl rr rh)).
    rewrite !elem_of_cons, !elem_of_app. intros [-> | [?|?]]; auto.
  - intros (Hl & Hr & Hbl & Hbr). apply Hbst.
    specialize (Hleast Hbr).
    pose proof (proj1 (Forall_forall _ _) Hr succ Hin) as Hi. cbn beta in Hi.
    split; [|split; [|split]]; auto.
    + eapply Forall_impl; [exact Hl|]. cbn beta. intros; lia.
    + apply Forall_forall. intros x Hx.
      by apply (proj1 (Forall_forall _ _) Hleast), Hsub.
  - intros (_ & ? & ?). auto.
Qed.

(** X12.  Every tree the interface can build is a search tree on [low]
    whose [max_high] fields bound their subtrees, so on every such tree
    both queries are exact: they return the stored intervals that contain
    the point, respectively meet the range, each as often as it is
    stored. *)
Theorem reachable_queries_exact t :
  reachable t ->
  bst t /\ max_bound t /\
  (forall q,
     findOverlappingIntervals t q ≡ₚ filter (contains q) (elements t)) /\
  (forall lo hi, lo <= hi ->
     findOverlappingIntervalsRange t lo hi
     ≡ₚ filter (overlaps lo hi) (elements t)).
Proof.
  intros Hreach.
  assert (bst t /\ max_bound t) as [Hb Hm].
  { induction Hreach as [|t lo hi id t' _ [IHb IHm] Hins
                         |t lo hi id b t' _ [IHb IHm] Hrem].
    - done.
    - unfold insert in Hins.
      destruct (lo >? hi); [by injection Hins as <-|].
      apply insertRecursive_spec in Hins as (_ & ? & ? & _). auto.
    - unfold remove in Hrem.
      apply bind_Some in Hrem as (r & Hr & [= _ <-]).
      apply removeRecursive_spec in Hr as (_ & ? & ?). auto. }
  split; [done|]. split; [done|]. split.
  - intros q. by apply find_point_exact.
  - intros lo hi Hle. unfold findOverlappingIntervalsRange.
    replace (lo >? hi) with false by lia.
    by apply (find_range_exact t (mkInterval lo hi 0)).
Qed.

Lemma reachable_queries_exact_witness :
  findOverlappingIntervals
    (Node (mkInterval 10 20 1) 40 Leaf
          (Node (mkInterval 30 40 2) 40 Leaf Leaf 1) 2) 35
  ≡ₚ [mkInterval 30 40 2].
Proof.
  refine (proj1 (proj2 (proj2 (reachable_queries_exact _ _))) 35).
  apply (reach_insert (Node (mkInterval 10 20 1) 20 Leaf Leaf 1) 30 40 2);
    [|reflexivity].
  apply (reach_insert Leaf 10 20 1); [apply reach_empty | reflexivity].
Defined.

(** *** Removal in a tree without repeated ranges *)

Lemma key_lt_trans a b c : key_lt a b -> key_lt b c -> key_lt a c.
Proof. unfold key_lt. lia. Qed.

Lemma key_lt_neq a b : key_lt a b -> a <> b.
Proof. unfold key_lt. intros H ->. lia. Qed.

Lemma inorder_elements t : inorder t ≡ₚ elements t.
Proof.
  induction t as [|i m l IHl r IHr h]; [done|].
  cbn. by rewrite <- Permutation_middle, IHl, IHr.
Qed.

Lemma inorder_refresh n :
  inorder (updateMaxHigh (updateNodeHeight n)) = inorder n.
Proof. by destruct n. Qed.

Lemma rotateRight_inorder y x : rotateRight y = Some x -> inorder x = inorder y.
Proof.
  destruct y as [|yi ym [|xi xm xl xr xh] yr yh]; try done.
  intros [= <-]. cbn. by rewrite <- app_assoc.
Qed.

Lemma rotateLeft_inorder x y : rotateLeft x = Some y -> inorder y = inorder x.
Proof.
  destruct x as [|xi xm xl [|yi ym yl yr yh] xh]; try done.
  intros [= <-]. cbn. by rewrite <- app_assoc.
Qed.

Lemma remove_rebalance_inorder n t :
  remove_rebalance n = Some t -> inorder t = inorder n.
Proof.
  unfold remove_rebalance. rewrite <- (inorder_refresh n).
  destruct (updateMaxHigh (updateNodeHeight n)) as [|i m l r h].
  { by intros [= <-]. }
  destruct (_ && _); [apply rotateRight_inorder|].
  destruct (_ && _).
  { intros H. apply bind_Some in H as (l' & Hl' & Hrot).
    apply rotateLeft_inorder in Hl'. apply rotateRight_inorder in Hrot.
    rewrite Hrot. cbn. by rewrite Hl'. }
  destruct (_ && _); [apply rotateLeft_inorder|].
  destruct (_ && _).
  { intros H. apply bind_Some in H as (r' & Hr' & Hrot).
    apply rotateRight_inorder in Hr'. apply rotateLeft_inorder in Hrot.
    rewrite Hrot. cbn. by rewrite Hr'. }
  by intros [= <-].
Qed.

Lemma sbst_node i m l r h :
  sbst (Node i m l r h) <->
  sbst l /\ sbst r /\
  Forall (fun x => key_lt x i) (inorder l) /\ Forall (key_lt i) (inorder r).
Proof.
  unfold sbst. cbn [inorder].
  rewrite StronglySorted_app, StronglySorted_cons, !Forall_forall.
  split.
  - intros (Hlr & Hl & Hir & Hr). repeat split; auto.
    intros x Hx. apply Hlr; [done | apply list_elem_of_here].
  - intros (Hl & Hr & Hli & Hir). repeat split; auto.
    intros x1 x2 H1 H2. apply elem_of_cons in H2 as [-> | H2]; [by auto|].
    eapply key_lt_trans; eauto.
Qed.

Lemma sorted_filter (P : Interval -> Prop) `{forall x, Decision (P x)} l :
  StronglySorted key_lt l -> StronglySorted key_lt (filter P l).
Proof.
  induction 1 as [|x l _ IH Hx]; [constructor|].
  rewrite filter_cons. destruct (decide (P x)); [|done].
  constructor; [done|]. apply Forall_forall. intros y Hy.
  apply list_elem_of_filter in Hy as [_ Hy].
  by apply (proj1 (Forall_forall _ _) Hx).
Qed.

Lemma findMin_head r s :
  interval_of (findMin r) = Some s -> exists rest, inorder r = s :: rest.
Proof.
  induction r as [|i m l IHl rr _ h]; [done|].
  destruct l as [|li lm ll lr lh].
  - intros [= <-]. by eexists.
  - intros Hs. destruct (IHl Hs) as [rest Hrest].
    exists (rest ++ i :: inorder rr).
    change (inorder (Node i m (Node li lm ll lr lh) rr h))
      with (inorder (Node li lm ll lr lh) ++ i :: inorder rr).
    by rewrite Hrest.
Qed.

Lemma filter_keeps_above target i l :
  ~ key_lt i target -> Forall (key_lt i) l ->
  filter (fun x => x <> target) l = l.
Proof.
  intros Hn Hl. apply filter_all. eapply Forall_impl; [exact Hl|].
  cbn beta. by intros x Hx ->.
Qed.

Lemma filter_keeps_below target i l :
  ~ key_lt target i -> Forall (fun x => key_lt x i) l ->
  filter (fun x => x <> target) l = l.
Proof.
  intros Hn Hl. apply filter_all. eapply Forall_impl; [exact Hl|].
  cbn beta. by intros x Hx ->.
Qed.

Lemma removeRecursive_inorder t target t' :
  sbst t -> removeRecursive t target = Some t' ->
  inorder t' = filter (fun x => x <> target) (inorder t).
Proof.
  revert target t'.
  induction t as [|i m l IHl r IHr h]; intros target t' Hs.
  { by intros [= <-]. }
  apply sbst_node in Hs as (Hsl & Hsr & Hli & Hir).
  cbn [removeRecursive inorder]. rewrite filter_app, filter_cons.
  destruct (_ || _) eqn:Hless.
  { assert (key_lt target i) as Hk by (unfold key_lt; lia).
    intros H. apply bind_Some in H as (l' & Hl' & Hreb).
    apply remove_rebalance_inorder in Hreb. rewrite Hreb. cbn [inorder].
    rewrite (IHl _ _ Hsl Hl').
    destruct (decide (i <> target)) as [_|Hn];
      [|by apply dec_stable in Hn; subst; apply key_lt_neq in Hk].
    rewrite (filter_keeps_above target i (inorder r)); [done| |done].
    unfold key_lt in *. lia. }
  destruct ((low target >? low i) || _) eqn:Hgreater.
  { assert (key_lt i target) as Hk by (unfold key_lt; lia).
    intros H. apply bind_Some in H as (r' & Hr' & Hreb).
    apply remove_rebalance_inorder in Hreb. rewrite Hreb. cbn [inorder].
    rewrite (IHr _ _ Hsr Hr').
    destruct (decide (i <> target)) as [_|Hn];
      [|by apply dec_stable in Hn; subst; apply key_lt_neq in Hk].
    rewrite (filter_keeps_below target i (inorder l)); [done| |done].
    unfold key_lt in *. lia. }
  assert (~ key_lt target i) as Hnl by (unfold key_lt; lia).
  assert (~ key_lt i target) as Hng by (unfold key_lt; lia).
  rewrite (filter_keeps_below target i (inorder l)) by done.
  rewrite (filter_keeps_above target i (inorder r)) by done.
  destruct ((low i =? low target) && _ && _) eqn:Hfound.
  2:{ intros Hreb. apply remove_rebalance_inorder in Hreb. rewrite Hreb.
      destruct (decide (i <> target)) as [_|Hn]; [done|].
      apply dec_stable in Hn. subst. lia. }
  assert (i = target) as <-.
  { destruct i, target; cbn in *. f_equal; lia. }
  destruct (decide (i <> i)) as [?|_]; [done|].
  destruct l as [|li lm ll lr lh]; [by intros [= <-]|].
  destruct r as [|ri rm rl rr rh].
  { intros [= <-]. cbn [inorder]. by rewrite app_nil_r. }
  destruct (interval_of (findMin (Node ri rm rl rr rh))) as [succ|] eqn:Hmin;
    [|done].
  intros H. apply bind_Some in H as (r' & Hr' & Hreb).
  apply remove_rebalance_inorder in Hreb. rewrite Hreb.
  destruct (findMin_head _ _ Hmin) as [rest Hrest].
  change (inorder (Node succ m (Node li lm ll lr lh) r' h))
    with (inorder (Node li lm ll lr lh) ++ succ :: inorder r').
  rewrite (IHr _ _ Hsr Hr'), Hrest.
  rewrite filter_cons_False by (by intros ?).
  unfold sbst in Hsr. rewrite Hrest in Hsr.
  apply StronglySorted_cons in Hsr as [Hrest_above _].
  rewrite (filter_keeps_above succ succ rest); [done| |done].
  unfold key_lt. lia.
Qed.

(** X13.  In a tree with correct heights whose symmetric order is
    strictly increasing in (low, high), [remove(low, high, id)] returns
    true and leaves exactly the stored intervals other than the target, in
    their order; the result is again such a tree. *)
Theorem remove_exact t lo hi id :
  heights_ok t -> sbst t ->
  exists t',
    remove t lo hi id = Some (true, t') /\
    inorder t' = filter (fun x => x <> mkInterval lo hi id) (inorder t) /\
    elements t' ≡ₚ filter (fun x => x <> mkInterval lo hi id) (elements t) /\
    sbst t' /\ heights_ok t'.
Proof.
  intros Hh Hs. unfold remove.
  destruct (removeRecursive_heights t (mkInterval lo hi id) Hh)
    as (t' & Ht' & Hh').
  exists t'. rewrite Ht'. split; [done|].
  pose proof (removeRecursive_inorder _ _ _ Hs Ht') as Hin.
  split; [done|]. split; [|split; [|done]].
  - by rewrite <- !inorder_elements, Hin.
  - unfold sbst. rewrite Hin. by apply sorted_filter.
Qed.

Lemma remove_exact_witness :
  exists t',
    remove (Node (mkInterval 10 20 1) 40
                 (Node (mkInterval 5 15 3) 15 Leaf Leaf 1)
                 (Node (mkInterval 30 40 2) 40 Leaf Leaf 1) 2) 10 20 1
    = Some (true, t') /\
    inorder t' = [mkInterval 5 15 3; mkInterval 30 40 2].
Proof.
  destruct (remove_exact
              (Node (mkInterval 10 20 1) 40
                    (Node (mkInterval 5 15 3) 15 Leaf Leaf 1)
                    (Node (mkInterval 30 40 2) 40 Leaf Leaf 1) 2) 10 20 1)
    as (t' & Hrem & Hin & _).
  - cbn. repeat split; lia.
  - unfold sbst. cbn. repeat constructor; unfold key_lt; cbn; lia.
  - exists t'. split; [exact Hrem|]. rewrite Hin. reflexivity.
Defined.

(** *** Insertion of a range that is not stored *)

Lemma insertRecursive_inorder t n t' :
  sbst t ->
  Forall (fun x => ~ (low x = low n /\ high x = high n)) (inorder t) ->
  insertRecursive t n = Some t' ->
  exists l1 l2,
    inorder t = l1 ++ l2 /\ inorder t' = l1 ++ n :: l2 /\
    Forall (fun x => key_lt x n) l1 /\ Forall (key_lt n) l2.
Proof.
  revert t'. induction t as [|i m l IHl r IHr h]; intros t' Hs Hfresh.
  { intros [= <-]. by exists [], []. }
  apply sbst_node in Hs as (Hsl & Hsr & Hli & Hir).
  cbn [inorder] in Hfresh.
  apply Forall_app in Hfresh as [Hfl Hfr].
  apply Forall_cons in Hfr as [Hfi Hfr]. cbn beta in Hfi.
  cbn [insertRecursive]. intros Hins.
  apply bind_Some in Hins as (node' & Hdesc & Hreb).
  apply insert_rebalance_moved in Hreb as [-> _].
  rewrite inorder_refresh.
  assert ((exists l', insertRecursive l n = Some l' /\
                      node' = Node i m l' r h /\ key_lt n i) \/
          (exists r', insertRecursive r n = Some r' /\
                      node' = Node i m l r' h /\ key_lt i n))
    as [(l' & Hl' & -> & Hk) | (r' & Hr' & -> & Hk)].
  { unfold key_lt. destruct (low n <? low i) eqn:H1.
    { apply bind_Some in Hdesc as (l' & ? & [= <-]). left. eexists.
      repeat split; [done | lia]. }
    destruct (low n >? low i) eqn:H2.
    { apply bind_Some in Hdesc as (r' & ? & [= <-]). right. eexists.
      repeat split; [done | lia]. }
    destruct (high n <? high i) eqn:H3.
    { apply bind_Some in Hdesc as (l' & ? & [= <-]). left. eexists.
      repeat split; [done | lia]. }
    apply bind_Some in Hdesc as (r' & ? & [= <-]). right. eexists.
    repeat split; [done | lia]. }
  - destruct (IHl _ Hsl Hfl Hl') as (a & b & Hab & Hab' & Ha & Hb).
    exists a, (b ++ i :: inorder r). cbn [inorder].
    rewrite Hab, Hab', <- !app_assoc. repeat split; auto.
    apply Forall_app. split; [done|]. apply Forall_cons. split; [done|].
    eapply Forall_impl; [exact Hir|]. cbn beta.
    intros x Hx. by eapply key_lt_trans.
  - destruct (IHr _ Hsr Hfr Hr') as (a & b & Hab & Hab' & Ha & Hb).
    exists (inorder l ++ i :: a), b. cbn [inorder].
    rewrite Hab, Hab', <- !app_assoc. repeat split; auto.
    apply Forall_app. split.
    + eapply Forall_impl; [exact Hli|]. cbn beta.
      intros x Hx. by eapply key_lt_trans.
    + by apply Forall_cons.
Qed.

(** X14.  Inserting an interval whose range (low, high) is not stored into
    a tree whose symmetric order is strictly increasing puts it at its
    place in that order, whenever the insertion is defined: the order of
    the intervals already stored is kept and the result is strictly
    increasing again. *)
Theorem insert_fresh_range t lo hi id t' :
  sbst t -> lo <= hi ->
  Forall (fun x => ~ (low x = lo /\ high x = hi)) (inorder t) ->
  insert t lo hi id = Some t' ->
  sbst t' /\
  inorder t'
  = filter (fun x => key_lt x (mkInterval lo hi id)) (inorder t)
    ++ mkInterval lo hi id
    :: filter (key_lt (mkInterval lo hi id)) (inorder t).
Proof.
  intros Hs Hle Hfresh. unfold insert.
  replace (lo >? hi) with false by lia. intros Hins.
  destruct (insertRecursive_inorder t (mkInterval lo hi id) t' Hs Hfresh Hins)
    as (l1 & l2 & H12 & H12' & H1 & H2).
  unfold sbst in *. rewrite H12 in Hs. rewrite H12', H12.
  apply StronglySorted_app in Hs as (Hcross & Hs1 & Hs2).
  split.
  - apply StronglySorted_app. split; [|split; [done|]].
    + intros x1 x2 Hx1 Hx2.
      apply elem_of_cons in Hx2 as [-> | Hx2].
      * by apply (proj1 (Forall_forall _ _) H1).
      * by apply Hcross.
    + by constructor.
  - rewrite !filter_app.
    rewrite (filter_all _ l1 H1), (filter_all _ l2 H2).
    rewrite (filter_none _ l2), (filter_none _ l1), app_nil_r; [done| |].
    + eapply Forall_impl; [exact H1|]. unfold key_lt. cbn. intros; lia.
    + eapply Forall_impl; [exact H2|]. unfold key_lt. cbn. intros; lia.
Qed.

Lemma insert_fresh_range_witness :
  inorder (Node (mkInterval 10 20 1) 40 Leaf
                (Node (mkInterval 30 40 2) 40 Leaf Leaf 1) 2)
  = [mkInterval 10 20 1; mkInterval 30 40 2].
Proof.
  refine (proj2 (insert_fresh_range
                   (Node (mkInterval 10 20 1) 20 Leaf Leaf 1) 30 40 2 _
                   _ _ _ _)).
  - unfold sbst. cbn. repeat constructor.
  - lia.
  - cbn. repeat constructor. cbn. lia.
  - reflexivity.
Defined.

(** *** A stored range with another id *)

(** X15.  When the node the search stops at has the target's range but
    another [data_id], [remove] returns true and removes nothing: the
    stored intervals are the same afterwards, also when the target itself
    is stored further down. *)
Theorem remove_same_range_other_id i m l r h id :
  heights_ok (Node i m l r h) -> id <> data_id i ->
  exists t',
    remove (Node i m l r h) (low i) (high i) id = Some (true, t') /\
    inorder t' = inorder (Node i m l r h).
Proof.
  intros Hh Hid. unfold remove.
  destruct (removeRecursive_heights _ (mkInterval (low i) (high i) id) Hh)
    as (t' & Ht' & _).
  exists t'. rewrite Ht'. split; [done|].
  cbn [removeRecursive low high data_id] in Ht'.
  rewrite !Z.ltb_irrefl, !Z.eqb_refl in Ht'.
  replace (low i >? low i) with false in Ht' by lia.
  replace (high i >? high i) with false in Ht' by lia.
  replace (data_id i =? id) with false in Ht' by lia.
  cbn [orb andb] in Ht'.
  by apply remove_rebalance_inorder in Ht'.
Qed.

Lemma remove_same_range_other_id_witness :
  exists t',
    remove (Node (mkInterval 1 5 1) 5 Leaf
                 (Node (mkInterval 1 5 2) 5 Leaf Leaf 1) 2) 1 5 2
    = Some (true, t') /\
    inorder t' = [mkInterval 1 5 1; mkInterval 1 5 2].
Proof.
  apply (remove_same_range_other_id (mkInterval 1 5 1) 5 Leaf
           (Node (mkInterval 1 5 2) 5 Leaf Leaf 1) 2 2).
  - cbn. repeat split; lia.
  - cbn. lia.
Defined.

End IntervalTreeExtra.

(* ===================================================================== *)
(** * More on the Bloom filter *)
(* ===================================================================== *)

Module BloomFilterExtra.
Import BloomFilter BloomFilterFacts.

(** *** The bits *)

Lemma get_bit_replicate n h : get_bit (replicate n false) h = false.
Proof.
  unfold get_bit. destruct (replicate n false !! Z.to_nat h) eqn:E; [|done].
  by apply lookup_replicate_1 in E as [-> _].
Qed.

Lemma get_set_bit bits h h' :
  0 <= h -> 0 <= h' ->
  get_bit (set_bit bits h) h' = true <->
  get_bit bits h' = true \/ (h' = h /\ (Z.to_nat h < length bits)%nat).
Proof.
  intros Hh Hh'. unfold get_bit, set_bit.
  destruct (decide (h' = h)) as [->|Hne].
  - destruct (decide (Z.to_nat h < length bits)%nat) as [Hlt|Hge].
    + rewrite list_lookup_insert_eq by done. cbn. tauto.
    + rewrite list_insert_ge by lia. intuition lia.
  - rewrite list_lookup_insert_ne by lia. intuition lia.
Qed.

Lemma get_set_bits bits hs h' :
  Forall (fun h => 0 <= h /\ (Z.to_nat h < length bits)%nat) hs -> 0 <= h' ->
  get_bit (foldl set_bit bits hs) h' = true <->
  get_bit bits h' = true \/ h' ∈ hs.
Proof.
  revert bits. induction hs as [|h hs IH]; intros bits Hhs Hh'.
  { cbn. rewrite elem_of_nil. tauto. }
  apply Forall_cons in Hhs as [[Hh Hlt] Hhs]. cbn [foldl].
  rewrite IH; [| |done].
  - rewrite get_set_bit by done. rewrite elem_of_cons. tauto.
  - eapply Forall_impl; [exact Hhs|]. cbn beta. intros x [? ?].
    unfold set_bit. by rewrite length_insert.
Qed.

Lemma set_bit_comm bits h1 h2 :
  set_bit (set_bit bits h1) h2 = set_bit (set_bit bits h2) h1.
Proof.
  unfold set_bit. rewrite list_insert_insert.
  destruct (decide (Z.to_nat h2 = Z.to_nat h1)) as [E|?]; [|done].
  by rewrite E, list_insert_insert_eq.
Qed.

Lemma set_bits_comm_one bits hs h :
  foldl set_bit (set_bit bits h) hs = set_bit (foldl set_bit bits hs) h.
Proof.
  revert bits. induction hs as [|h0 hs IH]; intros bits; [done|].
  cbn [foldl]. by rewrite set_bit_comm, IH.
Qed.

Lemma set_bits_comm bits hs1 hs2 :
  foldl set_bit (foldl set_bit bits hs1) hs2
  = foldl set_bit (foldl set_bit bits hs2) hs1.
Proof.
  revert bits. induction hs1 as [|h hs1 IH]; intros bits; [done|].
  cbn [foldl]. by rewrite IH, set_bits_comm_one.
Qed.

Lemma set_bit_idemp bits h : set_bit (set_bit bits h) h = set_bit bits h.
Proof. unfold set_bit. apply list_insert_insert_eq. Qed.

Lemma set_bits_absorb bits hs h :
  h ∈ hs -> set_bit (foldl set_bit bits hs) h = foldl set_bit bits hs.
Proof.
  revert bits. induction hs as [|h0 hs IH]; intros bits Hin.
  { by apply elem_of_nil in Hin. }
  cbn [foldl]. apply elem_of_cons in Hin as [-> | Hin]; [|by apply IH].
  by rewrite set_bits_comm_one, set_bit_idemp.
Qed.

Lemma set_bits_idemp bits hs :
  foldl set_bit (foldl set_bit bits hs) hs = foldl set_bit bits hs.
Proof.
  assert (forall hs' bits', (forall h, h ∈ hs' -> set_bit bits' h = bits') ->
            foldl set_bit bits' hs' = bits') as Hfix.
  { intros hs'. induction hs' as [|h hs' IH]; intros bits' Hall; [done|].
    cbn [foldl]. rewrite (Hall h) by apply list_elem_of_here.
    apply IH. intros h' Hh'. by apply Hall, list_elem_of_further. }
  apply Hfix. intros h Hh. by apply set_bits_absorb.
Qed.

(** *** DJB2 *)

Lemma hashFunction2_loop_step h c rest :
  hashFunction2_loop h (String c rest)
  = hashFunction2_loop (wrap64 (33 * h + Z.of_N (Ascii.N_of_ascii c))) rest.
Proof.
  cbn [hashFunction2_loop]. f_equal. unfold wrap64.
  rewrite Z.shiftl_mul_pow2 by lia.
  rewrite Zplus_mod_idemp_l, <- Z.add_assoc, Zplus_mod_idemp_l.
  f_equal. lia.
Qed.

Lemma hashFunction2_loop_app h s1 s2 :
  hashFunction2_loop h (s1 ++ s2)%string
  = hashFunction2_loop (hashFunction2_loop h s1) s2.
Proof.
  revert h. induction s1 as [|c s1 IH]; intros h; [done|].
  cbn [String.append hashFunction2_loop]. apply IH.
Qed.

Lemma hashFunction2_loop_range h s :
  0 <= h < 2 ^ 64 -> 0 <= hashFunction2_loop h s < 2 ^ 64.
Proof.
  revert h. induction s as [|c s IH]; intros h Hh; [done|].
  cbn [hashFunction2_loop]. apply IH, wrap64_range.
Qed.

Section AnyStdHash.

Variable std_hash : string -> Z.

Lemma hash_first bf x :
  wf bf -> 0 < num_hash_functions bf ->
  exists hs,
    hash std_hash bf x
    = hashFunction1 std_hash x mod bit_array_size bf :: hs.
Proof.
  intros [Hm _] Hk. unfold BloomFilter.hash.
  replace (num_hash_functions bf =? 0) with false by lia.
  replace (bit_array_size bf =? 0) with false by lia.
  cbn [orb]. rewrite seqZ_cons by done. cbn [fmap list_fmap].
  eexists. f_equal.
Qed.

Lemma inserts_size bf items :
  bit_array_size (foldl (insert std_hash) bf items) = bit_array_size bf.
Proof.
  revert bf. induction items as [|y items IH]; intros bf; [done|].
  cbn [foldl]. by rewrite IH, insert_size.
Qed.

Lemma inserts_num_hashes bf items :
  num_hash_functions (foldl (insert std_hash) bf items)
  = num_hash_functions bf.
Proof.
  revert bf. induction items as [|y items IH]; intros bf; [done|].
  cbn [foldl]. by rewrite IH, insert_num_hashes.
Qed.

Lemma hash_positions bf x :
  wf bf ->
  Forall (fun h => 0 <= h /\ (Z.to_nat h < length (bit_array bf))%nat)
         (hash std_hash bf x).
Proof.
  intros Hwf. apply Forall_forall. intros h Hh.
  pose proof (hash_in_range std_hash bf x h Hwf Hh) as Hr.
  destruct Hwf as [_ Hlen]. rewrite Hlen. lia.
Qed.

Lemma bit_after_insert bf y h :
  wf bf -> 0 <= h ->
  get_bit (bit_array (insert std_hash bf y)) h = true <->
  get_bit (bit_array bf) h = true \/ h ∈ hash std_hash bf y.
Proof.
  intros Hwf Hh. unfold BloomFilter.insert.
  destruct (bit_array_size bf =? 0) eqn:Hm; [destruct Hwf; lia|].
  cbn [bit_array]. by apply get_set_bits; [apply hash_positions|].
Qed.

Lemma bit_after_inserts bf items h :
  wf bf -> 0 <= h ->
  get_bit (bit_array (foldl (insert std_hash) bf items)) h = true <->
  get_bit (bit_array bf) h = true \/
  exists y, y ∈ items /\ h ∈ hash std_hash bf y.
Proof.
  revert bf. induction items as [|y items IH]; intros bf Hwf Hh.
  { cbn. split; [tauto|]. intros [?|(y & Hy & _)]; [done|].
    by apply elem_of_nil in Hy. }
  cbn [foldl]. rewrite IH by (by try apply insert_wf).
  rewrite bit_after_insert by done.
  split.
  - intros [[?|?]|(z & Hz & Hin)]; [by left | |].
    + right. exists y. split; [apply list_elem_of_here | done].
    + right. exists z. split; [by apply list_elem_of_further|].
      by rewrite <- (hash_params std_hash bf (insert std_hash bf y) z
                       (insert_size _ _ _) (insert_num_hashes _ _ _)).
  - intros [?|(z & Hz & Hin)]; [by left; left|].
    apply elem_of_cons in Hz as [-> | Hz]; [by left; right|].
    right. exists z. split; [done|].
    by rewrite (hash_params std_hash bf (insert std_hash bf y) z
                  (insert_size _ _ _) (insert_num_hashes _ _ _)).
Qed.

Lemma possiblyContains_spec bf items x :
  wf bf -> (forall h, get_bit (bit_array bf) h = false) ->
  possiblyContains std_hash (foldl (insert std_hash) bf items) x = true <->
  forall h, h ∈ hash std_hash bf x ->
    exists y, y ∈ items /\ h ∈ hash std_hash bf y.
Proof.
  intros Hwf Hclear. unfold BloomFilter.possiblyContains.
  rewrite inserts_size.
  destruct (bit_array_size bf =? 0) eqn:Hm; [destruct Hwf; lia|].
  rewrite forallb_forall.
  rewrite (hash_params std_hash bf (foldl (insert std_hash) bf items) x
             (inserts_size _ _) (inserts_num_hashes _ _)).
  split.
  - intros Hall h Hh.
    pose proof (hash_in_range std_hash bf x h Hwf Hh) as Hr.
    specialize (Hall h (proj1 (list_elem_of_In _ _) Hh)).
    apply bit_after_inserts in Hall as [Hinit|?]; [|done|done|lia].
    by rewrite Hclear in Hinit.
  - intros Hall h Hh%list_elem_of_In.
    pose proof (hash_in_range std_hash bf x h Hwf Hh) as Hr.
    apply bit_after_inserts; [done|lia|]. right. by apply Hall.
Qed.

Lemma insert_comm bf x y :
  insert std_hash (insert std_hash bf x) y
  = insert std_hash (insert std_hash bf y) x.
Proof.
  unfold BloomFilter.insert at 1 3.
  rewrite !insert_size.
  destruct (bit_array_size bf =? 0) eqn:Hm.
  { unfold BloomFilter.insert. by rewrite Hm. }
  rewrite !insert_num_hashes.
  rewrite (hash_params std_hash bf (insert std_hash bf x) y
             (insert_size _ _ _) (insert_num_hashes _ _ _)).
  rewrite (hash_params std_hash bf (insert std_hash bf y) x
             (insert_size _ _ _) (insert_num_hashes _ _ _)).
  unfold BloomFilter.insert. rewrite Hm. cbn [bit_array current_insertions].
  by rewrite set_bits_comm.
Qed.

Lemma inserts_perm bf items items' :
  items ≡ₚ items' ->
  foldl (insert std_hash) bf items = foldl (insert std_hash) bf items'.
Proof.
  intros Hp. revert bf.
  induction Hp as [|x l l' _ IH|x y l|l l' l'' _ IH1 _ IH2]; intros bf.
  - done.
  - cbn [foldl]. apply IH.
  - cbn [foldl]. by rewrite insert_comm.
  - by rewrite IH1.
Qed.

Lemma insert_again_bits bf x :
  bit_array (insert std_hash (insert std_hash bf x) x)
  = bit_array (insert std_hash bf x).
Proof.
  unfold BloomFilter.insert at 1. rewrite insert_size.
  destruct (bit_array_size bf =? 0) eqn:Hm; [done|].
  cbn [bit_array].
  rewrite (hash_params std_hash bf (insert std_hash bf x) x
             (insert_size _ _ _) (insert_num_hashes _ _ _)).
  unfold BloomFilter.insert. rewrite Hm. cbn [bit_array].
  apply set_bits_idemp.
Qed.

End AnyStdHash.

(** X16.  A filter that has received no item answers [false] for every
    item, with either constructor: the answer [true] always comes from
    insertions. *)
Theorem fresh_filter_contains_nothing
    (std_hash : string -> Z) (size : N) (num_hashes : Z)
    (out_size : N) (out_num_hashes : positive) (x : string) :
  possiblyContains std_hash (new_size_hashes size num_hashes) x = false /\
  possiblyContains std_hash (new_optimal out_size out_num_hashes) x = false.
Proof.
  assert (forall bf, wf bf -> 0 < num_hash_functions bf ->
            (forall h, get_bit (bit_array bf) h = false) ->
            possiblyContains std_hash bf x = false) as Hfresh.
  { intros bf Hwf Hk Hclear. unfold BloomFilter.possiblyContains.
    destruct (bit_array_size bf =? 0); [done|].
    destruct (hash_first std_hash bf x Hwf Hk) as [hs ->].
    cbn [forallb]. by rewrite Hclear. }
  split; apply Hfresh.
  - apply new_size_hashes_wf.
  - unfold new_size_hashes. cbn. destruct (num_hashes <=? 0) eqn:E; lia.
  - intros h. apply get_bit_replicate.
  - apply new_optimal_wf.
  - unfold new_optimal. cbn. lia.
  - intros h. apply get_bit_replicate.
Qed.

(** X17.  What a filter answers after a sequence of insertions, exactly:
    [possiblyContains(x)] is true if and only if every position [hash]
    computes for [x] is a position it computes for some inserted item.  A
    false positive is an item all of whose positions are covered by the
    inserted ones. *)
Theorem possiblyContains_exact
    (std_hash : string -> Z) (size : N) (num_hashes : Z)
    (items : list string) (x : string) :
  let bf := new_size_hashes size num_hashes in
  possiblyContains std_hash (foldl (insert std_hash) bf items) x = true <->
  forall h, h ∈ hash std_hash bf x ->
    exists y, y ∈ items /\ h ∈ hash std_hash bf y.
Proof.
  intros bf. apply possiblyContains_spec.
  - apply new_size_hashes_wf.
  - intros h. apply get_bit_replicate.
Qed.

(** X18.  The state of the filter does not depend on the order of the
    insertions, and inserting an item a second time changes the insertion
    counter only, not a single bit. *)
Theorem insert_order_irrelevant
    (std_hash : string -> Z) (bf : t) (items items' : list string)
    (x : string) :
  items ≡ₚ items' ->
  foldl (insert std_hash) bf items = foldl (insert std_hash) bf items' /\
  bit_array (insert std_hash (insert std_hash bf x) x)
  = bit_array (insert std_hash bf x).
Proof.
  intros Hp. split; [by apply inserts_perm | apply insert_again_bits].
Qed.

Lemma insert_order_irrelevant_witness :
  foldl (insert (fun s => Z.of_nat (String.length s)))
        (new_size_hashes 16 3) ["a"; "bb"; "ccc"]
  = foldl (insert (fun s => Z.of_nat (String.length s)))
          (new_size_hashes 16 3) ["ccc"; "a"; "bb"].
Proof.
  refine (proj1 (insert_order_irrelevant
                   (fun s => Z.of_nat (String.length s))
                   (new_size_hashes 16 3)
                   ["a"; "bb"; "ccc"] ["ccc"; "a"; "bb"] "a" _)).
  change ["ccc"; "a"; "bb"] with (["ccc"] ++ ["a"; "bb"]).
  change ["a"; "bb"; "ccc"] with (["a"; "bb"] ++ ["ccc"]).
  apply Permutation_app_comm.
Defined.

(** X19.  [hashFunction2] is DJB2 in 64-bit arithmetic: the shift-and-add
    of the loop is multiplication by 33 modulo 2^64, the hash of a
    concatenation continues the hash of its first part, and the value is a
    64-bit number. *)
Theorem hashFunction2_djb2 (s : string) (c : Ascii.ascii) :
  hashFunction2 (s ++ String c "")%string
  = wrap64 (33 * hashFunction2 s + Z.of_N (Ascii.N_of_ascii c)) /\
  (forall s', hashFunction2 (s ++ s')%string
              = hashFunction2_loop (hashFunction2 s) s') /\
  0 <= hashFunction2 s < 2 ^ 64.
Proof.
  unfold hashFunction2. split; [|split].
  - by rewrite hashFunction2_loop_app, hashFunction2_loop_step.
  - intros s'. apply hashFunction2_loop_app.
  - apply hashFunction2_loop_range. lia.
Qed.

End BloomFilterExtra.

(* ===================================================================== *)
(** * The trie as a map with longest-prefix lookup *)
(* ===================================================================== *)

Module CompressedTrieFacts.
Import Classifier CompressedTrie.

Lemma find_set_child_eq c n cs : find_child c (set_child c n cs) = Some n.
Proof.
  induction cs as [|[c' n'] cs IH]; cbn.
  - by rewrite decide_True.
  - destruct (decide (c = c')) as [->|Hne]; cbn.
    + by rewrite decide_True.
    + by rewrite decide_False.
Qed.

Lemma find_set_child_ne c c' n cs :
  c' <> c -> find_child c' (set_child c n cs) = find_child c' cs.
Proof.
  intros Hne. induction cs as [|[c0 n0] cs IH]; cbn.
  - by rewrite decide_False.
  - destruct (decide (c = c0)) as [->|Hne0]; cbn.
    + by rewrite !decide_False.
    + destruct (decide (c' = c0)); [done | apply IH].
Qed.

Lemma is_prefix_nil s : is_prefix "" s.
Proof. by exists s. Qed.

Lemma is_prefix_refl s : is_prefix s s.
Proof.
  exists ""%string. induction s as [|c s IH]; [done|].
  change (String c s = String c (s ++ "")%string). by f_equal.
Qed.

Lemma is_prefix_cons c q c' s :
  is_prefix (String c q) (String c' s) <-> c = c' /\ is_prefix q s.
Proof.
  unfold is_prefix. split.
  - intros [k [= -> ->]]. split; [done|]. by exists k.
  - intros [-> [k ->]]. by exists k.
Qed.

Lemma is_prefix_of_nil q : is_prefix q "" -> q = ""%string.
Proof. intros [k Hk]. by destruct q. Qed.

Lemma is_prefix_length q s :
  is_prefix q s -> (String.length q <= String.length s)%nat.
Proof.
  revert s. induction q as [|c q IH]; intros s; [cbn; lia|].
  destruct s as [|c' s]; [by intros ?%is_prefix_of_nil|].
  intros [_ H]%is_prefix_cons. specialize (IH _ H). cbn. lia.
Qed.

Lemma is_prefix_same_length q q' s :
  is_prefix q s -> is_prefix q' s -> String.length q = String.length q' ->
  q = q'.
Proof.
  revert q' s. induction q as [|c q IH]; intros q' s Hq Hq' Hlen.
  { by destruct q'. }
  destruct q' as [|c' q']; [done|].
  destruct s as [|c0 s]; [by apply is_prefix_of_nil in Hq|].
  apply is_prefix_cons in Hq as [-> Hq].
  apply is_prefix_cons in Hq' as [-> Hq'].
  f_equal. apply (IH q' s); auto.
Qed.

Lemma entry_nil t :
  entry t "" = if is_end_of_prefix t then Some (next_hop_info t) else None.
Proof. done. Qed.

Lemma entry_cons t c q :
  entry t (String c q) = (n ← find_child c (children t); entry n q).
Proof. unfold entry. cbn. by destruct (find_child c (children t)). Qed.

Lemma entry_new q : entry TrieNode_new q = None.
Proof. by destruct q. Qed.

(** The loop returns the marked node of the longest non-empty prefix of
    the address that has one, and the node it started with when there is
    none. *)
Lemma longest_match_spec cur best ip :
  (lookup_loop cur best ip = best /\
   forall q, q <> ""%string -> is_prefix q ip -> entry cur q = None) \/
  (exists q n,
     is_prefix q ip /\ node_at cur q = Some n /\
     is_end_of_prefix n = true /\ lookup_loop cur best ip = Some n /\
     forall q', is_prefix q' ip ->
       (String.length q < String.length q')%nat -> entry cur q' = None).
Proof.
  revert cur best. induction ip as [|c ip IH]; intros cur best.
  { left. split; [done|]. by intros q Hq ->%is_prefix_of_nil. }
  cbn [lookup_loop].
  destruct (find_child c (children cur)) as [next|] eqn:Hc.
  2:{ left. split; [done|]. intros [|c' q] Hq; [done|].
      intros [<- _]%is_prefix_cons. by rewrite entry_cons, Hc. }
  destruct (IH next (if is_end_of_prefix next then Some next else best))
    as [[Hres Hnone] | (q & n & Hq & Hn & He & Hres & Hlong)].
  - destruct (is_end_of_prefix next) eqn:Hend.
    + right. exists (String c ""), next.
      split; [apply is_prefix_cons; auto using is_prefix_nil|].
      split; [by cbn; rewrite Hc|]. split; [done|]. split; [done|].
      intros [|c' q'] Hq' Hlen; [cbn in Hlen; lia|].
      apply is_prefix_cons in Hq' as [<- Hq'].
      rewrite entry_cons, Hc. cbn. apply Hnone; [|done].
      intros ->. cbn in Hlen. lia.
    + left. split; [done|]. intros [|c' q] Hne; [done|].
      intros [<- Hq]%is_prefix_cons. rewrite entry_cons, Hc. cbn.
      destruct q as [|c1 q1]; [by rewrite entry_nil, Hend|].
      by apply Hnone.
  - right. exists (String c q), n.
    split; [by apply is_prefix_cons|].
    split; [by cbn; rewrite Hc|]. split; [done|]. split; [done|].
    intros [|c' q'] Hq' Hlen; [cbn in Hlen; lia|].
    apply is_prefix_cons in Hq' as [<- Hq'].
    rewrite entry_cons, Hc. cbn. apply Hlong; [done|]. cbn in Hlen. lia.
Qed.

Lemma lookup_spec t ip :
  (forall q v,
     is_prefix q ip -> entry t q = Some v ->
     (forall q', is_prefix q' ip ->
        (String.length q < String.length q')%nat -> entry t q' = None) ->
     lookup t ip = v) /\
  ((forall q, is_prefix q ip -> entry t q = None) -> lookup t ip = -1).
Proof.
  unfold lookup.
  destruct (longest_match_spec t
              (if is_end_of_prefix t then Some t else None) ip)
    as [[-> Hnone] | (q0 & n & Hq0 & Hn & He & -> & Hlong)].
  - split.
    + intros q v Hq Hv _. destruct q as [|c q].
      * rewrite entry_nil in Hv. by destruct (is_end_of_prefix t); simplify_eq.
      * by rewrite Hnone in Hv.
    + intros Hall. specialize (Hall "" (is_prefix_nil ip)).
      rewrite entry_nil in Hall. by destruct (is_end_of_prefix t).
  - assert (entry t q0 = Some (next_hop_info n)) as Hentry.
    { unfold entry. rewrite Hn. cbn. by rewrite He. }
    split.
    + intros q v Hq Hv Hlongest.
      destruct (lt_eq_lt_dec (String.length q) (String.length q0))
        as [[Hlt|Heq]|Hgt].
      * rewrite (Hlongest q0 Hq0 Hlt) in Hentry. done.
      * assert (q = q0) as -> by by eapply is_prefix_same_length.
        congruence.
      * rewrite (Hlong q Hq Hgt) in Hv. done.
    + intros Hall. by rewrite (Hall q0 Hq0) in Hentry.
Qed.

Lemma insert_entry t p v q :
  entry (insert t p v) q = if decide (q = p) then Some v else entry t q.
Proof.
  revert t q. induction p as [|c p IH]; intros t q.
  - cbn [insert]. destruct q as [|c' q].
    + by rewrite decide_True.
    + rewrite decide_False by done. by rewrite !entry_cons.
  - cbn [insert]. destruct q as [|c' q].
    + rewrite decide_False by done. by rewrite !entry_nil.
    + rewrite !entry_cons. cbn [children].
      destruct (decide (c' = c)) as [->|Hne].
      * rewrite find_set_child_eq. cbn. rewrite IH.
        destruct (decide (q = p)) as [->|Hqp].
        { by rewrite decide_True. }
        rewrite decide_False by congruence.
        destruct (find_child c (children t)); [done|]. apply entry_new.
      * rewrite find_set_child_ne by done.
        by rewrite decide_False by congruence.
Qed.

Lemma remove_entry t p q :
  entry (remove t p) q = if decide (q = p) then None else entry t q.
Proof.
  revert t q. induction p as [|c p IH]; intros t q.
  - cbn [remove]. destruct q as [|c' q].
    + rewrite decide_True by done. rewrite entry_nil.
      by destruct (is_end_of_prefix t) eqn:E; [|rewrite E].
    + rewrite decide_False by done.
      destruct (is_end_of_prefix t); [|done]. by rewrite !entry_cons.
  - cbn [remove]. destruct q as [|c' q].
    + rewrite decide_False by done.
      destruct (find_child c (children t)); [|done]. by rewrite !entry_nil.
    + destruct (find_child c (children t)) as [child|] eqn:Hc.
      * rewrite !entry_cons. cbn [children].
        destruct (decide (c' = c)) as [->|Hne].
        { rewrite find_set_child_eq, Hc. cbn. rewrite IH.
          destruct (decide (q = p)) as [->|Hqp].
          - by rewrite decide_True.
          - by rewrite decide_False by congruence. }
        rewrite find_set_child_ne by done.
        by rewrite decide_False by congruence.
      * destruct (decide (String c' q = String c p)) as [[= -> ->]|Hne];
          [|done].
        by rewrite entry_cons, Hc.
Qed.

(** X20.  [lookup] is longest-prefix match on the marked paths: it returns
    the next hop stored for the longest prefix of the address that has an
    entry, and -1 when no prefix of the address has one. *)
Theorem lookup_longest_prefix (t : TrieNode) (ip : string) :
  (forall q v,
     is_prefix q ip -> entry t q = Some v ->
     (forall q', is_prefix q' ip ->
        (String.length q < String.length q')%nat -> entry t q' = None) ->
     lookup t ip = v) /\
  ((forall q, is_prefix q ip -> entry t q = None) -> lookup t ip = -1) /\
  lookup CompressedTrie_new ip = -1.
Proof.
  split; [apply lookup_spec|]. split; [apply lookup_spec|].
  apply lookup_spec. intros q _. apply entry_new.
Qed.

(** X21.  [insert(prefix, next_hop)] sets the entry of [prefix] to
    [next_hop] and changes the entry of no other string, whatever the trie
    held before; looking the prefix itself up afterwards returns
    [next_hop]. *)
Theorem insert_sets_one_entry (t : TrieNode) (p : string) (v : Z) :
  (forall q,
     entry (insert t p v) q = if decide (q = p) then Some v else entry t q) /\
  lookup (insert t p v) p = v.
Proof.
  split; [intros q; apply insert_entry|].
  apply (proj1 (lookup_spec (insert t p v) p) p v).
  - apply is_prefix_refl.
  - rewrite insert_entry. by rewrite decide_True.
  - intros q' Hq' Hlen. apply is_prefix_length in Hq'. lia.
Qed.

(** X22.  [remove(prefix)] clears the entry of [prefix] and changes the
    entry of no other string; it leaves the trie as it is when [prefix]
    has no entry. *)
Theorem remove_clears_one_entry (t : TrieNode) (p : string) :
  (forall q,
     entry (remove t p) q = if decide (q = p) then None else entry t q) /\
  (forall ip, entry t p = None ->
     lookup (remove t p) ip = lookup t ip).
Proof.
  split; [intros q; apply remove_entry|].
  intros ip Hp.
  assert (forall q, entry (remove t p) q = entry t q) as Hsame.
  { intros q. rewrite remove_entry. by destruct (decide (q = p)) as [->|]. }
  clear Hp. unfold lookup.
  assert (forall n n', (forall q, entry n q = entry n' q) ->
            is_end_of_prefix n = is_end_of_prefix n' /\
            (is_end_of_prefix n = true -> next_hop_info n = next_hop_info n'))
    as Hroot.
  { intros n n' H. specialize (H ""%string). rewrite !entry_nil in H.
    destruct (is_end_of_prefix n), (is_end_of_prefix n'); naive_solver. }
  destruct (lookup_spec (remove t p) ip) as [Hsome Hnone].
  destruct (lookup_spec t ip) as [Hsome' Hnone'].
  unfold lookup in *.
  destruct (longest_match_spec t (if is_end_of_prefix t then Some t else None)
              ip) as [[Hres Hno] | (q0 & n & Hq0 & Hn & He & Hres & Hlong)].
  - destruct (is_end_of_prefix t) eqn:Hend.
    + rewrite Hres. apply (Hsome ""%string).
      * apply is_prefix_nil.
      * by rewrite Hsame, entry_nil, Hend.
      * intros q' Hq' Hlen. rewrite Hsame. apply Hno; [|done].
        intros ->. cbn in Hlen. lia.
    + rewrite Hres. apply Hnone. intros q Hq. rewrite Hsame.
      destruct q as [|c q]; [by rewrite entry_nil, Hend|]. by apply Hno.
  - rewrite Hres. apply (Hsome q0); [done| |].
    + rewrite Hsame. unfold entry. rewrite Hn. cbn. by rewrite He.
    + intros q' Hq' Hlen. rewrite Hsame. by apply Hlong.
Qed.

End CompressedTrieFacts.

(* ===================================================================== *)
(** * The hash table as a store of keys *)
(* ===================================================================== *)

Module ConcurrentHashTableFacts.
Import ConcurrentHashTable.

(** *** Index arithmetic *)

Lemma wrap64_small z : 0 <= z < 2 ^ 64 -> wrap64 z = z.
Proof. intros. unfold wrap64. by apply Z.mod_small. Qed.

Lemma slot_cases cap i p :
  0 < cap < 2 ^ 63 -> 0 <= i < cap -> 0 <= p <= cap ->
  wrap64 (i + p) mod cap = if i + p <? cap then i + p else i + p - cap.
Proof.
  intros Hc Hi Hp. rewrite wrap64_small by lia.
  destruct (i + p <? cap) eqn:E.
  - apply Z.mod_small. lia.
  - replace (i + p) with (i + p - cap + 1 * cap) at 1 by lia.
    rewrite Z_mod_plus_full. apply Z.mod_small. lia.
Qed.

Lemma slot_range cap i p :
  0 < cap < 2 ^ 63 -> 0 <= i < cap -> 0 <= p <= cap ->
  0 <= wrap64 (i + p) mod cap < cap.
Proof. intros. apply Z.mod_pos_bound. lia. Qed.

Lemma slot_zero cap i :
  0 < cap < 2 ^ 63 -> 0 <= i < cap -> wrap64 (i + 0) mod cap = i.
Proof.
  intros. rewrite slot_cases by lia. destruct (i + 0 <? cap) eqn:E; lia.
Qed.

Lemma slot_inj cap i p q :
  0 < cap < 2 ^ 63 -> 0 <= i < cap -> 0 <= p < cap -> 0 <= q < cap ->
  wrap64 (i + p) mod cap = wrap64 (i + q) mod cap -> p = q.
Proof.
  intros Hc Hi Hp Hq. rewrite !slot_cases by lia.
  destruct (i + p <? cap) eqn:E1, (i + q <? cap) eqn:E2; lia.
Qed.

Lemma slot_surj cap i n :
  0 < cap < 2 ^ 63 -> 0 <= i < cap -> 0 <= n < cap ->
  exists p, 0 <= p < cap /\ wrap64 (i + p) mod cap = n.
Proof.
  intros Hc Hi Hn.
  exists (if i <=? n then n - i else n - i + cap).
  destruct (i <=? n) eqn:E.
  - split; [lia|]. rewrite slot_cases by lia.
    destruct (i + (n - i) <? cap) eqn:E1; lia.
  - split; [lia|]. rewrite slot_cases by lia.
    destruct (i + (n - i + cap) <? cap) eqn:E1; lia.
Qed.

(** *** Counting slots *)

Lemma filter_insert_length {A} (P : A -> Prop) `{forall x, Decision (P x)}
    (l : list A) i x e :
  l !! i = Some e ->
  (length (filter P (<[i:=x]> l)) + (if decide (P e) then 1 else 0)
   = length (filter P l) + (if decide (P x) then 1 else 0))%nat.
Proof.
  revert i. induction l as [|a l IH]; intros [|i] Hl; try done.
  - injection Hl as ->.
    change (<[0%nat:=x]> (e :: l)) with (x :: l).
    rewrite !filter_cons.
    destruct (decide (P e)), (decide (P x)); cbn; lia.
  - change (<[S i:=x]> (a :: l)) with (a :: <[i:=x]> l).
    rewrite !filter_cons. specialize (IH i Hl).
    destruct (decide (P a)); cbn; lia.
Qed.

Lemma filter_length_0 {A} (P : A -> Prop) `{forall x, Decision (P x)}
    (l : list A) :
  length (filter P l) = 0%nat <-> forall x, x ∈ l -> ~ P x.
Proof.
  induction l as [|a l IH].
  - split; [|done]. by intros _ x ?%elem_of_nil.
  - rewrite filter_cons. destruct (decide (P a)) as [Ha|Ha].
    + split; [done|]. intros Hall. by destruct (Hall a (list_elem_of_here _ _)).
    + rewrite IH. split.
      * intros Hall x [->|?]%elem_of_cons; auto.
      * intros Hall x Hx. by apply Hall, list_elem_of_further.
Qed.

Lemma stored_0 tbl k :
  stored tbl k = 0%nat <-> forall e, e ∈ table tbl -> holds k e = false.
Proof.
  unfold stored. rewrite filter_length_0. split; intros Hall e He.
  - specialize (Hall e He). by destruct (holds k e).
  - by rewrite (Hall e He).
Qed.

Lemma used_le tbl : (used tbl <= length (table tbl))%nat.
Proof. apply length_filter. Qed.

(** *** The three loops *)

Section Loops.

Variable tbl : t.
Variable k : string.
Variable i : Z.
Hypothesis Hwf : wf tbl.
Hypothesis Hi : 0 <= i < capacity tbl.

Local Notation slot p := (wrap64 (i + p) mod capacity tbl).

Lemma slot_entry p :
  0 <= p <= capacity tbl -> is_Some (table tbl !! Z.to_nat (slot p)).
Proof.
  intros Hp. destruct Hwf as [Hc Hlen _].
  apply lookup_lt_is_Some. rewrite Hlen.
  pose proof (slot_range (capacity tbl) i p Hc Hi Hp). lia.
Qed.

Lemma slot_next_not_initial p :
  0 <= p -> p + 1 < capacity tbl -> (slot (p + 1) =? i) = false.
Proof.
  intros Hp Hlt. destruct Hwf as [Hc _ _].
  rewrite slot_cases by lia.
  destruct (i + (p + 1) <? capacity tbl) eqn:E; lia.
Qed.

Lemma lookup_loop_spec fuel p :
  0 <= p -> p + Z.of_nat fuel = capacity tbl -> (0 < fuel)%nat ->
  (exists j e,
     p <= j < capacity tbl /\
     table tbl !! Z.to_nat (slot j) = Some e /\ holds k e = true /\
     (forall j' e', p <= j' < j ->
        table tbl !! Z.to_nat (slot j') = Some e' -> holds k e' = false) /\
     lookup_loop fuel tbl k i p (slot p) = Some (Some (value e))) \/
  ((forall j e, p <= j < capacity tbl ->
      table tbl !! Z.to_nat (slot j) = Some e -> holds k e = false) /\
   lookup_loop fuel tbl k i p (slot p) = Some None).
Proof.
  revert p. induction fuel as [|fuel IH]; intros p Hp Hfuel Hpos; [lia|].
  destruct (slot_entry p) as [e He]; [lia|].
  cbn [lookup_loop]. rewrite He. cbn [mbind option_bind].
  fold (holds k e). destruct (holds k e) eqn:Hh.
  { left. exists p, e. repeat split; auto; try (intros; lia). }
  destruct Hwf as [Hc _ _].
  rewrite (wrap64_small (p + 1)) by lia.
  destruct (p + 1 >=? capacity tbl) eqn:Hlast.
  { right. split; [|done]. intros j e' Hj He'.
    assert (j = p) as -> by lia. congruence. }
  rewrite slot_next_not_initial by lia.
  destruct (IH (p + 1)) as [(j & e1 & Hj & He1 & Hh1 & Hfirst & ->)
                          | [Hnone ->]]; try lia.
  - left. exists j, e1. repeat split; auto; try lia.
    intros j' e' Hj' He'. destruct (decide (j' = p)) as [->|Hne].
    + congruence.
    + apply (Hfirst j' e'); [lia | done].
  - right. split; [|done]. intros j e' Hj He'.
    destruct (decide (j = p)) as [->|Hne]; [congruence|].
    apply (Hnone j e'); [lia | done].
Qed.

Lemma insert_loop_spec v fuel p :
  0 <= p -> p + Z.of_nat fuel = capacity tbl -> (0 < fuel)%nat ->
  (exists j e,
     p <= j < capacity tbl /\
     table tbl !! Z.to_nat (slot j) = Some e /\ accepts k e = true /\
     (forall j' e', p <= j' < j ->
        table tbl !! Z.to_nat (slot j') = Some e' -> accepts k e' = false) /\
     insert_loop fuel tbl k v i p (slot p)
     = Some (mk (<[Z.to_nat (slot j) := mkEntry k v true]> (table tbl))
                (if in_use e then current_size tbl
                 else wrap64 (current_size tbl + 1))
                (capacity tbl))) \/
  ((forall j e, p <= j < capacity tbl ->
      table tbl !! Z.to_nat (slot j) = Some e -> accepts k e = false) /\
   insert_loop fuel tbl k v i p (slot p) = Some tbl).
Proof.
  revert p. induction fuel as [|fuel IH]; intros p Hp Hfuel Hpos; [lia|].
  destruct (slot_entry p) as [e He]; [lia|].
  cbn [insert_loop]. rewrite He. cbn [mbind option_bind].
  destruct (in_use e) eqn:Hu; cbn [negb].
  2:{ left. exists p, e. rewrite Hu. repeat split; auto; try (intros; lia).
      unfold accepts. by rewrite Hu. }
  destruct (bool_decide (key e = k)) eqn:Hk.
  { left. exists p, e. rewrite Hu. apply bool_decide_eq_true_1 in Hk as Hk'.
    rewrite Hk'. repeat split; auto; try (intros; lia).
    unfold accepts. by rewrite Hk', bool_decide_eq_true_2, orb_true_r. }
  assert (accepts k e = false) as Hacc by (unfold accepts; by rewrite Hu, Hk).
  destruct Hwf as [Hc _ _].
  rewrite (wrap64_small (p + 1)) by lia.
  destruct (p + 1 >=? capacity tbl) eqn:Hlast.
  { right. split; [|done]. intros j e' Hj He'.
    assert (j = p) as -> by lia. congruence. }
  destruct (IH (p + 1)) as [(j & e1 & Hj & He1 & Hh1 & Hfirst & ->)
                          | [Hnone ->]]; try lia.
  - left. exists j, e1. repeat split; auto; try lia.
    intros j' e' Hj' He'. destruct (decide (j' = p)) as [->|Hne].
    + congruence.
    + apply (Hfirst j' e'); [lia | done].
  - right. split; [|done]. intros j e' Hj He'.
    destruct (decide (j = p)) as [->|Hne]; [congruence|].
    apply (Hnone j e'); [lia | done].
Qed.

Lemma remove_loop_spec fuel p :
  0 <= p -> p + Z.of_nat fuel = capacity tbl -> (0 < fuel)%nat ->
  (exists j e,
     p <= j < capacity tbl /\
     table tbl !! Z.to_nat (slot j) = Some e /\ holds k e = true /\
     remove_loop fuel tbl k i p (slot p)
     = Some (true,
             mk (<[Z.to_nat (slot j) := mkEntry (key e) (value e) false]>
                   (table tbl))
                (wrap64 (current_size tbl - 1)) (capacity tbl))) \/
  remove_loop fuel tbl k i p (slot p) = Some (false, tbl).
Proof.
  revert p. induction fuel as [|fuel IH]; intros p Hp Hfuel Hpos; [lia|].
  destruct (slot_entry p) as [e He]; [lia|].
  cbn [remove_loop]. rewrite He. cbn [mbind option_bind].
  destruct (in_use e) eqn:Hu; [|by right].
  destruct (bool_decide (key e = k)) eqn:Hk.
  { left. exists p, e. repeat split; auto; try lia.
    unfold holds. by rewrite Hu, Hk. }
  destruct Hwf as [Hc _ _].
  rewrite (wrap64_small (p + 1)) by lia.
  destruct (p + 1 >=? capacity tbl) eqn:Hlast; [by right|].
  rewrite slot_next_not_initial by lia.
  destruct (IH (p + 1)) as [(j & e1 & Hj & He1 & Hh1 & ->) | ->];
    try lia; [|by right].
  left. exists j, e1. repeat split; auto; lia.
Qed.

End Loops.

(** A slot that changes without changing its [view] is invisible to
    [lookup]. *)
Lemma lookup_loop_ext tbl tbl' k fuel i p c :
  capacity tbl' = capacity tbl ->
  (forall n, view k <$> (table tbl' !! n) = view k <$> (table tbl !! n)) ->
  lookup_loop fuel tbl' k i p c = lookup_loop fuel tbl k i p c.
Proof.
  intros Hcap Hview. revert p c.
  induction fuel as [|fuel IH]; intros p c; [done|].
  cbn [lookup_loop]. specialize (Hview (Z.to_nat c)). rewrite Hcap.
  destruct (table tbl' !! Z.to_nat c) as [e'|],
           (table tbl !! Z.to_nat c) as [e|]; try done.
  cbn [mbind option_bind]. cbn in Hview. unfold view, holds in Hview.
  destruct (in_use e' && bool_decide (key e' = k)),
           (in_use e && bool_decide (key e = k)); try done.
  by rewrite IH.
Qed.

Lemma view_insert (l : list TableEntry) k s x e :
  l !! s = Some e -> view k x = view k e ->
  forall n, view k <$> (<[s:=x]> l !! n) = view k <$> (l !! n).
Proof.
  intros He Hv n. destruct (decide (n = s)) as [->|Hne].
  - rewrite list_lookup_insert_eq by (by eapply lookup_lt_Some).
    rewrite He. cbn. by rewrite Hv.
  - by rewrite list_lookup_insert_ne.
Qed.

Lemma view_other k k' e : key e = k -> k' <> k -> view k' e = None.
Proof.
  intros Hk Hne. unfold view, holds.
  rewrite bool_decide_eq_false_2 by congruence. by rewrite andb_false_r.
Qed.

Lemma home_range std_hash tbl k :
  wf tbl -> 0 <= hashFunction std_hash k mod capacity tbl < capacity tbl.
Proof. intros [Hc _ _]. apply Z.mod_pos_bound. lia. Qed.

Lemma at_every_slot tbl i (P : TableEntry -> Prop) :
  wf tbl -> 0 <= i < capacity tbl ->
  (forall j e, 0 <= j < capacity tbl ->
     table tbl !! Z.to_nat (wrap64 (i + j) mod capacity tbl) = Some e -> P e) ->
  forall e, e ∈ table tbl -> P e.
Proof.
  intros [Hc Hlen Hsz] Hi Hall e He.
  apply list_elem_of_lookup in He as [n Hn].
  pose proof (lookup_lt_Some _ _ _ Hn) as Hlt. rewrite Hlen in Hlt.
  destruct (slot_surj (capacity tbl) i (Z.of_nat n)) as (j & Hj & Hs);
    [lia..|].
  apply (Hall j e Hj). by rewrite Hs, Nat2Z.id.
Qed.

Lemma lookup_not_stored std_hash tbl k :
  wf tbl -> stored tbl k = 0%nat -> lookup std_hash tbl k = Some None.
Proof.
  intros Hwf H0. pose proof (home_range std_hash tbl k Hwf) as Hi.
  unfold lookup. pose proof Hwf as [Hc Hlen Hsz].
  replace (capacity tbl =? 0) with false by lia.
  pose proof (lookup_loop_spec tbl k _ Hwf Hi
                (Z.to_nat (capacity tbl)) 0) as Hspec.
  rewrite slot_zero in Hspec by lia.
  destruct Hspec as [(j & e & Hj & He & Hh & _ & _) | [_ ->]];
    try lia; [|done].
  rewrite stored_0 in H0.
  rewrite (H0 e) in Hh; [done|]. by eapply list_elem_of_lookup_2.
Qed.

Lemma lookup_stored std_hash tbl k :
  wf tbl -> stored tbl k <> 0%nat ->
  exists e, e ∈ table tbl /\ holds k e = true /\
            lookup std_hash tbl k = Some (Some (value e)).
Proof.
  intros Hwf Hne. pose proof (home_range std_hash tbl k Hwf) as Hi.
  unfold lookup. pose proof Hwf as [Hc Hlen Hsz].
  replace (capacity tbl =? 0) with false by lia.
  pose proof (lookup_loop_spec tbl k _ Hwf Hi
                (Z.to_nat (capacity tbl)) 0) as Hspec.
  rewrite slot_zero in Hspec by lia.
  destruct Hspec as [(j & e & Hj & He & Hh & _ & ->) | [Hnone _]];
    try lia.
  - exists e. split; [by eapply list_elem_of_lookup_2 | done].
  - destruct Hne. apply stored_0.
    by apply (at_every_slot tbl _ (fun e => holds k e = false) Hwf Hi).
Qed.

(** X23.  [lookup] scans the whole table: it answers false exactly when no
    slot in use holds the key, and otherwise answers true with the value
    of a slot in use that holds it.  It always returns. *)
Theorem lookup_finds_stored_key
    (std_hash : string -> Z) (tbl : t) (k : string) :
  wf tbl ->
  (stored tbl k = 0%nat -> lookup std_hash tbl k = Some None) /\
  (stored tbl k <> 0%nat ->
   exists e, e ∈ table tbl /\ holds k e = true /\
             lookup std_hash tbl k = Some (Some (value e))).
Proof.
  intros Hwf. pose proof (home_range std_hash tbl k Hwf) as Hi.
  unfold lookup. destruct Hwf as [Hc Hlen Hsz].
  replace (capacity tbl =? 0) with false by lia.
  pose proof (lookup_loop_spec tbl k _ (mkWf _ Hc Hlen Hsz) Hi
                (Z.to_nat (capacity tbl)) 0) as Hspec.
  rewrite slot_zero in Hspec by lia.
  destruct Hspec as [(j & e & Hj & He & Hh & _ & ->) | [Hnone ->]];
    try lia.
  - assert (e ∈ table tbl) as Hin by (by eapply list_elem_of_lookup_2).
    split.
    + intros H0. rewrite stored_0 in H0. by rewrite (H0 e Hin) in Hh.
    + intros _. by exists e.
  - split; [done|]. intros Hne. destruct Hne. apply stored_0.
    by apply (at_every_slot tbl _ (fun e => holds k e = false)
                (mkWf _ Hc Hlen Hsz) Hi).
Qed.

(** [two_keys] is the table two insertions build. *)
Example two_keys_inserted :
  (tbl ← insert (fun s => Z.of_nat (String.length s)) (new 4) "a" 7;
   insert (fun s => Z.of_nat (String.length s)) tbl "bcdef" 9)
  = Some two_keys.
Proof. by vm_compute. Qed.

Lemma two_keys_wf : wf two_keys.
Proof. split; [cbn; lia | reflexivity | reflexivity]. Qed.

Lemma lookup_finds_stored_key_witness :
  wf two_keys /\
  (stored two_keys "bcdef" <> 0%nat /\
   exists e, e ∈ table two_keys /\ holds "bcdef" e = true /\
     lookup (fun s => Z.of_nat (String.length s)) two_keys "bcdef"
     = Some (Some (value e))) /\
  (stored two_keys "zz" = 0%nat /\
   lookup (fun s => Z.of_nat (String.length s)) two_keys "zz" = Some None).
Proof.
  assert (H1 : stored two_keys "bcdef" <> 0%nat) by (by vm_compute).
  assert (H2 : stored two_keys "zz" = 0%nat) by (by vm_compute).
  pose proof (lookup_finds_stored_key (fun s => Z.of_nat (String.length s))
                two_keys "bcdef" two_keys_wf) as T1.
  pose proof (lookup_finds_stored_key (fun s => Z.of_nat (String.length s))
                two_keys "zz" two_keys_wf) as T2.
  exact (conj two_keys_wf
           (conj (conj H1 (proj2 T1 H1)) (conj H2 (proj1 T2 H2)))).
Defined.

(** *** Insertion *)

Lemma used_insert tbl s x e :
  table tbl !! s = Some e ->
  (length (filter (fun e => in_use e = true) (<[s:=x]> (table tbl)))
   + (if in_use e then 1 else 0)
   = used tbl + (if in_use x then 1 else 0))%nat.
Proof.
  intros He.
  pose proof (filter_insert_length (fun e => in_use e = true)
                (table tbl) s x e He) as H.
  unfold used. revert H.
  destruct (decide (in_use e = true)) as [E1|E1%not_true_is_false],
           (decide (in_use x = true)) as [E2|E2%not_true_is_false];
    rewrite E1, E2; lia.
Qed.

Lemma stored_insert tbl k s x e :
  table tbl !! s = Some e ->
  (length (filter (fun e => holds k e = true) (<[s:=x]> (table tbl)))
   + (if holds k e then 1 else 0)
   = stored tbl k + (if holds k x then 1 else 0))%nat.
Proof.
  intros He.
  pose proof (filter_insert_length (fun e => holds k e = true)
                (table tbl) s x e He) as H.
  unfold stored. revert H.
  destruct (decide (holds k e = true)) as [E1|E1%not_true_is_false],
           (decide (holds k x = true)) as [E2|E2%not_true_is_false];
    rewrite E1, E2; lia.
Qed.

Lemma insert_spec std_hash tbl k v :
  wf tbl ->
  exists tbl',
    insert std_hash tbl k v = Some tbl' /\ wf tbl' /\
    ((exists e, e ∈ table tbl /\ accepts k e = true) ->
     lookup std_hash tbl' k = Some (Some v)) /\
    ((forall e, e ∈ table tbl -> accepts k e = false) -> tbl' = tbl) /\
    (forall k', k' <> k -> lookup std_hash tbl' k' = lookup std_hash tbl k').
Proof.
  intros Hwf. pose proof (home_range std_hash tbl k Hwf) as Hi.
  unfold insert. pose proof Hwf as [Hc Hlen Hsz].
  replace (capacity tbl =? 0) with false by lia.
  pose proof (insert_loop_spec tbl k _ Hwf Hi v
                (Z.to_nat (capacity tbl)) 0) as Hspec.
  rewrite slot_zero in Hspec by lia.
  destruct Hspec as [(j & e & Hj & He & Hacc & Hfirst & ->) | [Hnone ->]];
    try lia.
  2:{ exists tbl. split; [done|]. split; [done|]. split; [|done].
      intros (e & Hin & Hacc).
      pose proof (at_every_slot tbl _ (fun e => accepts k e = false)
                    Hwf Hi Hnone e Hin) as Hno.
      cbn beta in Hno. congruence. }
  set (i := hashFunction std_hash k mod capacity tbl) in *.
  set (s := Z.to_nat (wrap64 (i + j) mod capacity tbl)) in *.
  set (tbl' := mk _ _ _).
  assert (wf tbl') as Hwf'.
  { split; cbn [capacity table current_size tbl']; [done| |].
    - by rewrite length_insert.
    - pose proof (used_insert tbl s (mkEntry k v true) e He) as Hu.
      pose proof (used_le tbl) as Hle. rewrite Hlen in Hle.
      unfold used at 1. unfold tbl'. cbn [table]. cbn [in_use] in Hu.
      destruct (in_use e); [lia|].
      rewrite wrap64_small by lia. lia. }
  exists tbl'. split; [done|]. split; [done|]. split; [|split].
  - intros _. unfold lookup. cbn [capacity tbl'].
    replace (capacity tbl =? 0) with false by lia. fold i.
    pose proof (lookup_loop_spec tbl' k i Hwf' Hi
                  (Z.to_nat (capacity tbl)) 0) as Hspec.
    cbn [capacity tbl'] in Hspec. rewrite slot_zero in Hspec by lia.
    assert (table tbl' !! s = Some (mkEntry k v true)) as Hnew.
    { cbn [table tbl']. apply list_lookup_insert_eq.
      by eapply lookup_lt_Some. }
    assert (holds k (mkEntry k v true) = true) as Hholds.
    { unfold holds. cbn. by rewrite bool_decide_eq_true_2. }
    destruct Hspec as [(j1 & e1 & Hj1 & He1 & Hh1 & Hfirst1 & ->)
                      | [Hnone1 _]]; try lia.
    2:{ rewrite (Hnone1 j _ ltac:(lia) Hnew) in Hholds. done. }
    destruct (Z.lt_trichotomy j1 j) as [Hlt|[->|Hgt]].
    + assert (Z.to_nat (wrap64 (i + j1) mod capacity tbl) <> s) as Hne.
      { unfold s. intros Heq.
        pose proof (slot_range (capacity tbl) i j1 Hc Hi ltac:(lia)).
        pose proof (slot_range (capacity tbl) i j Hc Hi ltac:(lia)).
        assert (j1 = j); [|lia].
        apply (slot_inj (capacity tbl) i); lia. }
      cbn [table tbl'] in He1. rewrite list_lookup_insert_ne in He1 by done.
      pose proof (Hfirst j1 e1 ltac:(lia) He1) as Hno.
      unfold accepts in Hno. unfold holds in Hh1.
      destruct (in_use e1), (bool_decide (key e1 = k)); done.
    + fold s in He1. rewrite Hnew in He1. by injection He1 as <-.
    + rewrite (Hfirst1 j _ ltac:(lia) Hnew) in Hholds. done.
  - intros Hall. assert (e ∈ table tbl) as Hin
      by (by eapply list_elem_of_lookup_2).
    rewrite (Hall e Hin) in Hacc. done.
  - intros k' Hne. unfold lookup. cbn [capacity tbl'].
    destruct (capacity tbl =? 0); [done|].
    apply lookup_loop_ext; [done|]. cbn [table tbl'].
    apply (view_insert _ k' s _ e He).
    assert (view k' (mkEntry k v true) = None) as ->
      by (by apply (view_other k)).
    unfold accepts in Hacc. unfold view, holds.
    destruct (in_use e) eqn:Hu; [|done]. cbn in Hacc.
    apply bool_decide_eq_true_1 in Hacc.
    rewrite bool_decide_eq_false_2 by congruence. done.
Qed.

(** X24.  [insert(key, value)] returns with the table well formed; when
    some slot is free or already holds the key, [lookup(key)] afterwards
    answers true with [value]; when every slot is in use by another key
    the table is left as it was; and the answer of [lookup] for every
    other key is the same before and after. *)
Theorem insert_then_lookup
    (std_hash : string -> Z) (tbl : t) (k : string) (v : Z) :
  wf tbl ->
  exists tbl',
    insert std_hash tbl k v = Some tbl' /\ wf tbl' /\
    ((exists e, e ∈ table tbl /\ accepts k e = true) ->
     lookup std_hash tbl' k = Some (Some v)) /\
    ((forall e, e ∈ table tbl -> accepts k e = false) -> tbl' = tbl) /\
    (forall k', k' <> k -> lookup std_hash tbl' k' = lookup std_hash tbl k').
Proof. apply insert_spec. Qed.

Lemma insert_then_lookup_witness :
  exists tbl',
    insert (fun s => Z.of_nat (String.length s)) (new 4) "a" 7 = Some tbl' /\
    wf tbl'.
Proof.
  destruct (insert_then_lookup (fun s => Z.of_nat (String.length s))
              (new 4) "a" 7) as (tbl' & Hins & Hwf & _).
  - split; [cbn; lia | reflexivity | reflexivity].
  - by exists tbl'.
Defined.

(** *** Removal *)

Lemma remove_spec std_hash tbl k :
  wf tbl ->
  exists b tbl',
    remove std_hash tbl k = Some (b, tbl') /\ wf tbl' /\
    (b = false -> tbl' = tbl) /\
    (b = true -> S (stored tbl' k) = stored tbl k /\
                 S (used tbl') = used tbl) /\
    (forall k', k' <> k -> lookup std_hash tbl' k' = lookup std_hash tbl k') /\
    (forall e,
       table tbl !! Z.to_nat (hashFunction std_hash k mod capacity tbl)
       = Some e ->
       in_use e = false -> b = false).
Proof.
  intros Hwf. pose proof (home_range std_hash tbl k Hwf) as Hi.
  unfold remove. pose proof Hwf as [Hc Hlen Hsz].
  replace (capacity tbl =? 0) with false by lia.
  pose proof (remove_loop_spec tbl k _ Hwf Hi
                (Z.to_nat (capacity tbl)) 0) as Hspec.
  rewrite slot_zero in Hspec by lia.
  set (i := hashFunction std_hash k mod capacity tbl) in *.
  assert (forall e, table tbl !! Z.to_nat i = Some e -> in_use e = false ->
            remove_loop (Z.to_nat (capacity tbl)) tbl k i 0 i
            = Some (false, tbl)) as Hhome.
  { intros e He Hu. destruct (Z.to_nat (capacity tbl)) eqn:E; [lia|].
    cbn [remove_loop]. rewrite He. cbn. by rewrite Hu. }
  destruct Hspec as [(j & e & Hj & He & Hh & Hrem) | Hrem]; try lia.
  2:{ exists false, tbl. rewrite Hrem. by repeat (split; [done|]). }
  rewrite Hrem.
  set (s := Z.to_nat (wrap64 (i + j) mod capacity tbl)) in *.
  set (tbl' := mk _ _ _).
  assert (in_use e = true /\ key e = k) as [Hu Hk].
  { pose proof Hh as Hh'. unfold holds in Hh'.
    apply andb_true_iff in Hh' as [Hu' Hk'].
    apply bool_decide_eq_true_1 in Hk'. done. }
  pose proof (used_insert tbl s (mkEntry (key e) (value e) false) e He)
    as Hused.
  pose proof (stored_insert tbl k s (mkEntry (key e) (value e) false) e He)
    as Hstored.
  rewrite Hh in Hstored. rewrite Hu in Hused.
  assert (holds k (mkEntry (key e) (value e) false) = false) as Hfreed
    by done.
  rewrite Hfreed in Hstored. cbn [in_use] in Hused.
  assert (wf tbl') as Hwf'.
  { split; cbn [capacity table current_size tbl']; [done| |].
    - by rewrite length_insert.
    - pose proof (used_le tbl) as Hle. rewrite Hlen in Hle.
      unfold used at 1. unfold tbl'. cbn [table].
      rewrite wrap64_small by lia. lia. }
  exists true, tbl'. split; [done|]. split; [done|].
  split; [done|]. split; [|split].
  - intros _. unfold stored at 1, used at 1. unfold tbl'. cbn [table]. lia.
  - intros k' Hne. unfold lookup. cbn [capacity tbl'].
    destruct (capacity tbl =? 0); [done|].
    apply lookup_loop_ext; [done|]. cbn [table tbl'].
    apply (view_insert _ k' s _ e He).
    rewrite (view_other k k' e) by done.
    by apply (view_other k).
  - intros e0 He0 Hu0. rewrite (Hhome e0 He0 Hu0) in Hrem. done.
Qed.

(** X25.  [remove(key)] returns with the table well formed.  When it
    answers false the table is as it was; when it answers true exactly one
    slot that held the key has been freed and [current_size] has gone down
    by one.  The answer of [lookup] for every other key is unchanged.  It
    answers false as soon as the slot the key hashes to is free, whatever
    the slots after it hold. *)
Theorem remove_frees_one_slot
    (std_hash : string -> Z) (tbl : t) (k : string) :
  wf tbl ->
  exists b tbl',
    remove std_hash tbl k = Some (b, tbl') /\ wf tbl' /\
    (b = false -> tbl' = tbl) /\
    (b = true -> S (stored tbl' k) = stored tbl k /\
                 S (used tbl') = used tbl) /\
    (forall k', k' <> k -> lookup std_hash tbl' k' = lookup std_hash tbl k') /\
    (forall e,
       table tbl !! Z.to_nat (hashFunction std_hash k mod capacity tbl)
       = Some e ->
       in_use e = false -> b = false).
Proof. apply remove_spec. Qed.

Lemma remove_frees_one_slot_witness :
  wf two_keys /\
  exists tbl',
    remove (fun s => Z.of_nat (String.length s)) two_keys "a"
    = Some (true, tbl') /\
    wf tbl' /\
    stored two_keys "a" = 1%nat /\ stored tbl' "a" = 0%nat /\
    used two_keys = 2%nat /\ used tbl' = 1%nat /\
    lookup (fun s => Z.of_nat (String.length s)) tbl' "bcdef"
    = Some (Some 9).
Proof.
  split; [exact two_keys_wf|].
  destruct (remove_frees_one_slot (fun s => Z.of_nat (String.length s))
              two_keys "a" two_keys_wf)
    as (b & tbl' & Hrem & Hwf & _ & Htrue & Hother & _).
  assert (Hb : b = true).
  { vm_compute in Hrem. by injection Hrem as <- _. }
  subst b. destruct (Htrue eq_refl) as [Hs Hu].
  exists tbl'. split; [exact Hrem|]. split; [exact Hwf|].
  assert (H1 : stored two_keys "a" = 1%nat) by (by vm_compute).
  assert (H2 : used two_keys = 2%nat) by (by vm_compute).
  split; [exact H1|]. split; [lia|]. split; [exact H2|]. split; [lia|].
  rewrite (Hother "bcdef") by done. by vm_compute.
Defined.

(** *** The constructor *)

(** X26.  A table built by the constructor with a size a vector can have
    is well formed, has [initial_size] slots (1024 when 0 is asked for),
    none in use, and [lookup] answers false for every key. *)
Theorem new_table_is_empty
    (std_hash : string -> Z) (initial_size : Z) (k : string) :
  0 <= initial_size < 2 ^ 63 ->
  wf (new initial_size) /\
  capacity (new initial_size)
  = (if initial_size =? 0 then 1024 else initial_size) /\
  used (new initial_size) = 0%nat /\
  lookup std_hash (new initial_size) k = Some None.
Proof.
  intros Hn.
  assert (forall e, e ∈ table (new initial_size) -> in_use e = false) as Hfree.
  { intros e [-> _]%elem_of_replicate. done. }
  assert (used (new initial_size) = 0%nat) as Hused.
  { apply filter_length_0. intros e He. by rewrite (Hfree e He). }
  assert (wf (new initial_size)) as Hwf.
  { split.
    - cbn. destruct (initial_size =? 0) eqn:E; lia.
    - cbn. by rewrite length_replicate.
    - by rewrite Hused. }
  split; [done|]. split; [done|]. split; [done|].
  assert (stored (new initial_size) k = 0%nat) as H0.
  { apply stored_0. intros e He. unfold holds. by rewrite (Hfree e He). }
  pose proof (home_range std_hash _ k Hwf) as Hi.
  unfold lookup. destruct Hwf as [Hc Hlen Hsz].
  replace (capacity (new initial_size) =? 0) with false by lia.
  pose proof (lookup_loop_spec (new initial_size) k _ (mkWf _ Hc Hlen Hsz) Hi
                (Z.to_nat (capacity (new initial_size))) 0) as Hspec.
  rewrite slot_zero in Hspec by lia.
  destruct Hspec as [(j & e & Hj & He & Hh & _ & _) | [_ ->]];
    try lia; [|done].
  rewrite stored_0 in H0.
  rewrite (H0 e) in Hh; [done|]. by eapply list_elem_of_lookup_2.
Qed.

Lemma new_table_is_empty_witness :
  lookup (fun s => Z.of_nat (String.length s)) (new 0) "a" = Some None.
Proof.
  refine (proj2 (proj2 (proj2 (new_table_is_empty
                                 (fun s => Z.of_nat (String.length s))
                                 0 "a" _)))).
  lia.
Defined.

(** *** Resizing *)

Lemma insert_shape std_hash tbl k v tbl' :
  wf tbl -> insert std_hash tbl k v = Some tbl' ->
  capacity tbl' = capacity tbl /\ (used tbl' <= S (used tbl))%nat.
Proof.
  intros Hwf. pose proof (home_range std_hash tbl k Hwf) as Hi.
  unfold insert. pose proof Hwf as [Hc Hlen Hsz].
  replace (capacity tbl =? 0) with false by lia.
  pose proof (insert_loop_spec tbl k _ Hwf Hi v
                (Z.to_nat (capacity tbl)) 0) as Hspec.
  rewrite slot_zero in Hspec by lia.
  destruct Hspec as [(j & e & Hj & He & Hacc & Hfirst & ->) | [Hnone ->]];
    try lia; intros [= <-]; [|split; [done | lia]].
  split; [done|].
  pose proof (used_insert tbl _ (mkEntry k v true) e He) as Hu.
  unfold used at 1. cbn [table]. cbn [in_use] in Hu.
  destruct (in_use e); lia.
Qed.

Lemma some_slot_free (l : list TableEntry) :
  (length (filter (fun e => in_use e = true) l) < length l)%nat ->
  exists e, e ∈ l /\ in_use e = false.
Proof.
  induction l as [|a l IH]; cbn [length]; [lia|].
  rewrite filter_cons. destruct (decide (in_use a = true)) as [Ha|Ha].
  - cbn [length]. intros Hlt. destruct IH as (e & He & Hu); [lia|].
    exists e. split; [by apply list_elem_of_further | done].
  - intros _. exists a. split; [apply list_elem_of_here|].
    by destruct (in_use a).
Qed.

Lemma view_holds k e :
  view k e = if in_use e && bool_decide (key e = k) then Some (value e)
             else None.
Proof. done. Qed.

Lemma reinsert_all std_hash n es acc :
  wf acc -> capacity acc = n ->
  (used acc + length (filter (fun e => in_use e = true) es)
   <= Z.to_nat n)%nat ->
  exists acc',
    foldl (reinsert std_hash) (Some acc) es = Some acc' /\
    wf acc' /\ capacity acc' = n /\
    forall k,
      lookup std_hash acc' k
      = match last_binding es k with
        | Some v => Some (Some v)
        | None => lookup std_hash acc k
        end.
Proof.
  revert acc. induction es as [|e es IH]; intros acc Hwf Hcap Hfit.
  { exists acc. by repeat (split; [done|]). }
  cbn [foldl reinsert mbind option_bind]. rewrite filter_cons in Hfit.
  destruct (in_use e) eqn:Hu.
  2:{ rewrite decide_False in Hfit by done.
      destruct (IH acc Hwf Hcap Hfit) as (acc' & -> & Hwf' & Hcap' & Hlook).
      exists acc'. repeat (split; [done|]). intros k. rewrite Hlook.
      cbn [last_binding]. destruct (last_binding es k); [done|].
      by rewrite view_holds, Hu. }
  rewrite decide_True in Hfit by done. cbn [length] in Hfit.
  destruct (insert_spec std_hash acc (key e) (value e) Hwf)
    as (acc1 & Hins & Hwf1 & Hfound & _ & Hframe).
  destruct (insert_shape std_hash acc _ _ _ Hwf Hins) as [Hcap1 Hused1].
  rewrite Hins.
  destruct (IH acc1 Hwf1) as (acc' & -> & Hwf' & Hcap' & Hlook);
    [congruence | lia |].
  exists acc'. repeat (split; [done|]). intros k. rewrite Hlook.
  cbn [last_binding]. destruct (last_binding es k); [done|].
  rewrite view_holds, Hu. cbn [andb].
  destruct (bool_decide (key e = k)) eqn:Hk.
  - apply bool_decide_eq_true_1 in Hk as <-. apply Hfound.
    destruct (some_slot_free (table acc)) as (e0 & He0 & Hu0).
    { destruct Hwf as [_ Hlen _]. rewrite Hlen, Hcap.
      unfold used in Hfit. lia. }
    exists e0. split; [done|]. unfold accepts. by rewrite Hu0.
  - apply bool_decide_eq_false_1 in Hk. apply Hframe. congruence.
Qed.

Lemma last_binding_none es k :
  (forall e, e ∈ es -> holds k e = false) -> last_binding es k = None.
Proof.
  induction es as [|e es IH]; intros Hall; [done|].
  cbn [last_binding]. rewrite IH.
  - unfold view. by rewrite (Hall e (list_elem_of_here _ _)).
  - intros e' He'. by apply Hall, list_elem_of_further.
Qed.

Lemma last_binding_unique es k e :
  (length (filter (fun e => holds k e = true) es) <= 1)%nat ->
  e ∈ es -> holds k e = true -> last_binding es k = Some (value e).
Proof.
  induction es as [|a es IH]; intros Hone Hin Hh.
  { by apply elem_of_nil in Hin. }
  rewrite filter_cons in Hone. cbn [last_binding].
  apply elem_of_cons in Hin as [<- | Hin].
  - rewrite decide_True in Hone by done. cbn [length] in Hone.
    assert (length (filter (fun e => holds k e = true) es) = 0%nat) as H0
      by lia.
    rewrite filter_length_0 in H0. rewrite last_binding_none.
    + unfold view. by rewrite Hh.
    + intros e0 He0. specialize (H0 e0 He0). by destruct (holds k e0).
  - destruct (decide (holds k a = true)) as [Ha|Ha].
    + cbn [length] in Hone.
      assert (length (filter (fun e => holds k e = true) es) = 0%nat) as H0
        by lia.
      rewrite filter_length_0 in H0. by destruct (H0 e Hin).
    + by rewrite IH.
Qed.

(** X27.  [resize(new_capacity)] to a capacity that holds the slots in
    use returns a well-formed table of that capacity in which [lookup]
    answers, for every key, with the value of the last old slot (in index
    order) that held the key, and false when there was none.  When no key
    was held by two slots, every [lookup] answers as before the resize. *)
Theorem resize_keeps_bindings
    (std_hash : string -> Z) (tbl : t) (new_capacity : Z) :
  wf tbl -> 0 < new_capacity < 2 ^ 63 ->
  (used tbl <= Z.to_nat new_capacity)%nat ->
  exists tbl',
    resize std_hash tbl new_capacity = Some tbl' /\
    wf tbl' /\ capacity tbl' = new_capacity /\
    (forall k,
       lookup std_hash tbl' k = Some (last_binding (table tbl) k)) /\
    ((forall k, (stored tbl k <= 1)%nat) ->
     forall k, lookup std_hash tbl' k = lookup std_hash tbl k).
Proof.
  intros Hwf Hn Hfit. unfold resize.
  set (fresh := mk (replicate (Z.to_nat new_capacity) empty_entry) 0
                   new_capacity).
  assert (forall e, e ∈ table fresh -> in_use e = false) as Hfree.
  { intros e [-> _]%elem_of_replicate. done. }
  assert (used fresh = 0%nat) as Hused.
  { apply filter_length_0. intros e He. by rewrite (Hfree e He). }
  assert (wf fresh) as Hwf0.
  { split; [done | by cbn; rewrite length_replicate | by rewrite Hused]. }
  destruct (reinsert_all std_hash new_capacity (table tbl) fresh Hwf0 eq_refl)
    as (tbl' & -> & Hwf' & Hcap' & Hlook).
  { rewrite Hused. exact Hfit. }
  assert (forall k,
            lookup std_hash tbl' k = Some (last_binding (table tbl) k))
    as Hbind.
  { intros k. rewrite Hlook. destruct (last_binding (table tbl) k); [done|].
    apply lookup_not_stored; [done|]. apply stored_0.
    intros e He. unfold holds. by rewrite (Hfree e He). }
  exists tbl'. repeat (split; [done|]).
  intros Hone k. rewrite Hbind.
  destruct (decide (stored tbl k = 0%nat)) as [H0|Hne].
  - rewrite (lookup_not_stored std_hash tbl k Hwf H0). f_equal.
    apply last_binding_none. by apply stored_0.
  - destruct (lookup_stored std_hash tbl k Hwf Hne) as (e & Hin & Hh & ->).
    f_equal. by apply last_binding_unique; [apply Hone| |].
Qed.

Lemma resize_keeps_bindings_witness :
  wf two_keys /\
  exists tbl',
    resize (fun s => Z.of_nat (String.length s)) two_keys 8 = Some tbl' /\
    wf tbl' /\ capacity tbl' = 8 /\
    lookup (fun s => Z.of_nat (String.length s)) tbl' "a" = Some (Some 7) /\
    lookup (fun s => Z.of_nat (String.length s)) tbl' "bcdef"
    = Some (Some 9) /\
    lookup (fun s => Z.of_nat (String.length s)) tbl' "zz" = Some None.
Proof.
  split; [exact two_keys_wf|].
  destruct (resize_keeps_bindings (fun s => Z.of_nat (String.length s))
              two_keys 8 two_keys_wf)
    as (tbl' & Hres & Hwf & Hcap & Hlook & _).
  - lia.
  - vm_compute. lia.
  - exists tbl'. split; [exact Hres|]. split; [exact Hwf|].
    split; [exact Hcap|]. rewrite !Hlook. by vm_compute.
Defined.

End ConcurrentHashTableFacts.

(* ===================================================================== *)
(** * The read-write lock: exclusion *)
(* ===================================================================== *)

Module ReadWriteLockFacts.
Import ReadWriteLock.

Lemma incr_Some x y : incr x = Some y -> y = x + 1.
Proof. unfold incr. destruct (x <? _); congruence. Qed.

Lemma decr_Some x y : decr x = Some y -> y = x - 1.
Proof. unfold decr. destruct (_ <? x); congruence. Qed.

Ltac lock_step H :=
  repeat match type of H with
         | (_ <$> _) = Some _ =>
             apply fmap_Some in H as ([? ?] & H & ->); cbn [snd]
         | (if ?b then _ else _) = Some _ => destruct b eqn:?
         | (_ ≫= _) = Some _ => apply bind_Some in H as (? & ?%incr_Some & H)
         | (_ ≫= _) = Some _ => apply bind_Some in H as (? & ?%decr_Some & H)
         | Some _ = Some _ => injection H as ?; subst
         | None = Some _ => discriminate H
         end.

Lemma step_exclusion s c s' :
  (c = CReadUnlock -> 0 < active_readers_ s) ->
  step s c = Some s' ->
  0 <= active_readers_ s /\
  (writer_active_ s = true -> active_readers_ s = 0) /\
  (writer_active_ s = false -> writer_thread_id_ s = None) ->
  0 <= active_readers_ s' /\
  (writer_active_ s' = true -> active_readers_ s' = 0) /\
  (writer_active_ s' = false -> writer_thread_id_ s' = None).
Proof.
  intros Hproto Hstep (Hr & Hw & Ho).
  destruct c; cbn [step] in Hstep;
    unfold readLock, readLock_ready, readUnlock, tryReadLock,
      writeLock_enter, writeLock_resume, writeLock_ready, writeUnlock,
      tryWriteLock in Hstep;
    try specialize (Hproto eq_refl);
    lock_step Hstep; cbn [active_readers_ writer_active_ writer_thread_id_];
    repeat split; try done; try lia;
    destruct (writer_active_ s); cbn in *; auto; try lia; try done;
    intros; (lia || (by apply Ho) || (by specialize (Hw eq_refl); lia)
             || auto).
Qed.

Lemma run_stuck s calls s' :
  writer_active_ s = true -> writer_thread_id_ s = None ->
  run s calls = Some s' ->
  writer_active_ s' = true /\ writer_thread_id_ s' = None.
Proof.
  revert s. induction calls as [|c calls IH]; intros s Ha Ho.
  { by intros [= <-]. }
  cbn [run]. intros Hrun. apply bind_Some in Hrun as (s1 & Hstep & Hrun).
  apply (IH s1); [| |done].
  - destruct c; cbn [step] in Hstep;
      unfold readLock, readLock_ready, readUnlock, tryReadLock,
        writeLock_enter, writeLock_resume, writeLock_ready, writeUnlock,
        tryWriteLock in Hstep;
      rewrite ?Ha, ?Ho in Hstep; cbn in Hstep;
      rewrite ?andb_false_r in Hstep; cbn in Hstep;
      lock_step Hstep; done.
  - destruct c; cbn [step] in Hstep;
      unfold readLock, readLock_ready, readUnlock, tryReadLock,
        writeLock_enter, writeLock_resume, writeLock_ready, writeUnlock,
        tryWriteLock in Hstep;
      rewrite ?Ha, ?Ho in Hstep; cbn in Hstep;
      rewrite ?andb_false_r in Hstep; cbn in Hstep;
      lock_step Hstep; done.
Qed.

(** X28.  As long as [readUnlock] is called only while a read lock is
    held, no interleaving of the calls brings the lock to a state with a
    writer and a reader at once: [writer_active_] implies
    [active_readers_ = 0], the reader count is never negative, and the
    owner id is set only while a writer is active. *)
Theorem writer_excludes_readers (s : t) :
  reachable s ->
  0 <= active_readers_ s /\
  (writer_active_ s = true -> active_readers_ s = 0) /\
  (writer_active_ s = false -> writer_thread_id_ s = None).
Proof.
  induction 1 as [|s c s' _ IH Hproto Hstep].
  - cbn. repeat split; (done || lia).
  - by eapply step_exclusion.
Qed.

Lemma writer_excludes_readers_witness :
  0 <= active_readers_ (mk 1 0 false None 0) /\
  writer_thread_id_ (mk 1 0 false None 0) = None.
Proof.
  refine ((fun H => conj (proj1 H) (proj2 (proj2 H) eq_refl))
            (writer_excludes_readers (mk 1 0 false None 0) _)).
  apply (reach_step new CReadLock); [apply reach_new | done | reflexivity].
Defined.

(** X29.  A write lock taken with [tryWriteLock] is never released:
    [tryWriteLock] sets [writer_active_] without recording the owner, so
    [writeUnlock] by any thread returns without a change, and after every
    further sequence of calls the lock is still write-locked with no
    owner; [tryReadLock] and [tryWriteLock] answer false from then on. *)
Theorem tryWriteLock_never_released
    (s s' : t) (calls : list Call) (s'' : t) :
  reachable s ->
  tryWriteLock true s = Some (true, s') ->
  run s' calls = Some s'' ->
  writer_active_ s'' = true /\ writer_thread_id_ s'' = None /\
  (forall tid, writeUnlock tid s'' = Some s'') /\
  (forall owns, tryReadLock owns s'' = Some (false, s'')) /\
  (forall owns, tryWriteLock owns s'' = Some (false, s'')) /\
  readLock s'' = None /\
  (forall tid, writeLock_resume tid s'' = None).
Proof.
  intros Hreach Htry Hrun.
  destruct (writer_excludes_readers s Hreach) as (_ & _ & Ho).
  unfold tryWriteLock in Htry.
  destruct (true && _ && _) eqn:Hc; [|done]. injection Htry as <-.
  assert (writer_active_ s = false) as Hna.
  { destruct (writer_active_ s); [|done]. by rewrite andb_false_r in Hc. }
  apply run_stuck in Hrun as [Ha Hnone]; [|done|exact (Ho Hna)].
  split; [done|]. split; [done|].
  unfold writeUnlock, tryReadLock, tryWriteLock, readLock, readLock_ready,
    writeLock_resume, writeLock_ready.
  rewrite Ha, Hnone. cbn.
  repeat split; intros; rewrite ?andb_false_r; done.
Qed.

Lemma tryWriteLock_never_released_witness :
  writer_active_ (mk 0 0 true None 0) = true.
Proof.
  refine (proj1 (tryWriteLock_never_released new (mk 0 0 true None 0)
                   [CWriteUnlock 1%positive] (mk 0 0 true None 0) _ _ _)).
  - apply reach_new.
  - reflexivity.
  - reflexivity.
Defined.

Lemma step_keeps_writer tid s c s' :
  writer_active_ s = true -> writer_thread_id_ s = Some tid ->
  by_other tid c ->
  step s c = Some s' ->
  writer_active_ s' = true /\ writer_thread_id_ s' = Some tid.
Proof.
  intros Ha Ho Hc Hstep.
  destruct c; cbn [step by_other] in *;
    unfold readLock, readLock_ready, readUnlock, tryReadLock,
      writeLock_enter, writeLock_resume, writeLock_ready, writeUnlock,
      tryWriteLock in Hstep;
    rewrite ?Ha, ?Ho in Hstep; cbn in Hstep;
    rewrite ?andb_false_r in Hstep; cbn in Hstep;
    try (rewrite bool_decide_eq_false_2 in Hstep by congruence;
         cbn in Hstep);
    lock_step Hstep; done.
Qed.

(** A thread that asks for the read lock while it holds the write lock
    waits for ever.  Once [writeLock] by thread [tid] has returned,
    [writer_active_] is set with [tid] as the owner; whatever calls the
    other threads make on the lock, it stays so, since only [writeUnlock]
    by [tid] clears it.  The predicate
    [!writer_active_ && waiting_writers_ == 0] of the wait in [readLock]
    is therefore false in every state the lock goes through. *)
Theorem read_lock_under_write_lock_waits
    (tid : thread_id) (s : t) (calls : list Call) (s' : t) :
  writer_active_ s = true -> writer_thread_id_ s = Some tid ->
  Forall (by_other tid) calls ->
  run s calls = Some s' ->
  writer_active_ s' = true /\ writer_thread_id_ s' = Some tid /\
  readLock_ready s' = false /\ readLock s' = None.
Proof.
  intros Ha Ho Hcalls Hrun.
  assert (H : writer_active_ s' = true /\ writer_thread_id_ s' = Some tid).
  { revert s Ha Ho Hrun.
    induction Hcalls as [|c calls Hc _ IH]; intros s Ha Ho.
    - by intros [= <-].
    - cbn [run]. intros (s1 & Hstep & Hrun)%bind_Some.
      destruct (step_keeps_writer tid s c s1 Ha Ho Hc Hstep) as [Ha1 Ho1].
      by apply (IH s1). }
  destruct H as [Ha' Ho']. split; [done|]. split; [done|].
  unfold readLock, readLock_ready. by rewrite Ha'.
Qed.

Lemma read_lock_under_write_lock_waits_witness :
  let held := mk 0 0 true (Some 1%positive) 1 in
  let calls := [CWriteLockEnter 2%positive; CTryReadLock true;
                CWriteUnlock 2%positive; CTryWriteLock true] in
  (s ← writeLock_enter 1%positive new; writeLock_resume 1%positive s.2)
  = Some held /\
  run held calls = Some (mk 0 1 true (Some 1%positive) 1) /\
  readLock (mk 0 1 true (Some 1%positive) 1) = None.
Proof.
  intros held calls.
  assert (Hrun : run held calls = Some (mk 0 1 true (Some 1%positive) 1))
    by reflexivity.
  split; [reflexivity|]. split; [exact Hrun|].
  refine (proj2 (proj2 (proj2 (read_lock_under_write_lock_waits 1%positive
            held calls _ eq_refl eq_refl _ Hrun)))).
  repeat constructor; cbn; congruence.
Defined.

End ReadWriteLockFacts.
